(** * Activity Log Viewer: the ingestion and derivation pipeline

    A shallow embedding of the TypeScript sources of the log viewer
    (line parser, requirement range expander, index builder, START/terminal
    pairing, phase statistics, live-tail watcher) together with the
    properties its specification states about them.

    Conventions of the embedding.
    - A JavaScript string is a Rocq [string]; each [ascii] stands for one
      UTF-16 code unit below 256.  The character classes of the regular
      expression engine ([\d], [\s], [.], case folding) are given on that
      range exactly as ECMAScript defines them.
    - A JavaScript number that holds an integer (log_seq, counters, parsed
      requirement numbers) is a [Z]; this is exact for magnitudes below
      2^53, where doubles hold every integer and [String(n)] is the plain
      decimal notation.  Double precision arithmetic is modelled only where
      the source divides ([Math.round((completed / total) * 100)]), by exact
      rounding to 53 significant bits.
    - A JavaScript [Map] is an association list in insertion order; a [Set]
      is a duplicate-free list in insertion order.
    - Loops that push on arrays are folds that append to lists. *)

From Stdlib Require Import ZArith List String Ascii Bool Lia Permutation.
From Stdlib Require Import DecimalString.
From Stdlib Require DecimalFacts DecimalZ.
From Stdlib Require Import OrderedTypeEx.
Import ListNotations.

Local Open Scope string_scope.
Local Open Scope list_scope.
Local Open Scope Z_scope.

(* ================================================================== *)
(** * JavaScript strings *)
(* ================================================================== *)

Module JsString.

Definition code (c : ascii) : N := N_of_ascii c.

(** [\d] *)
Definition isDigit (c : ascii) : bool :=
  ((48 <=? code c) && (code c <=? 57))%N.

(** ECMAScript LineTerminator: LF, CR (U+2028 and U+2029 lie above 255). *)
Definition isLineTerminator (c : ascii) : bool :=
  ((code c =? 10) || (code c =? 13))%N.

(** [.] without the [s] flag. *)
Definition isDot (c : ascii) : bool := negb (isLineTerminator c).

(** [\s] and the characters removed by [String.prototype.trim]:
    TAB, LF, VT, FF, CR, SPACE, NBSP (the others lie above 255). *)
Definition isWhiteSpace (c : ascii) : bool :=
  ((code c =? 9) || (code c =? 10) || (code c =? 11) || (code c =? 12)
   || (code c =? 13) || (code c =? 32) || (code c =? 160))%N.

(** Canonicalize of a case-insensitive, non-unicode regular expression:
    the code unit of [toUpperCase] when that is a single code unit.
    On code units below 256: a-z and the Latin-1 lower case letters move
    down by 32; U+00B5 and U+00FF have an upper case above 255 that no
    other code unit below 256 shares, and U+00DF upper-cases to two
    characters, so all three compare equal only to themselves. *)
Definition canonicalize (c : ascii) : ascii :=
  let n := code c in
  if (((97 <=? n) && (n <=? 122))
      || ((224 <=? n) && (n <=? 254) && negb (n =? 247)))%N
  then ascii_of_N (n - 32) else c.

Definition chars (s : string) : list ascii := list_ascii_of_string s.
Definition str (l : list ascii) : string := string_of_list_ascii l.

(** [!line.trim()]: the string has only white space in it. *)
Definition isBlank (s : string) : bool := forallb isWhiteSpace (chars s).

(** [content.split('\n')] *)
Fixpoint splitLines (cur : list ascii) (s : list ascii) : list string :=
  match s with
  | [] => [str (rev cur)]
  | c :: s' =>
      if (code c =? 10)%N then str (rev cur) :: splitLines [] s'
      else splitLines (c :: cur) s'
  end.

Definition split_newline (content : string) : list string :=
  splitLines [] (chars content).

(** [parseInt(digits, 10)] on a string of decimal digits. *)
Definition digitValue (c : ascii) : Z := Z.of_N (code c) - 48.

Definition parseInt10 (ds : list ascii) : Z :=
  fold_left (fun acc c => 10 * acc + digitValue c) ds 0.

(** [String(n)] for an integer [n] of magnitude below 2^53 (plain decimal
    notation; from 10^21 on JavaScript prints an exponent). *)
Definition ofNumber (n : Z) : string := NilZero.string_of_int (Z.to_int n).

(** [s.padStart(len, '0')] *)
Definition padStart0 (len : nat) (s : string) : string :=
  (str (repeat "0"%char (len - String.length s)) ++ s)%string.

(** [s.lastIndexOf('/')]: [None] stands for -1. *)
Fixpoint lastIndexOfSlash (i : nat) (s : list ascii) (found : option nat)
  : option nat :=
  match s with
  | [] => found
  | c :: s' =>
      lastIndexOfSlash (S i) s' (if (code c =? 47)%N then Some i else found)
  end.

(** [s.substring(0, n)] *)
Definition substring0 (n : nat) (s : string) : string :=
  str (firstn n (chars s)).

End JsString.

(* ================================================================== *)
(** * JavaScript Map and Set, in insertion order *)
(* ================================================================== *)

(** Keys are compared with SameValueZero, which on strings and on integer
    numbers is plain equality. *)
Class Key (K : Type) := {
  keyb : K -> K -> bool;
  keyb_spec : forall a b, reflect (a = b) (keyb a b)
}.

#[export] Instance Key_string : Key string :=
  {| keyb := String.eqb; keyb_spec := String.eqb_spec |}.

#[export] Instance Key_Z : Key Z :=
  {| keyb := Z.eqb; keyb_spec := Z.eqb_spec |}.

Module JsMap.
Section WithKey.
Context {K V : Type} `{Key K}.

Definition t := list (K * V).

Definition empty : t := [].

Fixpoint get (k : K) (m : t) : option V :=
  match m with
  | [] => None
  | (k', v) :: m' => if keyb k k' then Some v else get k m'
  end.

Definition has (k : K) (m : t) : bool :=
  match get k m with Some _ => true | None => false end.

(** [m.set(k, v)]: an existing key keeps its place. *)
Fixpoint set (k : K) (v : V) (m : t) : t :=
  match m with
  | [] => [(k, v)]
  | (k', v') :: m' =>
      if keyb k k' then (k', v) :: m' else (k', v') :: set k v m'
  end.

(** In-place mutation of the value stored under [k] (the object returned
    by [m.get(k)!] is changed, the map keeps pointing at it). *)
Fixpoint mutate (k : K) (f : V -> V) (m : t) : t :=
  match m with
  | [] => []
  | (k', v') :: m' =>
      if keyb k k' then (k', f v') :: m' else (k', v') :: mutate k f m'
  end.

Definition keys (m : t) : list K := map fst m.
Definition values (m : t) : list V := map snd m.

End WithKey.

(** The idiom
    [if (!m.has(k)) m.set(k, []); m.get(k)!.push(x);] *)
Definition push {K X : Type} `{Key K} (k : K) (x : X) (m : list (K * list X))
  : list (K * list X) :=
  let m1 := if has k m then m else set k [] m in
  mutate k (fun l => l ++ [x]) m1.

(** [m.delete(k)] *)
Definition delete {K V : Type} `{Key K} (k : K) (m : list (K * V))
  : list (K * V) :=
  filter (fun kv => negb (keyb k (fst kv))) m.

End JsMap.

Module JsSet.
Section WithKey.
Context {K : Type} `{Key K}.

Definition has (k : K) (s : list K) : bool := existsb (keyb k) s.

Definition add (k : K) (s : list K) : list K :=
  if has k s then s else s ++ [k].

(** [s.delete(k)] *)
Definition delete (k : K) (s : list K) : list K :=
  filter (fun x => negb (keyb k x)) s.

End WithKey.
End JsSet.

(** Grouping a list by a key, as every index of the sources does:
    [for (e of l) { if (!m.has(k)) m.set(k, []); m.get(k).push(e) }]. *)
Definition groupBy {K X} `{Key K} (key : X -> K) (l : list X)
  : list (K * list X) :=
  fold_left (fun m e => JsMap.push (key e) e m) l [].

(** The distinct keys of a list, in order of first appearance. *)
Definition distinct {K} `{Key K} (l : list K) : list K :=
  fold_left (fun s k => JsSet.add k s) l [].

(** What grouping amounts to: one pair per distinct key, in order of first
    appearance, holding the elements with that key in their order. *)
Definition grouped {K X} `{Key K} (key : X -> K) (l : list X)
  : list (K * list X) :=
  map (fun k => (k, filter (fun x => keyb (key x) k) l)) (distinct (map key l)).

(* ================================================================== *)
(** * Log entries (types/log-entry.ts) *)
(* ================================================================== *)

Record LogEntry := mkLogEntry {
  log_seq : Z;
  work_seq : string;
  timestamp : string;
  agent : string;
  action : string;
  phase : string;
  parent_log_seq : option Z;
  requirements : list string;
  task_id : option string;
  details : string;
  files_created : list string;
  files_modified : list string;
  decisions : list string;
  errors : list string;
  duration_ms : option Z
}.

Record FileStats := mkFileStats {
  path : string;
  directory : string;
  createCount : Z;
  modifyCount : Z;
  totalCount : Z;
  agents : list string;
  isChurn : bool
}.

Record RequirementTrace := mkRequirementTrace {
  trace_entry : LogEntry;
  trace_phase : string;
  trace_action : string
}.

Definition REQUIRED_FIELDS : list string :=
  ["log_seq"; "timestamp"; "agent"; "action"].

(** Strict equality [===] on [string | null] and on [number | null]. *)
Definition strictEqOptString (a b : option string) : bool :=
  match a, b with
  | Some x, Some y => String.eqb x y
  | None, None => true
  | _, _ => false
  end.

Definition strictEqOptNumber (a b : option Z) : bool :=
  match a, b with
  | Some x, Some y => Z.eqb x y
  | None, None => true
  | _, _ => false
  end.

(** Truthiness of a string: the empty string is falsy. *)
Definition truthyString (s : string) : bool :=
  match s with EmptyString => false | _ => true end.

Definition truthyOptString (s : option string) : bool :=
  match s with Some x => truthyString x | None => false end.

(* ================================================================== *)
(** * Line parser (parser/log-parser.ts) *)
(* ================================================================== *)

(** The value returned by [JSON.parse].  Numbers are the integers; the
    fields of an object are distinct (JSON.parse keeps one value per key). *)
#[local] Unset Elimination Schemes.
Inductive JSON :=
| JNull
| JBool (b : bool)
| JNumber (n : Z)
| JString (s : string)
| JArray (items : list JSON)
| JObject (fields : list (string * JSON)).
#[local] Set Elimination Schemes.

(** A call either returns or throws (here always a TypeError). *)
Inductive Outcome (A : Type) :=
| Threw
| Returned (a : A).
Arguments Threw {A}.
Arguments Returned {A} a.

Definition bindO {A B} (o : Outcome A) (f : A -> Outcome B) : Outcome B :=
  match o with Threw => Threw | Returned a => f a end.

Definition mapO {A B} (f : A -> B) (o : Outcome A) : Outcome B :=
  match o with Threw => Threw | Returned a => Returned (f a) end.

Notation "x <- c1 ;; c2" := (bindO c1 (fun x => c2))
  (at level 61, c1 at next level, right associativity).

Module Parser.

(** The object literal built by [parseLine].  Its TypeScript type is
    [LogEntry], but the [as] casts are erased at run time: a field that is
    cast and not converted holds whatever JSON value the line had. *)
Record RawLogEntry := mkRaw {
  raw_log_seq : JSON;
  raw_work_seq : string;
  raw_timestamp : string;
  raw_agent : string;
  raw_action : string;
  raw_phase : string;
  raw_parent_log_seq : option JSON;
  raw_requirements : list JSON;
  raw_task_id : option JSON;
  raw_details : string;
  raw_files_created : list JSON;
  raw_files_modified : list JSON;
  raw_decisions : list JSON;
  raw_errors : list JSON;
  raw_duration_ms : option JSON
}.

Record ParseResult := mkParseResult {
  entries : list RawLogEntry;
  skippedLines : Z
  (* parseTimeMs is a difference of two clock readings and is left out *)
}.

(** [String(v)], that is ToPrimitive with hint string.  An array is
    joined with commas, its null elements printed as the empty string.  An
    object is printed by the [toString] it finds: [Object.prototype.toString]
    gives ["[object Object]"]; an own property named [toString] hides it and
    holds a JSON value, which cannot be called, and [valueOf] then yields no
    primitive either, so the conversion throws a TypeError. *)
Fixpoint toStr (v : JSON) : Outcome string :=
  match v with
  | JNull => Returned "null"
  | JBool b => Returned (if b then "true" else "false")
  | JNumber n => Returned (JsString.ofNumber n)
  | JString s => Returned s
  | JArray items =>
      (fix join (l : list JSON) : Outcome string :=
         match l with
         | [] => Returned ""
         | x :: r =>
             sx <- match x with JNull => Returned "" | _ => toStr x end ;;
             match r with
             | [] => Returned sx
             | _ => sr <- join r ;; Returned (sx ++ "," ++ sr)%string
             end
         end) items
  | JObject fields =>
      if JsMap.has "toString" fields then Threw
      else Returned "[object Object]"
  end.

(** [field in parsed]: a TypeError unless [parsed] is an object.  None of
    the required field names is a property of an array. *)
Definition hasProperty (field : string) (parsed : JSON) : Outcome bool :=
  match parsed with
  | JObject fields => Returned (JsMap.has field fields)
  | JArray _ => Returned false
  | _ => Threw
  end.

(** [parsed[field]], [None] for undefined; only reached on objects. *)
Definition getProperty (field : string) (parsed : JSON) : option JSON :=
  match parsed with
  | JObject fields => JsMap.get field fields
  | _ => None
  end.

(** [v === undefined || v === null] *)
Definition isNullish (v : option JSON) : bool :=
  match v with None | Some JNull => true | _ => false end.

(** [String(v ?? '')] *)
Definition stringOr (v : option JSON) : Outcome string :=
  match v with None | Some JNull => Returned "" | Some x => toStr x end.

(** [v ?? null] *)
Definition orNull (v : option JSON) : option JSON :=
  match v with None | Some JNull => None | Some x => Some x end.

(** [Array.isArray(v) ? v : []] *)
Definition arrayOr (v : option JSON) : list JSON :=
  match v with Some (JArray items) => items | _ => [] end.

(** The loop over REQUIRED_FIELDS: [Returned false] is the early
    [return null]. *)
Fixpoint checkRequired (fields : list string) (parsed : JSON) : Outcome bool :=
  match fields with
  | [] => Returned true
  | field :: rest =>
      present <- hasProperty field parsed ;;
      if negb present || isNullish (getProperty field parsed)
      then Returned false
      else checkRequired rest parsed
  end.

(** The object literal of [parseLine], its properties evaluated in
    order; the six [String(...)] calls can throw. *)
Definition buildEntry (parsed : JSON) : Outcome RawLogEntry :=
  let p f := getProperty f parsed in
  work_seq <- stringOr (p "work_seq") ;;
  timestamp <- stringOr (p "timestamp") ;;
  agent <- stringOr (p "agent") ;;
  action <- stringOr (p "action") ;;
  phase <- stringOr (p "phase") ;;
  details <- stringOr (p "details") ;;
  Returned
    {| (* log_seq is present: the entry is built after [checkRequired] *)
       raw_log_seq := match p "log_seq" with Some v => v | None => JNull end;
       raw_work_seq := work_seq;
       raw_timestamp := timestamp;
       raw_agent := agent;
       raw_action := action;
       raw_phase := phase;
       raw_parent_log_seq := orNull (p "parent_log_seq");
       raw_requirements := arrayOr (p "requirements");
       raw_task_id := orNull (p "task_id");
       raw_details := details;
       raw_files_created := arrayOr (p "files_created");
       raw_files_modified := arrayOr (p "files_modified");
       raw_decisions := arrayOr (p "decisions");
       raw_errors := arrayOr (p "errors");
       raw_duration_ms := orNull (p "duration_ms") |}.

Section WithBuiltins.

(** [JSON.parse]: [None] is a SyntaxError, caught by [parseLine]. *)
Variable JSON_parse : string -> option JSON.

(** [StringToNumber] of ECMAScript on strings, [None] for NaN; used only
    when a log_seq that is not a number is compared with a number. *)
Variable StringToNumber : string -> option Z.

(** [parseLine]: [Returned None] is [null]. *)
Definition parseLine (line : string) : Outcome (option RawLogEntry) :=
  if JsString.isBlank line then Returned None
  else
    match JSON_parse line with
    | None => Returned None
    | Some parsed =>
        ok <- checkRequired REQUIRED_FIELDS parsed ;;
        if ok then entry <- buildEntry parsed ;; Returned (Some entry)
        else Returned None
    end.

(** The body of the loop of [parseLogContent], on the pair
    (entries, skippedLines); [keep] is the test made before the push. *)
Definition parseStep (keep : RawLogEntry -> Outcome bool)
    (st : list RawLogEntry * Z) (line : string)
  : Outcome (list RawLogEntry * Z) :=
  if JsString.isBlank line then Returned st
  else
    entry <- parseLine line ;;
    match entry with
    | Some e =>
        kept <- keep e ;;
        Returned (if kept then (fst st ++ [e], snd st) else st)
    | None => Returned (fst st, snd st + 1)
    end.

Fixpoint parseLoop (keep : RawLogEntry -> Outcome bool) (lines : list string)
    (st : list RawLogEntry * Z) : Outcome (list RawLogEntry * Z) :=
  match lines with
  | [] => Returned st
  | line :: rest => st' <- parseStep keep st line ;; parseLoop keep rest st'
  end.

Definition parseLogContent (content : string) : Outcome ParseResult :=
  mapO (fun st => mkParseResult (fst st) (snd st))
       (parseLoop (fun _ => Returned true)
                  (JsString.split_newline content) ([], 0)).

(** The number that [v > w] compares for a number [w]: ToPrimitive with
    hint number, then ToNumber; [None] is NaN.  For an array or an object
    [valueOf] yields no primitive and the conversion goes on to [toString],
    as [String(v)] does, and throws where that throws. *)
Definition toNumber (v : JSON) : Outcome (option Z) :=
  match v with
  | JNull => Returned (Some 0)
  | JBool b => Returned (Some (if b then 1 else 0))
  | JNumber n => Returned (Some n)
  | JString s => Returned (StringToNumber s)
  | JArray _ | JObject _ => s <- toStr v ;; Returned (StringToNumber s)
  end.

(** [v > w] for a number [w]. *)
Definition greaterThan (v : JSON) (w : Z) : Outcome bool :=
  n <- toNumber v ;;
  Returned (match n with Some n => w <? n | None => false end).

Definition parseIncrementalContent (content : string) (lastLogSeq : Z)
  : Outcome ParseResult :=
  mapO (fun st => mkParseResult (fst st) (snd st))
       (parseLoop (fun e => greaterThan (raw_log_seq e) lastLogSeq)
                  (JsString.split_newline content) ([], 0)).

End WithBuiltins.

(** ** Requirement range expansion *)

(** The backtracking matcher of
    [/^(.+-?)(\d+)\s+through\s+\1(\d+)$/i], written with continuations as
    in the ECMAScript semantics: a greedy quantifier tries the longest
    repetition first and gives back one character at a time when the
    continuation fails. *)
Fixpoint greedyStar {R} (p : ascii -> bool) (s : list ascii)
    (k : list ascii -> list ascii -> option R) : option R :=
  match s with
  | c :: s' =>
      if p c then
        match greedyStar p s' (fun taken rest => k (c :: taken) rest) with
        | Some r => Some r
        | None => k [] s
        end
      else k [] s
  | [] => k [] []
  end.

Definition greedyPlus {R} (p : ascii -> bool) (s : list ascii)
    (k : list ascii -> list ascii -> option R) : option R :=
  match s with
  | c :: s' =>
      if p c then greedyStar p s' (fun taken rest => k (c :: taken) rest)
      else None
  | [] => None
  end.

(** [-?] *)
Definition optionalDash {R} (s : list ascii)
    (k : list ascii -> list ascii -> option R) : option R :=
  match s with
  | c :: s' =>
      if (JsString.code c =? 45)%N then
        match k [c] s' with
        | Some r => Some r
        | None => k [] s
        end
      else k [] s
  | [] => k [] []
  end.

(** A literal or a backreference under the [i] flag: the characters are
    compared after Canonicalize. *)
Fixpoint matchFolded (pat : list ascii) (s : list ascii)
  : option (list ascii) :=
  match pat with
  | [] => Some s
  | a :: pat' =>
      match s with
      | c :: s' =>
          if Ascii.eqb (JsString.canonicalize a) (JsString.canonicalize c)
          then matchFolded pat' s' else None
      | [] => None
      end
  end.

(** [rangeStr.match(rangePattern)]: the three captures of the first
    successful match in backtracking order. *)
Definition matchRange (s : list ascii)
  : option (list ascii * list ascii * list ascii) :=
  greedyPlus JsString.isDot s (fun dots r1 =>
  optionalDash r1 (fun dash r2 =>
  let g1 := dots ++ dash in
  greedyPlus JsString.isDigit r2 (fun g2 r3 =>
  greedyPlus JsString.isWhiteSpace r3 (fun _ r4 =>
  match matchFolded (JsString.chars "through") r4 with
  | None => None
  | Some r5 =>
      greedyPlus JsString.isWhiteSpace r5 (fun _ r6 =>
      match matchFolded g1 r6 with
      | None => None
      | Some r7 =>
          greedyPlus JsString.isDigit r7 (fun g3 r8 =>
          match r8 with
          | [] => Some (g1, g2, g3)
          | _ => None
          end)
      end)
  end)))).

(** [for (let i = start; i <= end; i++)] *)
Definition numbersFromTo (first last : Z) : list Z :=
  map (fun i => first + Z.of_nat i) (seq 0 (Z.to_nat (last - first + 1))).

Definition expandRequirementRange (rangeStr : string) : list string :=
  match matchRange (JsString.chars rangeStr) with
  | None => [rangeStr]
  | Some (g1, g2, g3) =>
      let prefix := JsString.str g1 in
      let first := JsString.parseInt10 g2 in
      let last := JsString.parseInt10 g3 in
      let padLength := List.length g2 in
      if last <? first then [rangeStr]
      else
        map (fun i =>
               (prefix ++ JsString.padStart0 padLength (JsString.ofNumber i))%string)
            (numbersFromTo first last)
  end.

Definition expandAllRequirements (reqs : list string) : list string :=
  fold_left (fun expanded req => expanded ++ expandRequirementRange req)
            reqs [].

End Parser.

(* ================================================================== *)
(** * Index builder (indexer/indexer.ts) *)
(* ================================================================== *)

Module Indexer.

Record LogIndices := mkLogIndices {
  entryMap : list (Z * LogEntry);
  agentIndex : list (string * list LogEntry);
  phaseIndex : list (string * list LogEntry);
  workSeqIndex : list (string * list LogEntry);
  fileFrequencyMap : list (string * FileStats);
  requirementIndex : list (string * list RequirementTrace);
  parentChildMap : list (Z * list Z)
}.

Definition emptyIndices : LogIndices :=
  mkLogIndices [] [] [] [] [] [] [].

Inductive ChangeType := create | modify.

(** [filePath.substring(0, filePath.lastIndexOf('/')) || '/'];
    [substring(0, -1)] is the empty string. *)
Definition directoryOf (filePath : string) : string :=
  let d :=
    match JsString.lastIndexOfSlash 0 (JsString.chars filePath) None with
    | Some i => JsString.substring0 i filePath
    | None => ""
    end in
  if truthyString d then d else "/".

Definition freshStats (filePath : string) : FileStats :=
  {| path := filePath; directory := directoryOf filePath;
     createCount := 0; modifyCount := 0; totalCount := 0;
     agents := []; isChurn := false |}.

(** The mutation of the stats object in [updateFileStats]. *)
Definition touch (agentName : string) (type : ChangeType) (st : FileStats)
  : FileStats :=
  let c := match type with create => createCount st + 1
                         | modify => createCount st end in
  let m := match type with create => modifyCount st
                         | modify => modifyCount st + 1 end in
  {| path := path st; directory := directory st;
     createCount := c; modifyCount := m; totalCount := c + m;
     agents := JsSet.add agentName (agents st);
     isChurn := (0 <? c) && (0 <? m) |}.

Definition updateFileStats (fileFrequencyMap : list (string * FileStats))
    (filePath agentName : string) (type : ChangeType)
  : list (string * FileStats) :=
  let m1 := if JsMap.has filePath fileFrequencyMap then fileFrequencyMap
            else JsMap.set filePath (freshStats filePath) fileFrequencyMap in
  JsMap.mutate filePath (touch agentName type) m1.

Definition indexEntry (entry : LogEntry) (idx : LogIndices) : LogIndices :=
  let entryMap' := JsMap.set (log_seq entry) entry (entryMap idx) in
  let agentIndex' := JsMap.push (agent entry) entry (agentIndex idx) in
  let phaseIndex' :=
    if truthyString (phase entry)
    then JsMap.push (phase entry) entry (phaseIndex idx)
    else phaseIndex idx in
  let workSeqIndex' := JsMap.push (work_seq entry) entry (workSeqIndex idx) in
  let files1 :=
    fold_left (fun m filePath => updateFileStats m filePath (agent entry) create)
              (files_created entry) (fileFrequencyMap idx) in
  let files2 :=
    fold_left (fun m filePath => updateFileStats m filePath (agent entry) modify)
              (files_modified entry) files1 in
  let requirementIndex' :=
    if (0 <? Z.of_nat (List.length (requirements entry)))
    then
      fold_left
        (fun m reqId =>
           JsMap.push reqId
             (mkRequirementTrace entry (phase entry) (action entry)) m)
        (Parser.expandAllRequirements (requirements entry))
        (requirementIndex idx)
    else requirementIndex idx in
  let parentChildMap' :=
    match parent_log_seq entry with
    | Some parent => JsMap.push parent (log_seq entry) (parentChildMap idx)
    | None => parentChildMap idx
    end in
  mkLogIndices entryMap' agentIndex' phaseIndex' workSeqIndex' files2
               requirementIndex' parentChildMap'.

Definition buildIndices (entries : list LogEntry) : LogIndices :=
  fold_left (fun idx entry => indexEntry entry idx) entries emptyIndices.

(** The indices are mutated in place; the function returns the state of
    the same seven maps after the loop. *)
Definition updateIndicesIncremental (indices : LogIndices)
    (newEntries : list LogEntry) : LogIndices :=
  fold_left (fun idx entry => indexEntry entry idx) newEntries indices.

(** The body of the loop of [computeTimestampRange]; [<] and [>] on
    strings compare code units lexicographically. *)
Definition rangeStep (range : string * string) (entry : LogEntry)
  : string * string :=
  let '(earliest, latest) := range in
  (if String.ltb (timestamp entry) earliest then timestamp entry else earliest,
   if String.ltb latest (timestamp entry) then timestamp entry else latest).

(** [computeTimestampRange]; [None] is [null]. *)
Definition computeTimestampRange (entries : list LogEntry)
  : option (string * string) :=
  match entries with
  | [] => None
  | first :: _ =>
      Some (fold_left rangeStep entries (timestamp first, timestamp first))
  end.

End Indexer.

(* ================================================================== *)
(** * START/terminal pairing (TimelineView/pairEntries.ts) *)
(* ================================================================== *)

Module Pairing.

Definition TERMINAL_ACTIONS : list string :=
  ["COMPLETE"; "REVIEW_PASS"; "TEST_PASS"; "REVIEW_FAIL"; "TEST_FAIL"; "ERROR"].

Definition SUCCESS_TERMINALS : list string :=
  ["COMPLETE"; "REVIEW_PASS"; "TEST_PASS"].

Definition FAILURE_TERMINALS : list string :=
  ["REVIEW_FAIL"; "TEST_FAIL"; "ERROR"].

Definition MARKER_ACTIONS : list string :=
  ["DECISION"; "FILE_CREATE"; "FILE_MODIFY"; "BLOCKED"; "UNBLOCKED"].

Inductive BarOutcome := success | failure.

Record DurationBar := mkBar {
  startEntry : LogEntry;
  endEntry : LogEntry;
  outcome : BarOutcome
}.

Record OrphanStart := mkOrphan { orphan_entry : LogEntry }.

Record MarkerEvent := mkMarker {
  marker_entry : LogEntry;
  parentBar : option DurationBar
}.

Record PairingResult := mkPairingResult {
  bars : list DurationBar;
  orphans : list OrphanStart;
  markers : list MarkerEvent
}.

Definition isStart (e : LogEntry) : bool := String.eqb (action e) "START".
Definition isTerminal (e : LogEntry) : bool :=
  JsSet.has (action e) TERMINAL_ACTIONS.
Definition isMarker (e : LogEntry) : bool :=
  JsSet.has (action e) MARKER_ACTIONS.

(** Step 1: the three arrays [starts], [terminals], [markerEntries]. *)
Definition classifyStep
    (acc : list LogEntry * list LogEntry * list LogEntry) (entry : LogEntry)
  : list LogEntry * list LogEntry * list LogEntry :=
  let '(starts, terminals, markerEntries) := acc in
  if isStart entry then (starts ++ [entry], terminals, markerEntries)
  else if isTerminal entry then (starts, terminals ++ [entry], markerEntries)
  else if isMarker entry then (starts, terminals, markerEntries ++ [entry])
  else acc.

Definition classify (entries : list LogEntry)
  : list LogEntry * list LogEntry * list LogEntry :=
  fold_left classifyStep entries ([], [], []).

(** Step 2: [terminalsByAgent]. *)
Definition groupStep (m : list (string * list LogEntry)) (t : LogEntry)
  : list (string * list LogEntry) :=
  match JsMap.get (agent t) m with
  | Some _ => JsMap.mutate (agent t) (fun l => l ++ [t]) m
  | None => JsMap.set (agent t) [t] m
  end.

Definition groupByAgent (terminals : list LogEntry)
  : list (string * list LogEntry) :=
  fold_left groupStep terminals [].

(** The two inner loops of step 3: the first terminal of the agent whose
    log_seq is not in [consumedTerminals] and that satisfies [cond]. *)
Fixpoint firstMatch (cond : LogEntry -> bool) (consumed : list Z)
    (agentTerminals : list LogEntry) : option LogEntry :=
  match agentTerminals with
  | [] => None
  | t :: rest =>
      if JsSet.has (log_seq t) consumed then firstMatch cond consumed rest
      else if cond t then Some t
      else firstMatch cond consumed rest
  end.

Definition primaryCond (start t : LogEntry) : bool :=
  strictEqOptString (task_id t) (task_id start)
  && (log_seq start <? log_seq t).

Definition secondaryCond (start t : LogEntry) : bool :=
  String.eqb (phase t) (phase start)
  && strictEqOptNumber (parent_log_seq t) (parent_log_seq start)
  && (log_seq start <? log_seq t).

Definition findTerminal (start : LogEntry) (consumed : list Z)
    (agentTerminals : list LogEntry) : option LogEntry :=
  let matched :=
    if truthyOptString (task_id start)
    then firstMatch (primaryCond start) consumed agentTerminals
    else None in
  match matched with
  | Some t => Some t
  | None => firstMatch (secondaryCond start) consumed agentTerminals
  end.

Definition outcomeOf (t : LogEntry) : BarOutcome :=
  if JsSet.has (action t) SUCCESS_TERMINALS then success else failure.

Record PairState := mkPairState {
  st_bars : list DurationBar;
  st_orphans : list OrphanStart;
  consumedTerminals : list Z
}.

Definition initialState : PairState := mkPairState [] [] [].

(** The body of the loop over [starts]. *)
Definition pairStep (terminalsByAgent : list (string * list LogEntry))
    (st : PairState) (start : LogEntry) : PairState :=
  match JsMap.get (agent start) terminalsByAgent with
  | None =>
      mkPairState (st_bars st) (st_orphans st ++ [mkOrphan start])
                  (consumedTerminals st)
  | Some agentTerminals =>
      match findTerminal start (consumedTerminals st) agentTerminals with
      | Some matched =>
          mkPairState
            (st_bars st ++ [mkBar start matched (outcomeOf matched)])
            (st_orphans st)
            (JsSet.add (log_seq matched) (consumedTerminals st))
      | None =>
          mkPairState (st_bars st) (st_orphans st ++ [mkOrphan start])
                      (consumedTerminals st)
      end
  end.

Definition pairStarts (terminalsByAgent : list (string * list LogEntry))
    (starts : list LogEntry) : PairState :=
  fold_left (pairStep terminalsByAgent) starts initialState.

Section WithDate.

(** [new Date(s).getTime()]: [None] is NaN. *)
Variable Date_getTime : string -> option Z.

(** [a <= b] on numbers, false when either is NaN. *)
Definition leNumber (a b : option Z) : bool :=
  match a, b with Some x, Some y => x <=? y | _, _ => false end.

(** Step 4, the loop over [bars] for one marker. *)
Fixpoint findParentBar (m : LogEntry) (bs : list DurationBar)
  : option DurationBar :=
  match bs with
  | [] => None
  | bar :: rest =>
      if negb (String.eqb (agent (startEntry bar)) (agent m))
      then findParentBar m rest
      else
        let mTime := Date_getTime (timestamp m) in
        let barStart := Date_getTime (timestamp (startEntry bar)) in
        let barEnd := Date_getTime (timestamp (endEntry bar)) in
        if leNumber barStart mTime && leNumber mTime barEnd then Some bar
        else findParentBar m rest
  end.

Definition pairEntries (entries : list LogEntry) : PairingResult :=
  let '(starts, terminals, markerEntries) := classify entries in
  let terminalsByAgent := groupByAgent terminals in
  let st := pairStarts terminalsByAgent starts in
  mkPairingResult
    (st_bars st)
    (st_orphans st)
    (map (fun m => mkMarker m (findParentBar m (st_bars st))) markerEntries).

End WithDate.

End Pairing.

(* ================================================================== *)
(** * Phase statistics (config/constants.ts, DashboardView.tsx) *)
(* ================================================================== *)

(** Double precision values that are not negative, as [mant * 2^expo].
    Only the three operations of
    [Math.round((completed / total) * 100)] are needed. *)
Module Double.

Record t := mk { mant : Z; expo : Z }.

(** Nearest integer to [a / b], ties to even ([0 <= a], [0 < b]). *)
Definition roundHalfEven (a b : Z) : Z :=
  let q := a / b in
  let r := a mod b in
  if 2 * r <? b then q
  else if b <? 2 * r then q + 1
  else if Z.even q then q else q + 1.

(** [n / (d * 2^e)] as a fraction of integers. *)
Definition scaled (n d e : Z) : Z * Z :=
  if 0 <=? e then (n, d * 2 ^ e) else (n * 2 ^ (- e), d).

(** The double nearest to the rational [n / d] (round to nearest, ties to
    even, 53 significant bits), for [0 <= n], [0 < d] and a quotient in
    the range of normal doubles. *)
Definition ofFraction (n d : Z) : t :=
  if n =? 0 then mk 0 0
  else
    let e0 := Z.log2 n - Z.log2 d - 52 in
    let '(a0, b0) := scaled n d e0 in
    let e := if a0 <? b0 * 2 ^ 52 then e0 - 1 else e0 in
    let '(a, b) := scaled n d e in
    mk (roundHalfEven a b) e.

(** [x / y] for two integers [x], [y] that doubles represent exactly. *)
Definition div (x y : Z) : t := ofFraction x y.

(** [v * k] for an integer [k]. *)
Definition mulInt (v : t) (k : Z) : t :=
  if 0 <=? expo v then ofFraction (mant v * k * 2 ^ expo v) 1
  else ofFraction (mant v * k) (2 ^ (- expo v)).

(** [Math.round(v)]: the integer nearest to [v], ties upwards, that is
    the floor of [v + 1/2]. *)
Definition round (v : t) : Z :=
  if 0 <=? expo v then mant v * 2 ^ expo v
  else (2 * mant v + 2 ^ (- expo v)) / 2 ^ (1 - expo v).

End Double.

Module Dashboard.

Record PhaseStats := mkPhaseStats {
  name : string;
  total : Z;
  completed : Z;
  inProgress : Z;
  failures : Z;
  errors_count : Z;      (* the field [errors], always 0 *)
  percentage : Z
}.

Definition CANONICAL_PHASE_ORDER : list string :=
  ["requirements"; "architecture"; "design"; "planning"; "implementation";
   "review"; "testing"; "documentation"; "deployment"].

(** In DashboardView.tsx [TERMINAL_ACTIONS] names the success terminals. *)
Definition TERMINAL_ACTIONS : list string :=
  ["COMPLETE"; "REVIEW_PASS"; "TEST_PASS"].

Definition FAILURE_ACTIONS : list string :=
  ["REVIEW_FAIL"; "TEST_FAIL"; "ERROR"].

(** [arr.indexOf(x)], -1 when absent. *)
Fixpoint indexOfFrom (i : Z) (x : string) (l : list string) : Z :=
  match l with
  | [] => -1
  | y :: r => if String.eqb y x then i else indexOfFrom (i + 1) x r
  end.

Definition indexOf (x : string) (l : list string) : Z := indexOfFrom 0 x l.

(** [Array.prototype.sort] with a comparator: the stable sort. *)
Fixpoint insertSorted {A} (cmp : A -> A -> Z) (x : A) (l : list A) : list A :=
  match l with
  | [] => [x]
  | y :: r => if cmp x y <=? 0 then x :: l else y :: insertSorted cmp x r
  end.

Definition stableSort {A} (cmp : A -> A -> Z) (l : list A) : list A :=
  fold_right (insertSorted cmp) [] l.

(** [`${e.agent}|${e.task_id ?? e.log_seq}`] *)
Definition workUnitKey (e : LogEntry) : string :=
  (agent e ++ "|" ++
   match task_id e with
   | Some t => t
   | None => JsString.ofNumber (log_seq e)
   end)%string.

Definition isStart (e : LogEntry) : bool := String.eqb (action e) "START".

(** [(prev, curr) => curr.log_seq > prev.log_seq ? curr : prev] *)
Definition later (prev curr : LogEntry) : LogEntry :=
  if log_seq prev <? log_seq curr then curr else prev.

(** The body of the loop over the work units, on the counters
    (total, completed, failures).  [reduce] is called without an initial
    value; it is reached only when [some] found a START, so the array has
    a first element. *)
Definition countStep (acc : Z * Z * Z) (unitEntries : list LogEntry)
  : Z * Z * Z :=
  let '(total, completed, failures) := acc in
  if negb (existsb isStart unitEntries) then acc
  else
    match unitEntries with
    | [] => acc
    | first :: others =>
        let latest := fold_left later others first in
        if JsSet.has (action latest) TERMINAL_ACTIONS
        then (total + 1, completed + 1, failures)
        else if JsSet.has (action latest) FAILURE_ACTIONS
        then (total + 1, completed, failures + 1)
        else (total + 1, completed, failures)
    end.

Definition groupWorkUnits (phaseEntries : list LogEntry)
  : list (string * list LogEntry) :=
  fold_left (fun m e => JsMap.push (workUnitKey e) e m) phaseEntries [].

Definition phaseRecord (phaseMap : list (string * list LogEntry))
    (name : string) : PhaseStats :=
  let phaseEntries :=
    match JsMap.get name phaseMap with Some l => l | None => [] end in
  let workUnits := groupWorkUnits phaseEntries in
  let '(total, completed, failures) :=
    fold_left countStep (JsMap.values workUnits) (0, 0, 0) in
  let inProgress := Z.max 0 (total - completed - failures) in
  {| name := name;
     total := total;
     completed := completed;
     inProgress := inProgress;
     failures := failures;
     errors_count := 0;
     percentage :=
       if 0 <? total
       then Z.min 100 (Double.round (Double.mulInt (Double.div completed total) 100))
       else 0 |}.

Definition groupByPhase (entries : list LogEntry)
  : list (string * list LogEntry) :=
  fold_left
    (fun m e => if truthyString (phase e) then JsMap.push (phase e) e m else m)
    entries [].

Section WithLocale.

(** [a.localeCompare(b)], which depends on the locale of the host. *)
Variable localeCompare : string -> string -> Z.

Definition comparePhases (a b : string) : Z :=
  let ai := indexOf a CANONICAL_PHASE_ORDER in
  let bi := indexOf b CANONICAL_PHASE_ORDER in
  if (0 <=? ai) && (0 <=? bi) then ai - bi
  else if 0 <=? ai then -1
  else if 0 <=? bi then 1
  else localeCompare a b.

Definition sortPhases (phases : list string) : list string :=
  stableSort comparePhases phases.

Definition computePhaseStats (entries : list LogEntry) : list PhaseStats :=
  let phaseMap := groupByPhase entries in
  let sortedPhaseNames := sortPhases (JsMap.keys phaseMap) in
  map (phaseRecord phaseMap) sortedPhaseNames.

End WithLocale.

(** ** Active agents *)

(** [`${entry.agent}-${entry.task_id ?? entry.log_seq}`] *)
Definition startKey (e : LogEntry) : string :=
  (agent e ++ "-" ++
   match task_id e with
   | Some t => t
   | None => JsString.ofNumber (log_seq e)
   end)%string.

(** [`${entry.agent}-${entry.task_id ?? entry.parent_log_seq ??
    entry.log_seq}`] *)
Definition closeKey (e : LogEntry) : string :=
  (agent e ++ "-" ++
   match task_id e with
   | Some t => t
   | None =>
       match parent_log_seq e with
       | Some p => JsString.ofNumber p
       | None => JsString.ofNumber (log_seq e)
       end
   end)%string.

(** The actions that [findActiveAgents] takes to end a START. *)
Definition isClosing (e : LogEntry) : bool :=
  String.eqb (action e) "COMPLETE"
  || String.eqb (action e) "REVIEW_PASS"
  || String.eqb (action e) "REVIEW_FAIL"
  || String.eqb (action e) "ERROR".

(** The body of the loop, on the map [starts]. *)
Definition activeStep (starts : list (string * LogEntry)) (entry : LogEntry)
  : list (string * LogEntry) :=
  if isStart entry then JsMap.set (startKey entry) entry starts
  else if isClosing entry then JsMap.delete (closeKey entry) starts
  else starts.

Definition findActiveAgents (entries : list LogEntry) : list string :=
  distinct (map agent (JsMap.values (fold_left activeStep entries []))).

End Dashboard.

(* ================================================================== *)
(** * Filters (types/filters.ts, store/FilterContext.tsx) *)
(* ================================================================== *)

Module Filters.

Record FilterState := mkFilterState {
  agents : list string;
  actions : list string;
  phases : list string;
  workSeqs : list string;
  fileFilter : option string;
  requirementFilter : option string
}.

Inductive FilterDimension := Agents | Actions | Phases | WorkSeqs.

Inductive FilterAction :=
| SET_FILTER (dimension : FilterDimension) (values : list string)
| TOGGLE_FILTER_VALUE (dimension : FilterDimension) (value : string)
| CLEAR_FILTER (dimension : FilterDimension)
| SET_FILE_FILTER (file : option string)
| SET_REQUIREMENT_FILTER (requirement : option string)
| CLEAR_ALL.

Definition createEmptyFilterState : FilterState :=
  mkFilterState [] [] [] [] None None.

(** [set.size > 0] *)
Definition nonEmptySet (s : list string) : bool :=
  match s with [] => false | _ => true end.

(** [x !== null] *)
Definition notNull (x : option string) : bool :=
  match x with Some _ => true | None => false end.

Definition isFilterActive (state : FilterState) : bool :=
  nonEmptySet (agents state)
  || nonEmptySet (actions state)
  || nonEmptySet (phases state)
  || nonEmptySet (workSeqs state)
  || notNull (fileFilter state)
  || notNull (requirementFilter state).

(** [state[dimension]] *)
Definition getDimension (state : FilterState) (d : FilterDimension)
  : list string :=
  match d with
  | Agents => agents state
  | Actions => actions state
  | Phases => phases state
  | WorkSeqs => workSeqs state
  end.

(** [{ ...state, [dimension]: values }] *)
Definition setDimension (state : FilterState) (d : FilterDimension)
    (values : list string) : FilterState :=
  match d with
  | Agents =>
      mkFilterState values (actions state) (phases state) (workSeqs state)
                    (fileFilter state) (requirementFilter state)
  | Actions =>
      mkFilterState (agents state) values (phases state) (workSeqs state)
                    (fileFilter state) (requirementFilter state)
  | Phases =>
      mkFilterState (agents state) (actions state) values (workSeqs state)
                    (fileFilter state) (requirementFilter state)
  | WorkSeqs =>
      mkFilterState (agents state) (actions state) (phases state) values
                    (fileFilter state) (requirementFilter state)
  end.

(** [new Set(iterable)] keeps the first occurrence of every element. *)
Definition filterReducer (state : FilterState) (a : FilterAction)
  : FilterState :=
  match a with
  | SET_FILTER d values => setDimension state d (distinct values)
  | TOGGLE_FILTER_VALUE d value =>
      let current := distinct (getDimension state d) in
      setDimension state d
        (if JsSet.has value current then JsSet.delete value current
         else JsSet.add value current)
  | CLEAR_FILTER d => setDimension state d []
  | SET_FILE_FILTER file =>
      mkFilterState (agents state) (actions state) (phases state)
                    (workSeqs state) file (requirementFilter state)
  | SET_REQUIREMENT_FILTER requirement =>
      mkFilterState (agents state) (actions state) (phases state)
                    (workSeqs state) (fileFilter state) requirement
  | CLEAR_ALL => createEmptyFilterState
  end.

(** [arr.includes(x)] on strings *)
Definition includes (x : string) (arr : list string) : bool :=
  existsb (String.eqb x) arr.

Definition matchesFilter (entry : LogEntry) (filters : FilterState) : bool :=
  if nonEmptySet (agents filters)
     && negb (JsSet.has (agent entry) (agents filters)) then false
  else if nonEmptySet (actions filters)
          && negb (JsSet.has (action entry) (actions filters)) then false
  else if nonEmptySet (phases filters)
          && negb (JsSet.has (phase entry) (phases filters)) then false
  else if nonEmptySet (workSeqs filters)
          && negb (JsSet.has (work_seq entry) (workSeqs filters)) then false
  else if truthyOptString (fileFilter filters)
          && negb (match fileFilter filters with
                   | Some file =>
                       includes file (files_created entry)
                       || includes file (files_modified entry)
                   | None => false
                   end) then false
  else if truthyOptString (requirementFilter filters)
          && negb (match requirementFilter filters with
                   | Some req => includes req (requirements entry)
                   | None => false
                   end) then false
  else true.

Definition applyFilters (filters : FilterState) (entries : list LogEntry)
  : list LogEntry :=
  if negb (isFilterActive filters) then entries
  else filter (fun entry => matchesFilter entry filters) entries.

End Filters.

(* ================================================================== *)
(** * Live tail watcher (services/file-watcher.ts) *)
(* ================================================================== *)

Module Watcher.

Definition LIVE_TAIL_MAX_FAILURES : Z := 3.

(** The fields of the class.  [configured] says that [reReadFn] and
    [callbacks] are not null (both are set together, by [start], and never
    cleared). *)
Record FileWatcher := mkWatcher {
  intervalId : option nat;
  configured : bool;
  consecutiveFailures : Z;
  isActive : bool
}.

Definition initial : FileWatcher := mkWatcher None false 0 false.

(** Calls made on the callbacks object. *)
Inductive Callback :=
| onNewContent (content : string)
| onError (failures : Z)
| onDisabled.

(** What one attempt to re-read the file yields: content (and whether
    the [onNewContent] handler then throws, which the [catch] of [poll]
    also catches), [null], or a rejected promise. *)
Inductive ReadResult :=
| ReadContent (content : string) (handlerThrows : bool)
| ReadNull
| ReadRejected.

(** A successful poll: content was read and handed over. *)
Definition isSuccess (r : ReadResult) : bool :=
  match r with ReadContent _ false => true | _ => false end.

(** A failed poll: the content could not be acquired. *)
Definition isFailure (r : ReadResult) : bool :=
  match r with ReadNull | ReadRejected => true | ReadContent _ _ => false end.

Definition stop (w : FileWatcher) : FileWatcher :=
  mkWatcher None (configured w) (consecutiveFailures w) false.

(** [start]; [id] is the handle returned by [setInterval]. *)
Definition start (id : nat) (w : FileWatcher) : FileWatcher :=
  let w1 := stop w in
  mkWatcher (Some id) true 0 true.

(** The [catch] block of [poll]. *)
Definition onFailure (w : FileWatcher) : FileWatcher * list Callback :=
  let n := consecutiveFailures w + 1 in
  let w1 := mkWatcher (intervalId w) (configured w) n (isActive w) in
  if LIVE_TAIL_MAX_FAILURES <=? n
  then (stop w1, [onError n; onDisabled])
  else (w1, [onError n]).

Definition resetFailures (w : FileWatcher) : FileWatcher :=
  mkWatcher (intervalId w) (configured w) 0 (isActive w).

(** [poll], run to completion, with the calls it makes. *)
Definition poll (w : FileWatcher) (r : ReadResult)
  : FileWatcher * list Callback :=
  if negb (configured w) then (w, [])
  else
    match r with
    | ReadContent content false =>
        (resetFailures w, [onNewContent content])
    | ReadContent content true =>
        let '(w', calls) := onFailure (resetFailures w) in
        (w', onNewContent content :: calls)
    | ReadNull | ReadRejected => onFailure w
    end.

(** What can happen to a watcher: the methods called from outside and
    the timer firing.  A cleared interval does not fire. *)
Inductive Event :=
| Start (id : nat)
| Stop
| PollNow (r : ReadResult)
| Tick (r : ReadResult).

Definition step (w : FileWatcher) (ev : Event) : FileWatcher * list Callback :=
  match ev with
  | Start id => (start id w, [])
  | Stop => (stop w, [])
  | PollNow r => poll w r
  | Tick r =>
      match intervalId w with
      | Some _ => poll w r
      | None => (w, [])
      end
  end.

(** A run: the final state and all the calls made, in order. *)
Fixpoint run (w : FileWatcher) (evs : list Event)
  : FileWatcher * list Callback :=
  match evs with
  | [] => (w, [])
  | ev :: rest =>
      let '(w1, calls1) := step w ev in
      let '(w2, calls2) := run w1 rest in
      (w2, calls1 ++ calls2)
  end.

Inductive reachable : FileWatcher -> Prop :=
| reach_initial : reachable initial
| reach_step w ev : reachable w -> reachable (fst (step w ev)).

End Watcher.

(* ================================================================== *)
(** * Definitions used to state the properties *)
(* ================================================================== *)

(** [JSON.parse] restricted to the texts [null], [true], [false] and the
    unsigned integer literals; every other text is rejected.  It serves to
    run the parser on concrete lines. *)
Definition JSON_parse_scalars (text : string) : option JSON :=
  if String.eqb text "null" then Some JNull
  else if String.eqb text "true" then Some (JBool true)
  else if String.eqb text "false" then Some (JBool false)
  else
    match JsString.chars text with
    | [] => None
    | c :: rest =>
        if forallb JsString.isDigit (c :: rest)
           && (negb (JsString.code c =? 48)%N
               || match rest with [] => true | _ => false end)
        then Some (JNumber (JsString.parseInt10 (c :: rest)))
        else None
    end.

(** Following the words of the specification: a line is a well-formed
    record when it parses as an object in which the four required fields
    are present and not null.  [validRecord] is the event of such a line
    (none when building the event throws). *)
Definition requiredPresent (fields : list (string * JSON)) : bool :=
  forallb (fun f =>
             match JsMap.get f fields with
             | None | Some JNull => false
             | Some _ => true
             end) REQUIRED_FIELDS.

Definition validRecord (JSON_parse : string -> option JSON) (line : string)
  : option Parser.RawLogEntry :=
  if JsString.isBlank line then None
  else
    match JSON_parse line with
    | Some (JObject fields) =>
        if requiredPresent fields
        then match Parser.buildEntry (JObject fields) with
             | Returned e => Some e
             | Threw => None
             end
        else None
    | _ => None
    end.

(** The value has a string form: no object with an own property named
    [toString] is met on the way through its arrays. *)
Fixpoint printable (v : JSON) : bool :=
  match v with
  | JArray items =>
      (fix all (l : list JSON) : bool :=
         match l with
         | [] => true
         | x :: r => printable x && all r
         end) items
  | JObject fields => negb (JsMap.has "toString" fields)
  | _ => true
  end.

(** The fields that [parseLine] converts with [String]. *)
Definition TEXT_FIELDS : list string :=
  ["work_seq"; "timestamp"; "agent"; "action"; "phase"; "details"].

Definition printableRecord (fields : list (string * JSON)) : bool :=
  forallb (fun f =>
             match JsMap.get f fields with
             | Some v => printable v
             | None => true
             end) TEXT_FIELDS.

(** A non-blank line on which [parseLine] throws: its text is a JSON
    scalar, or it is a record with the required fields in which a text
    field has no string form. *)
Definition isThrowingLine (JSON_parse : string -> option JSON) (line : string)
  : bool :=
  negb (JsString.isBlank line)
  && match JSON_parse line with
     | Some (JObject fields) =>
         requiredPresent fields && negb (printableRecord fields)
     | Some (JArray _) | None => false
     | Some _ => true
     end.

(** [filter] with a test that can throw. *)
Fixpoint filterO {A} (keep : A -> Outcome bool) (l : list A)
  : Outcome (list A) :=
  match l with
  | [] => Returned []
  | x :: r =>
      kept <- keep x ;;
      rest <- filterO keep r ;;
      Returned (if kept then x :: rest else rest)
  end.

(** The log_seq of the entry is a number. *)
Definition numericSeq (e : Parser.RawLogEntry) : bool :=
  match Parser.raw_log_seq e with JNumber _ => true | _ => false end.

(** The log_seq of the entry is a number greater than [w]. *)
Definition seqAbove (w : Z) (e : Parser.RawLogEntry) : bool :=
  match Parser.raw_log_seq e with JNumber n => w <? n | _ => false end.

(** A record line whose log_seq is an object with a property named
    [toString], and the value that [JSON.parse] returns for it. *)
Definition doubleQuote : string := String "034"%char EmptyString.

Definition quoted (s : string) : string := (doubleQuote ++ s ++ doubleQuote)%string.

Definition oddSeqLine : string :=
  ("{" ++ quoted "log_seq" ++ ":{" ++ quoted "toString" ++ ":1},"
   ++ quoted "timestamp" ++ ":" ++ quoted "t" ++ ","
   ++ quoted "agent" ++ ":" ++ quoted "a" ++ ","
   ++ quoted "action" ++ ":" ++ quoted "START" ++ "}")%string.

Definition oddSeqRecord : JSON :=
  JObject [("log_seq", JObject [("toString", JNumber 1)]);
           ("timestamp", JString "t");
           ("agent", JString "a");
           ("action", JString "START")].

(** The same with the odd object as agent. *)
Definition oddAgentLine : string :=
  ("{" ++ quoted "log_seq" ++ ":1,"
   ++ quoted "timestamp" ++ ":" ++ quoted "t" ++ ","
   ++ quoted "agent" ++ ":{" ++ quoted "toString" ++ ":1},"
   ++ quoted "action" ++ ":" ++ quoted "START" ++ "}")%string.

Definition oddAgentRecord : JSON :=
  JObject [("log_seq", JNumber 1);
           ("timestamp", JString "t");
           ("agent", JObject [("toString", JNumber 1)]);
           ("action", JString "START")].

(** [JSON.parse] on the texts of the examples: the two record lines above
    and the scalars. *)
Definition JSON_parse_samples (text : string) : option JSON :=
  if String.eqb text oddSeqLine then Some oddSeqRecord
  else if String.eqb text oddAgentLine then Some oddAgentRecord
  else JSON_parse_scalars text.

Definition eventsOf (JSON_parse : string -> option JSON) (lines : list string)
  : list Parser.RawLogEntry :=
  flat_map (fun line =>
              match validRecord JSON_parse line with
              | Some e => [e]
              | None => []
              end) lines.

Definition nonBlankLines (lines : list string) : list string :=
  filter (fun line => negb (JsString.isBlank line)) lines.

(** Following the words of the specification: the inclusive enumeration
    from the start integer to the end integer, each zero-padded to the digit
    width of the start value and prefixed. *)
Definition claimedExpansion (prefix startDigits endDigits : string)
  : list string :=
  map (fun i =>
         (prefix ++ JsString.padStart0 (String.length startDigits)
                                       (JsString.ofNumber i))%string)
      (Parser.numbersFromTo
         (JsString.parseInt10 (JsString.chars startDigits))
         (JsString.parseInt10 (JsString.chars endDigits))).

(** Objects and arrays, the values on which [in] does not throw. *)
Definition isObjectLike (v : JSON) : bool :=
  match v with JObject _ | JArray _ => true | _ => false end.

Definition isOnDisabled (c : Watcher.Callback) : bool :=
  match c with Watcher.onDisabled => true | _ => false end.

(** [t] is the first element of [l] that satisfies [P]. *)
Definition firstSuch {A} (P : A -> bool) (l : list A) (t : A) : Prop :=
  exists l1 l2,
    l = l1 ++ t :: l2 /\ P t = true /\ Forall (fun x => P x = false) l1.

(** No element of [l] satisfies [P]. *)
Definition noneSuch {A} (P : A -> bool) (l : list A) : Prop :=
  Forall (fun x => P x = false) l.

(** A terminal is consumed once a bar ends at a terminal with its log_seq. *)
Definition consumedBy (bs : list Pairing.DurationBar) (t : LogEntry) : bool :=
  JsSet.has (log_seq t)
            (map (fun b => log_seq (Pairing.endEntry b)) bs).

(** [task_id !== null], the test that the specification words use. *)
Definition nonNull (x : option string) : bool :=
  match x with Some _ => true | None => false end.

(** The match rule of the pairing loop, for a given reading [present] of
    "the START has a task id".  For the START [s] that comes after the
    STARTs [processed], with [before] and [after] the state of the loop
    around it and [candidates] the terminals of the agent of [s] in arrival
    order:
    - if the task id is present and [t] is the first candidate that is not
      consumed, has the same task_id and a greater log_seq, the bar [s]-[t]
      is added;
    - if the task id is not present or there is no such candidate, and [t]
      is the first candidate that is not consumed, has the same phase, the
      same parent_log_seq and a greater log_seq, the bar [s]-[t] is added;
    - if there is neither, [s] is added to the orphans. *)
Definition matchRule (Date_getTime : string -> option Z)
    (present : option string -> bool) (entries : list LogEntry) : Prop :=
  forall processed s rest,
    filter Pairing.isStart entries = processed ++ s :: rest ->
    let terminals := filter Pairing.isTerminal entries in
    let terminalsByAgent := Pairing.groupByAgent terminals in
    let before := Pairing.pairStarts terminalsByAgent processed in
    let after := Pairing.pairStarts terminalsByAgent (processed ++ [s]) in
    let result := Pairing.pairEntries Date_getTime entries in
    let candidates :=
      filter (fun t => String.eqb (agent t) (agent s)) terminals in
    let primary t :=
      negb (consumedBy (Pairing.st_bars before) t) && Pairing.primaryCond s t in
    let secondary t :=
      negb (consumedBy (Pairing.st_bars before) t) && Pairing.secondaryCond s t in
    let paired t :=
      let bar := Pairing.mkBar s t (Pairing.outcomeOf t) in
      Pairing.st_bars after = Pairing.st_bars before ++ [bar]
      /\ Pairing.st_orphans after = Pairing.st_orphans before
      /\ In bar (Pairing.bars result) in
    let orphaned :=
      Pairing.st_bars after = Pairing.st_bars before
      /\ Pairing.st_orphans after
         = Pairing.st_orphans before ++ [Pairing.mkOrphan s]
      /\ In (Pairing.mkOrphan s) (Pairing.orphans result) in
    (forall t,
        present (task_id s) = true ->
        firstSuch primary candidates t -> paired t)
    /\ (forall t,
           present (task_id s) = false \/ noneSuch primary candidates ->
           firstSuch secondary candidates t -> paired t)
    /\ (present (task_id s) = false \/ noneSuch primary candidates ->
        noneSuch secondary candidates -> orphaned).

(** Entries for the examples. *)
Definition sampleEntry (seq : Z) (agentName actionName phaseName : string)
    (parent : option Z) (task : option string) : LogEntry :=
  {| log_seq := seq; work_seq := "001"; timestamp := "2026-01-01T00:00:00Z";
     agent := agentName; action := actionName; phase := phaseName;
     parent_log_seq := parent; requirements := []; task_id := task;
     details := ""; files_created := []; files_modified := [];
     decisions := []; errors := []; duration_ms := None |}.

(** A START and a COMPLETE of the same agent whose task_id is the empty
    string, in different phases. *)
Definition emptyTaskStart : LogEntry :=
  sampleEntry 1 "dev" "START" "design" None (Some "").
Definition emptyTaskComplete : LogEntry :=
  sampleEntry 2 "dev" "COMPLETE" "review" None (Some "").

(** Scenario 9 of the specification: two STARTs compete for one COMPLETE. *)
Definition duplicateStartScenario : list LogEntry :=
  [ sampleEntry 1 "dev" "START" "implementation" None (Some "T1");
    sampleEntry 2 "dev" "START" "implementation" None (Some "T1");
    sampleEntry 3 "dev" "COMPLETE" "implementation" None (Some "T1") ].

(** A clock for the examples: no timestamp parses. *)
Definition noDate (s : string) : option Z := None.

(** What holds of every state the watcher can be in: it is active exactly
    when its interval is set, an active watcher is configured and has
    fewer than three consecutive failures, and a watcher that was never
    started has counted no failure. *)
Definition watcherInvariant (w : Watcher.FileWatcher) : Prop :=
  0 <= Watcher.consecutiveFailures w
  /\ (Watcher.isActive w = true ->
      Watcher.intervalId w <> None /\ Watcher.configured w = true
      /\ Watcher.consecutiveFailures w < Watcher.LIVE_TAIL_MAX_FAILURES)
  /\ (Watcher.isActive w = false -> Watcher.intervalId w = None)
  /\ (Watcher.configured w = false -> Watcher.consecutiveFailures w = 0).

(** The work units of the entries of one phase: one per distinct key
    [agent|task_id-or-log_seq], each holding the entries with that key. *)
Definition unitsOf (phaseEntries : list LogEntry) : list (list LogEntry) :=
  map (fun k =>
         filter (fun e => String.eqb (Dashboard.workUnitKey e) k) phaseEntries)
      (distinct (map Dashboard.workUnitKey phaseEntries)).

(** The latest entry of a work unit by log_seq (the first one among those
    with the greatest log_seq). *)
Definition latestEntry (u : list LogEntry) : option LogEntry :=
  match u with
  | [] => None
  | first :: others => Some (fold_left Dashboard.later others first)
  end.

Definition latestIs (P : LogEntry -> bool) (u : list LogEntry) : bool :=
  match latestEntry u with Some e => P e | None => false end.

Definition hasStart (u : list LogEntry) : bool :=
  existsb Dashboard.isStart u.

Definition isSuccessTerminal (e : LogEntry) : bool :=
  JsSet.has (action e) Dashboard.TERMINAL_ACTIONS.

Definition isFailureTerminal (e : LogEntry) : bool :=
  JsSet.has (action e) Dashboard.FAILURE_ACTIONS.

Definition countWhere {A} (P : A -> bool) (l : list A) : Z :=
  Z.of_nat (List.length (filter P l)).

(** A [localeCompare] for the examples: comparison by code units. *)
Definition codeUnitCompare (a b : string) : Z :=
  match String.compare a b with Lt => -1 | Eq => 0 | Gt => 1 end.

(** Scenario 10 of the specification. *)
Definition threeUnitsScenario : list LogEntry :=
  [ sampleEntry 1 "dev" "START" "implementation" None (Some "T1");
    sampleEntry 2 "dev" "COMPLETE" "implementation" None (Some "T1");
    sampleEntry 3 "dev" "START" "implementation" None (Some "T2");
    sampleEntry 4 "dev" "START" "implementation" None (Some "T3");
    sampleEntry 5 "dev" "ERROR" "implementation" None (Some "T3") ].

(** The file changes of a list of entries, in the order in which
    [indexEntry] applies them: for each entry its created files, then its
    modified files. *)
Definition fileTouches (l : list LogEntry)
  : list (string * string * Indexer.ChangeType) :=
  flat_map (fun e =>
              map (fun f => (f, agent e, Indexer.create)) (files_created e)
              ++ map (fun f => (f, agent e, Indexer.modify)) (files_modified e))
           l.

Definition touchPath (x : string * string * Indexer.ChangeType) : string :=
  fst (fst x).
Definition touchAgent (x : string * string * Indexer.ChangeType) : string :=
  snd (fst x).
Definition isCreate (x : string * string * Indexer.ChangeType) : bool :=
  match snd x with Indexer.create => true | Indexer.modify => false end.

(** The statistics of a path, from the list of the changes made to it. *)
Definition statsOf (p : string)
    (ts : list (string * string * Indexer.ChangeType)) : FileStats :=
  let c := countWhere isCreate ts in
  let m := countWhere (fun x => negb (isCreate x)) ts in
  {| path := p;
     directory := Indexer.directoryOf p;
     createCount := c;
     modifyCount := m;
     totalCount := c + m;
     agents := distinct (map touchAgent ts);
     isChurn := (0 <? c) && (0 <? m) |}.

(** The requirement references of a list of entries after expansion, each
    with the trace that [indexEntry] records for it. *)
Definition requirementPairs (l : list LogEntry)
  : list (string * RequirementTrace) :=
  flat_map (fun e =>
              map (fun reqId =>
                     (reqId, mkRequirementTrace e (phase e) (action e)))
                  (Parser.expandAllRequirements (requirements e)))
           l.

(** [None] for an empty list, as a lookup in a [Map] gives. *)
Definition nonEmpty {A} (l : list A) : option (list A) :=
  match l with [] => None | _ => Some l end.

(** The values of a map of lists, sent through a projection. *)
Definition mapValues {K X Y} (v : X -> Y) (m : list (K * list X))
  : list (K * list Y) :=
  map (fun kv => (fst kv, map v (snd kv))) m.

(** Entries with files, requirements and a parent, for the examples. *)
Definition fileEntry (seq : Z) (agentName : string)
    (created modified reqs : list string) (parent : option Z) : LogEntry :=
  {| log_seq := seq; work_seq := "001"; timestamp := "2026-02-05T00:00:00Z";
     agent := agentName; action := "FILE_MODIFY"; phase := "implementation";
     parent_log_seq := parent; requirements := reqs; task_id := None;
     details := ""; files_created := created; files_modified := modified;
     decisions := []; errors := []; duration_ms := None |}.

Definition indexScenario : list LogEntry :=
  [ fileEntry 1 "dev1" ["src/a.ts"] [] [] None;
    fileEntry 2 "dev2" [] ["src/a.ts"] ["R-1 through R-3"] (Some 1);
    fileEntry 3 "dev1" [] ["src/a.ts"; "README.md"] ["R-2"] (Some 1) ].

(** The string holds no slash. *)
Definition hasNoSlash (f : string) : bool :=
  forallb (fun c => negb (JsString.code c =? 47)%N) (JsString.chars f).

(** Two entries with different timestamps, the later one first. *)
Definition timestampScenario : list LogEntry :=
  [ fileEntry 1 "dev1" [] [] [] None;
    sampleEntry 2 "dev1" "START" "design" None None ].

(** The action is one of the twelve that [pairEntries] classifies. *)
Definition knownAction (e : LogEntry) : bool :=
  Pairing.isStart e || Pairing.isTerminal e || Pairing.isMarker e.

(** The bar belongs to the agent of the marker and its time span, ends
    included, holds the time of the marker. *)
Definition covers (Date_getTime : string -> option Z) (m : LogEntry)
    (bar : Pairing.DurationBar) : bool :=
  String.eqb (agent (Pairing.startEntry bar)) (agent m)
  && Pairing.leNumber (Date_getTime (timestamp (Pairing.startEntry bar)))
                      (Date_getTime (timestamp m))
  && Pairing.leNumber (Date_getTime (timestamp m))
                      (Date_getTime (timestamp (Pairing.endEntry bar))).

(** A clock for the examples that reads the minutes and seconds of a
    timestamp of the form [....-..-..T..:MM:SSZ] as seconds (and nothing
    else). *)
Definition minuteClock (s : string) : option Z :=
  match JsString.chars (String.substring 14 5 s) with
  | [m1; m2; _; s1; s2] =>
      if forallb JsString.isDigit [m1; m2; s1; s2]
      then Some (60 * JsString.parseInt10 [m1; m2] + JsString.parseInt10 [s1; s2])
      else None
  | _ => None
  end.

Definition timedEntry (seq : Z) (agentName actionName : string)
    (task : option string) (time : string) : LogEntry :=
  {| log_seq := seq; work_seq := "001"; timestamp := time;
     agent := agentName; action := actionName; phase := "implementation";
     parent_log_seq := None; requirements := []; task_id := task;
     details := ""; files_created := []; files_modified := [];
     decisions := []; errors := []; duration_ms := None |}.

(** Test TC-008, with a second agent and an entry of unknown action. *)
Definition markerScenario : list LogEntry :=
  [ timedEntry 1 "developer" "START" (Some "T001") "2026-01-01T00:00:00Z";
    timedEntry 2 "developer" "FILE_CREATE" None "2026-01-01T00:05:00Z";
    timedEntry 3 "tester" "NOTE" None "2026-01-01T00:06:00Z";
    timedEntry 4 "tester" "START" (Some "T002") "2026-01-01T00:07:00Z";
    timedEntry 5 "developer" "COMPLETE" (Some "T001") "2026-01-01T00:10:00Z";
    timedEntry 6 "tester" "TEST_FAIL" (Some "T002") "2026-01-01T00:12:00Z";
    timedEntry 7 "developer" "DECISION" None "2026-01-01T00:20:00Z" ].

(** The entry was logged by agent [a]. *)
Definition ofAgent (a : string) (e : LogEntry) : bool :=
  String.eqb (agent e) a.

(** The separator of [content.split('\n')]. *)
Definition newline : string := String "010"%char EmptyString.

(** Two parse results put one after the other. *)
Definition appendResults (r1 r2 : Parser.ParseResult) : Parser.ParseResult :=
  Parser.mkParseResult
    (Parser.entries r1 ++ Parser.entries r2)
    (Parser.skippedLines r1 + Parser.skippedLines r2).

(** Two strings that the regular expression engine compares equal under
    the [i] flag. *)
Definition sameFolded (a b : list ascii) : Prop :=
  map JsString.canonicalize a = map JsString.canonicalize b.

(** A non-empty run of characters of one class. *)
Definition run (p : ascii -> bool) (l : list ascii) : Prop :=
  l <> [] /\ forallb p l = true.

(** The text reads [g1 g2 ws through ws g1' g3]: a non-empty first group
    without line terminators, digits, white space, the word "through" in
    any case, white space, the first group again up to case, digits. *)
Definition rangeShape (s g1 g2 g3 : list ascii) : Prop :=
  exists ws1 word ws2 g1',
    s = g1 ++ g2 ++ ws1 ++ word ++ ws2 ++ g1' ++ g3
    /\ run JsString.isDot g1
    /\ run JsString.isDigit g2
    /\ run JsString.isWhiteSpace ws1
    /\ sameFolded (JsString.chars "through") word
    /\ run JsString.isWhiteSpace ws2
    /\ sameFolded g1 g1'
    /\ run JsString.isDigit g3.

(** The decimal numeral that a string of digits spells. *)
Definition digitToUint (c : ascii) (u : Decimal.uint) : Decimal.uint :=
  match JsString.digitValue c with
  | 0 => Decimal.D0 u
  | 1 => Decimal.D1 u
  | 2 => Decimal.D2 u
  | 3 => Decimal.D3 u
  | 4 => Decimal.D4 u
  | 5 => Decimal.D5 u
  | 6 => Decimal.D6 u
  | 7 => Decimal.D7 u
  | 8 => Decimal.D8 u
  | _ => Decimal.D9 u
  end.

Definition uintOfDigits (ds : list ascii) : Decimal.uint :=
  fold_right digitToUint Decimal.Nil ds.

(** The string holds no white space. *)
Definition noWhiteSpace (s : string) : bool :=
  forallb (fun c => negb (JsString.isWhiteSpace c)) (JsString.chars s).

(** The phase is one of the canonical workflow phases. *)
Definition isKnownPhase (p : string) : bool :=
  0 <=? Dashboard.indexOf p Dashboard.CANONICAL_PHASE_ORDER.

(** The names of the phases of a log: the phases of its entries that are
    not the empty string, each once, in order of first appearance. *)
Definition phasesOf (entries : list LogEntry) : list string :=
  distinct (map phase (filter (fun e => truthyString (phase e)) entries)).

(** Some entry of the log is in phase [p]. *)
Definition hasPhase (entries : list LogEntry) (p : string) : bool :=
  existsb (fun e => String.eqb (phase e) p) entries.

(** The entry writes or deletes the key [k] of the map of open STARTs. *)
Definition touchesKey (k : string) (x : LogEntry) : bool :=
  if Dashboard.isStart x then String.eqb (Dashboard.startKey x) k
  else Dashboard.isClosing x && String.eqb (Dashboard.closeKey x) k.

(** [e] is a START of the log after which no entry writes or deletes its
    key. *)
Definition openStart (entries : list LogEntry) (e : LogEntry) : Prop :=
  exists before after,
    entries = before ++ e :: after
    /\ Dashboard.isStart e = true
    /\ Forall (fun x => touchesKey (Dashboard.startKey e) x = false) after.

Definition isStartEvent (ev : Watcher.Event) : bool :=
  match ev with Watcher.Start _ => true | _ => false end.

(** The result read by a poll event. *)
Definition pollResult (ev : Watcher.Event) : option Watcher.ReadResult :=
  match ev with
  | Watcher.PollNow r | Watcher.Tick r => Some r
  | _ => None
  end.

(** In a sequence of calls, every [onDisabled] comes right after an
    [onError] that reports at least LIVE_TAIL_MAX_FAILURES failures, and
    every [onError] reports at least one failure.  [prev] is the call made
    just before the sequence. *)
Fixpoint orderlyCalls (prev : option Watcher.Callback)
    (calls : list Watcher.Callback) : bool :=
  match calls with
  | [] => true
  | c :: rest =>
      match c with
      | Watcher.onDisabled =>
          match prev with
          | Some (Watcher.onError n) => Watcher.LIVE_TAIL_MAX_FAILURES <=? n
          | _ => false
          end
      | Watcher.onError n => 1 <=? n
      | Watcher.onNewContent _ => true
      end
      && orderlyCalls (Some c) rest
  end.

(** The last character of a non-empty string is not a digit. *)
Definition endsWithoutDigit (P : list ascii) : bool :=
  match rev P with
  | [] => false
  | z :: _ => negb (JsString.isDigit z)
  end.

(** The entry that [parseLine] builds from [oddSeqRecord]. *)
Definition oddSeqEntry : Parser.RawLogEntry :=
  Parser.mkRaw (JObject [("toString", JNumber 1)]) "" "t" "a" "START" ""
               None [] None "" [] [] [] [] None.

(* ================================================================== *)
(** * Facts about maps and grouping *)
(* ================================================================== *)

Ltac key_cases a b :=
  let E := fresh "E" in
  let B := fresh "B" in
  destruct (keyb a b) eqn:B;
  [ assert (E : a = b) by (destruct (keyb_spec a b); congruence)
  | assert (E : a <> b) by (destruct (keyb_spec a b); congruence) ].

Section MapFacts.
Context {K : Type} `{Key K}.

Lemma keyb_refl (k : K) : keyb k k = true.
Proof. destruct (keyb_spec k k); congruence. Qed.

Lemma keyb_sym (a b : K) : keyb a b = keyb b a.
Proof.
  destruct (keyb_spec a b), (keyb_spec b a); congruence.
Qed.

Lemma set_has_In (k : K) (s : list K) : JsSet.has k s = true <-> In k s.
Proof.
  unfold JsSet.has. rewrite existsb_exists. split.
  - intros [x [Hx Hk]]. destruct (keyb_spec k x); congruence.
  - intros Hin. exists k. split; [exact Hin | apply keyb_refl].
Qed.

Lemma set_has_not_In (k : K) (s : list K) : JsSet.has k s = false <-> ~ In k s.
Proof.
  rewrite <- set_has_In. destruct (JsSet.has k s); split; intros; congruence.
Qed.

Lemma set_add_In (k x : K) (s : list K) :
  In x (JsSet.add k s) <-> x = k \/ In x s.
Proof.
  unfold JsSet.add. destruct (JsSet.has k s) eqn:E.
  - apply set_has_In in E. split; [auto | intros [-> | ?]; auto].
  - rewrite in_app_iff. simpl. split; intros; intuition.
Qed.

Lemma set_add_NoDup (k : K) (s : list K) : NoDup s -> NoDup (JsSet.add k s).
Proof.
  intros Hs. unfold JsSet.add. destruct (JsSet.has k s) eqn:E; [exact Hs|].
  apply set_has_not_In in E.
  apply NoDup_rev in Hs. rewrite <- (rev_involutive (s ++ [k])).
  apply NoDup_rev. rewrite rev_app_distr. simpl. constructor.
  - rewrite <- in_rev. exact E.
  - exact Hs.
Qed.

Lemma distinct_snoc (l : list K) (k : K) :
  distinct (l ++ [k]) = JsSet.add k (distinct l).
Proof. unfold distinct. rewrite fold_left_app. reflexivity. Qed.

Lemma distinct_In (l : list K) (x : K) : In x (distinct l) <-> In x l.
Proof.
  induction l as [|k l IH] using rev_ind.
  - reflexivity.
  - rewrite distinct_snoc, set_add_In, in_app_iff, IH. simpl. intuition.
Qed.

Lemma distinct_NoDup (l : list K) : NoDup (distinct l).
Proof.
  induction l as [|k l IH] using rev_ind.
  - constructor.
  - rewrite distinct_snoc. apply set_add_NoDup, IH.
Qed.

Context {V : Type}.

Lemma get_tabulate (f : K -> V) (ks : list K) (k : K) :
  JsMap.get k (map (fun k' => (k', f k')) ks)
  = if JsSet.has k ks then Some (f k) else None.
Proof.
  induction ks as [|k' ks IH]; [reflexivity|].
  simpl. unfold JsSet.has in *. simpl.
  key_cases k k'; [now subst | exact IH].
Qed.

Lemma set_fresh (k : K) (v : V) (m : list (K * V)) :
  ~ In k (JsMap.keys m) -> JsMap.set k v m = m ++ [(k, v)].
Proof.
  induction m as [|[k' v'] m IH]; intros Hn; [reflexivity|].
  simpl in *. key_cases k k'.
  - exfalso. apply Hn. now left.
  - f_equal. apply IH. intros Hin. apply Hn. now right.
Qed.

Lemma mutate_last (k : K) (g : V -> V) (v : V) (m : list (K * V)) :
  ~ In k (JsMap.keys m) ->
  JsMap.mutate k g (m ++ [(k, v)]) = m ++ [(k, g v)].
Proof.
  induction m as [|[k' v'] m IH]; intros Hn; simpl in *.
  - now rewrite keyb_refl.
  - key_cases k k'.
    + exfalso. apply Hn. now left.
    + f_equal. apply IH. intros Hin. apply Hn. now right.
Qed.

Lemma mutate_tabulate (f : K -> V) (g : V -> V) (ks : list K) (k : K) :
  NoDup ks ->
  JsMap.mutate k g (map (fun k' => (k', f k')) ks)
  = map (fun k' => (k', if keyb k k' then g (f k') else f k')) ks.
Proof.
  induction ks as [|k' ks IH]; intros Hnd; [reflexivity|].
  inversion Hnd as [|? ? Hnotin Hnd']; subst. simpl.
  key_cases k k'.
  - subst k'. f_equal. apply map_ext_in. intros a Ha.
    key_cases k a; [subst a; contradiction | reflexivity].
  - f_equal. apply IH, Hnd'.
Qed.

Lemma set_then_mutate (k : K) (f : V -> V) (v : V) (m : list (K * V)) :
  JsMap.get k m = None ->
  JsMap.mutate k f (JsMap.set k v m) = JsMap.set k (f v) m.
Proof.
  induction m as [|[k' v'] m IH]; simpl.
  - intros _. now rewrite keyb_refl.
  - destruct (keyb k k') eqn:E; [discriminate|]. intros Hg. simpl.
    rewrite E. f_equal. apply IH, Hg.
Qed.

End MapFacts.

Section GroupFacts.
Context {K X : Type} `{Key K}.
Variable key : X -> K.

Lemma groupBy_snoc (l : list X) (e : X) :
  groupBy key (l ++ [e]) = JsMap.push (key e) e (groupBy key l).
Proof. unfold groupBy. rewrite fold_left_app. reflexivity. Qed.

Lemma grouped_keys (l : list X) :
  JsMap.keys (grouped key l) = distinct (map key l).
Proof.
  unfold grouped, JsMap.keys. rewrite map_map. simpl. apply map_id.
Qed.

Lemma filter_key_absent (l : list X) (k : K) :
  ~ In k (map key l) -> filter (fun x => keyb (key x) k) l = [].
Proof.
  intros Hn. induction l as [|x l IH]; [reflexivity|]. simpl in *.
  key_cases (key x) k.
  - exfalso. apply Hn. now left.
  - apply IH. intros Hin. apply Hn. now right.
Qed.

Lemma push_grouped (l : list X) (e : X) :
  JsMap.push (key e) e (grouped key l) = grouped key (l ++ [e]).
Proof.
  unfold JsMap.push, JsMap.has.
  unfold grouped at 1 2 3. rewrite get_tabulate.
  unfold grouped. rewrite map_app. simpl. rewrite distinct_snoc.
  unfold JsSet.add.
  destruct (JsSet.has (key e) (distinct (map key l))) eqn:E.
  - rewrite mutate_tabulate by apply distinct_NoDup.
    apply map_ext. intros k. rewrite filter_app. simpl.
    rewrite (keyb_sym (key e) k).
    destruct (keyb k (key e)); [reflexivity | now rewrite app_nil_r].
  - apply set_has_not_In in E.
    pose proof E as E'. rewrite distinct_In in E'.
    rewrite set_fresh
      by (fold (grouped key l); rewrite grouped_keys; exact E).
    rewrite mutate_last
      by (fold (grouped key l); rewrite grouped_keys; exact E).
    rewrite map_app. simpl. f_equal.
    + apply map_ext_in. intros k Hk. rewrite filter_app. simpl.
      key_cases (key e) k.
      * subst k. contradiction.
      * now rewrite app_nil_r.
    + rewrite filter_app. simpl. rewrite keyb_refl.
      now rewrite (filter_key_absent l (key e) E').
Qed.

(** Grouping with a [Map] computes [grouped]. *)
Lemma groupBy_grouped (l : list X) : groupBy key l = grouped key l.
Proof.
  induction l as [|e l IH] using rev_ind.
  - reflexivity.
  - rewrite groupBy_snoc, IH. apply push_grouped.
Qed.

Lemma grouped_get (l : list X) (k : K) :
  JsMap.get k (grouped key l)
  = if JsSet.has k (map key l)
    then Some (filter (fun x => keyb (key x) k) l) else None.
Proof.
  unfold grouped. rewrite get_tabulate.
  destruct (JsSet.has k (map key l)) eqn:E.
  - apply set_has_In in E. rewrite <- distinct_In in E.
    apply set_has_In in E. now rewrite E.
  - apply set_has_not_In in E. rewrite <- distinct_In in E.
    apply set_has_not_In in E. now rewrite E.
Qed.

End GroupFacts.

(* ================================================================== *)
(** * The line parser *)
(* ================================================================== *)

Module ParserProps.
Import Parser.

(** Induction on JSON values through their arrays. *)
Lemma JSON_induction (P : JSON -> Prop) :
  P JNull ->
  (forall b, P (JBool b)) ->
  (forall n, P (JNumber n)) ->
  (forall s, P (JString s)) ->
  (forall items, Forall P items -> P (JArray items)) ->
  (forall fields, P (JObject fields)) ->
  forall v, P v.
Proof.
  intros Hnull Hbool Hnum Hstr Harr Hobj.
  fix IH 1. intros v. destruct v as [|b|n|s|items|fields].
  - exact Hnull.
  - apply Hbool.
  - apply Hnum.
  - apply Hstr.
  - apply Harr.
    exact ((fix all (l : list JSON) : Forall P l :=
              match l with
              | [] => Forall_nil P
              | x :: r => Forall_cons x (IH x) (all r)
              end) items).
  - apply Hobj.
Qed.

Lemma toStr_array_cons (x : JSON) (r : list JSON) :
  toStr (JArray (x :: r))
  = (sx <- match x with JNull => Returned "" | _ => toStr x end ;;
     match r with
     | [] => Returned sx
     | _ => sr <- toStr (JArray r) ;; Returned (sx ++ "," ++ sr)%string
     end).
Proof. reflexivity. Qed.

Lemma printable_array_cons (x : JSON) (r : list JSON) :
  printable (JArray (x :: r)) = printable x && printable (JArray r).
Proof. reflexivity. Qed.

(** [String(v)] throws exactly on the values without a string form. *)
Lemma toStr_printable (v : JSON) :
  toStr v = Threw <-> printable v = false.
Proof.
  induction v as [|b|n|s|items Hitems|fields] using JSON_induction;
    try (cbn; split; discriminate).
  - induction Hitems as [|x r Hx _ IHr]; [cbn; split; discriminate|].
    rewrite toStr_array_cons, printable_array_cons.
    assert (Ex : match x with JNull => Returned ""%string | _ => toStr x end
                 = toStr x \/ x = JNull)
      by (destruct x; auto).
    assert (Hx' : match x with JNull => Returned ""%string | _ => toStr x end
                  = Threw <-> printable x = false).
    { destruct x; try exact Hx; cbn; split; discriminate. }
    clear Ex Hx.
    destruct (match x with JNull => Returned ""%string | _ => toStr x end)
      as [|sx].
    + cbn [bindO]. split; [intros _|reflexivity].
      now rewrite (proj1 Hx' eq_refl).
    + cbn [bindO].
      assert (Px : printable x = true).
      { destruct (printable x); [reflexivity|].
        pose proof (proj2 Hx' eq_refl) as C. discriminate C. }
      rewrite Px. cbn [andb]. destruct r as [|y r].
      * cbn. split; discriminate.
      * destruct (toStr (JArray (y :: r))) as [|sr]; cbn [bindO].
        -- split; [intros _|reflexivity]. now apply IHr.
        -- split; [discriminate|]. intros Hp. apply IHr in Hp.
           discriminate Hp.
  - cbn. destruct (JsMap.has "toString" fields); cbn; split;
      try discriminate; reflexivity.
Qed.

Lemma stringOr_printable (v : option JSON) :
  stringOr v = Threw
  <-> match v with Some x => printable x | None => true end = false.
Proof.
  destruct v as [x|]; [|cbn; split; discriminate].
  destruct x; try apply toStr_printable. cbn. split; discriminate.
Qed.

(** Building the entry throws exactly when a text field has no string
    form. *)
Lemma buildEntry_printable (fields : list (string * JSON)) :
  buildEntry (JObject fields) = Threw <-> printableRecord fields = false.
Proof.
  unfold buildEntry, printableRecord, TEXT_FIELDS.
  cbn [getProperty forallb].
  assert (H : forall f,
    (stringOr (JsMap.get f fields) = Threw
     /\ match JsMap.get f fields with
        | Some v => printable v
        | None => true
        end = false)
    \/ (exists t, stringOr (JsMap.get f fields) = Returned t
                  /\ match JsMap.get f fields with
                     | Some v => printable v
                     | None => true
                     end = true)).
  { intros f. pose proof (stringOr_printable (JsMap.get f fields)) as E.
    destruct (stringOr (JsMap.get f fields)) as [|t].
    - left. split; [reflexivity|]. now apply E.
    - right. exists t. split; [reflexivity|].
      destruct (match JsMap.get f fields with
                | Some v => printable v
                | None => true
                end); [reflexivity|].
      pose proof (proj2 E eq_refl) as C. discriminate C. }
  destruct (H "work_seq") as [[-> ->]|(t1 & -> & ->)];
    [cbn; split; reflexivity|].
  destruct (H "timestamp") as [[-> ->]|(t2 & -> & ->)];
    [cbn; split; reflexivity|].
  destruct (H "agent") as [[-> ->]|(t3 & -> & ->)];
    [cbn; split; reflexivity|].
  destruct (H "action") as [[-> ->]|(t4 & -> & ->)];
    [cbn; split; reflexivity|].
  destruct (H "phase") as [[-> ->]|(t5 & -> & ->)];
    [cbn; split; reflexivity|].
  destruct (H "details") as [[-> ->]|(t6 & -> & ->)];
    [cbn; split; reflexivity|].
  cbn. split; discriminate.
Qed.

Lemma filterO_throws {A} (keep : A -> Outcome bool) (l : list A) (e : A) :
  In e l -> keep e = Threw -> filterO keep l = Threw.
Proof.
  intros Hin He. induction l as [|x l IH]; [contradiction|].
  cbn [filterO].
  destruct Hin as [->|Hin]; [now rewrite He|].
  destruct (keep x); [reflexivity|]. cbn [bindO]. now rewrite (IH Hin).
Qed.

Section WithBuiltins.
Variable JSON_parse : string -> option JSON.
Variable StringToNumber : string -> option Z.

Lemma parseLine_scalar (line : string) (v : JSON) :
  JsString.isBlank line = false ->
  JSON_parse line = Some v ->
  isObjectLike v = false ->
  parseLine JSON_parse line = Threw.
Proof.
  intros Hb Hp Hv. unfold parseLine. rewrite Hb, Hp.
  destruct v; simpl in *; try reflexivity; discriminate.
Qed.

Lemma parseLoop_throws keep (lines : list string) (line : string) :
  In line lines ->
  JsString.isBlank line = false ->
  parseLine JSON_parse line = Threw ->
  forall st, parseLoop JSON_parse keep lines st = Threw.
Proof.
  intros Hin Hb Ht. induction lines as [|l lines IH]; [contradiction|].
  intros st. simpl. destruct Hin as [-> | Hin].
  - unfold parseStep. now rewrite Hb, Ht.
  - destruct (parseStep JSON_parse keep st l); [reflexivity|].
    simpl. apply IH, Hin.
Qed.

Lemma checkRequired_object (fields : list (string * JSON)) (names : list string) :
  checkRequired names (JObject fields)
  = Returned (forallb (fun f =>
                         match JsMap.get f fields with
                         | None | Some JNull => false
                         | Some _ => true
                         end) names).
Proof.
  induction names as [|f names IH]; [reflexivity|].
  simpl. unfold JsMap.has.
  destruct (JsMap.get f fields) as [[| | | | |]|]; simpl; try exact IH;
    reflexivity.
Qed.

(** [parseLine] throws on the lines of [isThrowingLine]; on any other
    line it returns the event of a well-formed record and null for anything
    else. *)
Lemma parseLine_outcome (line : string) :
  parseLine JSON_parse line
  = if isThrowingLine JSON_parse line then Threw
    else Returned (validRecord JSON_parse line).
Proof.
  unfold isThrowingLine, parseLine, validRecord.
  destruct (JsString.isBlank line); [reflexivity|]. cbn [negb andb].
  destruct (JSON_parse line) as [[| | | |items|fields]|]; try reflexivity.
  rewrite checkRequired_object. fold (requiredPresent fields).
  cbn [bindO]. destruct (requiredPresent fields); [|reflexivity].
  cbn [andb]. pose proof (buildEntry_printable fields) as E.
  destruct (buildEntry (JObject fields)) as [|e].
  - now rewrite (proj1 E eq_refl).
  - destruct (printableRecord fields); [reflexivity|].
    pose proof (proj2 E eq_refl) as C. discriminate C.
Qed.

Lemma parseLoop_robust (lines : list string) :
  (forall line, In line lines -> isThrowingLine JSON_parse line = false) ->
  forall acc n,
    parseLoop JSON_parse (fun _ => Returned true) lines (acc, n)
    = Returned
        (acc ++ eventsOf JSON_parse lines,
         n + (Z.of_nat (List.length (nonBlankLines lines))
              - Z.of_nat (List.length (eventsOf JSON_parse lines)))).
Proof.
  induction lines as [|l lines IH]; intros Hno acc n.
  - simpl. rewrite app_nil_r. f_equal. apply (f_equal2 pair); [reflexivity|lia].
  - assert (Hl : isThrowingLine JSON_parse l = false) by (apply Hno; now left).
    assert (Hrest : forall line, In line lines ->
                                 isThrowingLine JSON_parse line = false)
      by (intros line Hin; apply Hno; now right).
    change (parseLoop JSON_parse (fun _ => Returned true) (l :: lines) (acc, n))
      with (st' <- parseStep JSON_parse (fun _ => Returned true) (acc, n) l ;;
            parseLoop JSON_parse (fun _ => Returned true) lines st').
    change (eventsOf JSON_parse (l :: lines))
      with (match validRecord JSON_parse l with
            | Some e => [e]
            | None => []
            end ++ eventsOf JSON_parse lines).
    change (nonBlankLines (l :: lines))
      with (if negb (JsString.isBlank l)
            then l :: nonBlankLines lines else nonBlankLines lines).
    unfold parseStep.
    destruct (JsString.isBlank l) eqn:Hb; cbn [negb].
    + unfold validRecord. rewrite Hb. unfold bindO. rewrite (IH Hrest).
      reflexivity.
    + rewrite (parseLine_outcome l), Hl. unfold bindO. cbn [fst snd].
      destruct (validRecord JSON_parse l) as [e|]; rewrite (IH Hrest);
        f_equal; apply (f_equal2 pair).
      * now rewrite <- app_assoc.
      * change (List.length (l :: nonBlankLines lines))
          with (S (List.length (nonBlankLines lines))).
        change (List.length ([e] ++ eventsOf JSON_parse lines))
          with (S (List.length (eventsOf JSON_parse lines))).
        lia.
      * reflexivity.
      * change (List.length (l :: nonBlankLines lines))
          with (S (List.length (nonBlankLines lines))).
        change ([] ++ eventsOf JSON_parse lines)
          with (eventsOf JSON_parse lines).
        lia.
Qed.

(** The outcome of [parseLogContent] on every content. *)
Lemma parse_outcome (content : string) :
  let lines := JsString.split_newline content in
  parseLogContent JSON_parse content
  = if existsb (isThrowingLine JSON_parse) lines then Threw
    else Returned
           (mkParseResult
              (eventsOf JSON_parse lines)
              (Z.of_nat (List.length (nonBlankLines lines))
               - Z.of_nat (List.length (eventsOf JSON_parse lines)))).
Proof.
  cbv zeta. unfold parseLogContent.
  destruct (existsb (isThrowingLine JSON_parse)
                    (JsString.split_newline content)) eqn:E.
  - apply existsb_exists in E. destruct E as (line & Hin & Hs).
    assert (Ht : parseLine JSON_parse line = Threw)
      by (now rewrite parseLine_outcome, Hs).
    unfold isThrowingLine in Hs. apply andb_prop in Hs.
    destruct Hs as [Hb _]. apply negb_true_iff in Hb.
    now rewrite (parseLoop_throws _ _ line Hin Hb Ht).
  - rewrite parseLoop_robust; [reflexivity|].
    intros line Hin.
    destruct (isThrowingLine JSON_parse line) eqn:Hs; [|reflexivity].
    rewrite <- E. symmetry. apply existsb_exists. now exists line.
Qed.

(** What C6 says does hold for every content without a line on which
    [parseLine] throws: the events of the well-formed records come back in
    input order, and skippedLines is the number of non-blank lines minus the
    number of events. *)
Lemma parse_robust_without_throwing_lines (content : string) :
  (forall line, In line (JsString.split_newline content) ->
                isThrowingLine JSON_parse line = false) ->
  let lines := JsString.split_newline content in
  parseLogContent JSON_parse content
  = Returned
      (mkParseResult
         (eventsOf JSON_parse lines)
         (Z.of_nat (List.length (nonBlankLines lines))
          - Z.of_nat (List.length (eventsOf JSON_parse lines)))).
Proof.
  intros Hno. cbv zeta. unfold parseLogContent.
  rewrite (parseLoop_robust _ Hno). reflexivity.
Qed.

(** The loop started on a state is the loop started on the empty state,
    moved by that state. *)
Lemma parseLoop_from keep (lines : list string) :
  forall acc n,
    parseLoop JSON_parse keep lines (acc, n)
    = mapO (fun st => (acc ++ fst st, n + snd st))
           (parseLoop JSON_parse keep lines ([], 0)).
Proof.
  induction lines as [|l lines IH]; intros acc n.
  - cbn. now rewrite app_nil_r, Z.add_0_r.
  - cbn [parseLoop]. unfold parseStep.
    destruct (JsString.isBlank l); cbn [bindO]; [apply IH|].
    destruct (parseLine JSON_parse l) as [|[e|]]; cbn [bindO fst snd].
    + reflexivity.
    + destruct (keep e) as [|[|]]; cbn [bindO]; [reflexivity| |apply IH].
      rewrite (IH (acc ++ [e]) n), (IH ([] ++ [e]) 0).
      destruct (parseLoop JSON_parse keep lines ([], 0)) as [|[es k]];
        [reflexivity|].
      cbn [mapO fst snd app]. f_equal. apply (f_equal2 pair).
      * now rewrite <- app_assoc.
      * reflexivity.
    + rewrite (IH acc (n + 1)), (IH [] (0 + 1)).
      destruct (parseLoop JSON_parse keep lines ([], 0)) as [|[es k]];
        [reflexivity|].
      cbn [mapO fst snd app]. f_equal. apply (f_equal2 pair);
        [reflexivity | lia].
Qed.

(** The loop with a test before the push is the loop without it followed
    by the filter; it throws when either throws. *)
Lemma parseLoop_keep keep (lines : list string) :
  parseLoop JSON_parse keep lines ([], 0)
  = (st <- parseLoop JSON_parse (fun _ => Returned true) lines ([], 0) ;;
     es <- filterO keep (fst st) ;;
     Returned (es, snd st)).
Proof.
  induction lines as [|l lines IH]; [reflexivity|].
  cbn [parseLoop]. unfold parseStep.
  destruct (JsString.isBlank l); cbn [bindO]; [exact IH|].
  destruct (parseLine JSON_parse l) as [|[e|]]; cbn [bindO fst snd].
  - reflexivity.
  - rewrite (parseLoop_from (fun _ => Returned true) lines ([] ++ [e]) 0).
    destruct (keep e) as [|[|]] eqn:Ke; cbn [bindO].
    + destruct (parseLoop JSON_parse (fun _ => Returned true) lines ([], 0))
        as [|[es k]]; [reflexivity|].
      cbn [mapO bindO fst snd app filterO]. now rewrite Ke.
    + rewrite (parseLoop_from keep lines ([] ++ [e]) 0), IH.
      destruct (parseLoop JSON_parse (fun _ => Returned true) lines ([], 0))
        as [|[es k]]; [reflexivity|].
      cbn [mapO bindO fst snd app filterO]. rewrite Ke. cbn [bindO].
      destruct (filterO keep es); reflexivity.
    + rewrite IH.
      destruct (parseLoop JSON_parse (fun _ => Returned true) lines ([], 0))
        as [|[es k]]; [reflexivity|].
      cbn [mapO bindO fst snd app filterO]. rewrite Ke. cbn [bindO].
      destruct (filterO keep es); reflexivity.
  - rewrite (parseLoop_from keep lines [] (0 + 1)), IH.
    rewrite (parseLoop_from (fun _ => Returned true) lines [] (0 + 1)).
    destruct (parseLoop JSON_parse (fun _ => Returned true) lines ([], 0))
      as [|[es k]]; [reflexivity|].
    cbn [mapO bindO fst snd app].
    destruct (filterO keep es); reflexivity.
Qed.

Lemma incremental_after_full (content : string) (w : Z) :
  parseIncrementalContent JSON_parse StringToNumber content w
  = (r <- parseLogContent JSON_parse content ;;
     es <- filterO (fun e => greaterThan StringToNumber (raw_log_seq e) w)
                   (entries r) ;;
     Returned (mkParseResult es (skippedLines r))).
Proof.
  unfold parseIncrementalContent, parseLogContent. rewrite parseLoop_keep.
  destruct (parseLoop JSON_parse (fun _ => Returned true)
              (JsString.split_newline content) ([], 0)) as [|[es k]];
    [reflexivity|].
  cbn [mapO bindO fst snd entries skippedLines].
  destruct (filterO _ es); reflexivity.
Qed.

(** The comparison [log_seq > w] throws on a log_seq without a string
    form, and is the comparison of numbers on a number. *)
Lemma greaterThan_unprintable (v : JSON) (w : Z) :
  printable v = false -> greaterThan StringToNumber v w = Threw.
Proof.
  intros Hp. unfold greaterThan, toNumber.
  destruct v; try discriminate Hp;
    now rewrite (proj2 (toStr_printable _) Hp).
Qed.

Lemma filterO_numeric (w : Z) (l : list RawLogEntry) :
  forallb numericSeq l = true ->
  filterO (fun e => greaterThan StringToNumber (raw_log_seq e) w) l
  = Returned (filter (seqAbove w) l).
Proof.
  induction l as [|e l IH]; intros Hn; [reflexivity|].
  cbn [forallb] in Hn. apply andb_prop in Hn. destruct Hn as [He Hl].
  cbn [filterO filter]. rewrite (IH Hl). unfold numericSeq in He.
  unfold seqAbove, greaterThan, toNumber.
  destruct (raw_log_seq e); try discriminate He. reflexivity.
Qed.

Lemma incremental_throws (content : string) (w : Z) (r : ParseResult)
    (e : RawLogEntry) :
  parseLogContent JSON_parse content = Returned r ->
  In e (entries r) ->
  printable (raw_log_seq e) = false ->
  parseIncrementalContent JSON_parse StringToNumber content w = Threw.
Proof.
  intros Hr Hin Hp. rewrite incremental_after_full, Hr. cbn [bindO].
  rewrite (filterO_throws _ (entries r) e Hin); [reflexivity|].
  now apply greaterThan_unprintable.
Qed.

(** C6, at the failing input.  A non-blank line that holds a JSON scalar
    (a number, a string, a boolean or null) makes [parseLogContent] throw:
    [field in parsed] raises a TypeError outside the try block, the line is
    not counted and no later line is parsed. *)
Theorem parse_throws_on_scalar_line (content line : string) (v : JSON) :
  In line (JsString.split_newline content) ->
  JsString.isBlank line = false ->
  JSON_parse line = Some v ->
  isObjectLike v = false ->
  parseLogContent JSON_parse content = Threw.
Proof.
  intros Hin Hb Hp Hv. unfold parseLogContent.
  rewrite (parseLoop_throws _ _ line Hin Hb
             (parseLine_scalar line v Hb Hp Hv)).
  reflexivity.
Qed.

(** C7.  [parseIncrementalContent] is [parseLogContent] followed by the
    test [log_seq > lastLogSeq] on each entry in order, the test being the
    comparison of JavaScript, which converts a log_seq that is not a number
    and can throw.  When every log_seq of the full parse is a number, the
    incremental parse returns the entries whose log_seq is greater than the
    watermark, in the same order.  When some entry of the full parse has a
    log_seq without a string form (an object with a property named
    toString), the full parse returns and the incremental parse throws: at
    such a content the two do not return the same events. *)
Theorem incremental_parse_equation (content : string) (w : Z) :
  parseIncrementalContent JSON_parse StringToNumber content w
  = (r <- parseLogContent JSON_parse content ;;
     es <- filterO (fun e => greaterThan StringToNumber (raw_log_seq e) w)
                   (entries r) ;;
     Returned (mkParseResult es (skippedLines r)))
  /\ (forall r,
         parseLogContent JSON_parse content = Returned r ->
         forallb numericSeq (entries r) = true ->
         parseIncrementalContent JSON_parse StringToNumber content w
         = Returned (mkParseResult (filter (seqAbove w) (entries r))
                                   (skippedLines r)))
  /\ (forall r e,
         parseLogContent JSON_parse content = Returned r ->
         In e (entries r) ->
         printable (raw_log_seq e) = false ->
         parseIncrementalContent JSON_parse StringToNumber content w = Threw).
Proof.
  split; [apply incremental_after_full|]. split.
  - intros r Hr Hn. rewrite incremental_after_full, Hr. cbn [bindO].
    now rewrite (filterO_numeric w (entries r) Hn).
  - intros r e. apply incremental_throws.
Qed.

(** C10.  Whenever [parseIncrementalContent] returns, [parseLogContent]
    returns on the same content with the same skippedLines, whatever the
    watermark, and that count is the number of non-blank lines that gave no
    entry: malformed lines are counted again on every incremental parse.
    When some entry of the full parse has a log_seq without a string form,
    the full parse reports its count and the incremental parse throws and
    reports none: at such a content the two counts are not equal. *)
Theorem incremental_parse_recounts_skipped (content : string) (w : Z) :
  (forall r',
      parseIncrementalContent JSON_parse StringToNumber content w
      = Returned r' ->
      exists r,
        parseLogContent JSON_parse content = Returned r
        /\ skippedLines r' = skippedLines r
        /\ skippedLines r
           = Z.of_nat (List.length
                         (nonBlankLines (JsString.split_newline content)))
             - Z.of_nat (List.length (entries r)))
  /\ (forall r e,
         parseLogContent JSON_parse content = Returned r ->
         In e (entries r) ->
         printable (raw_log_seq e) = false ->
         parseIncrementalContent JSON_parse StringToNumber content w = Threw).
Proof.
  split; [|intros r e; apply incremental_throws].
  intros r' Hr'. rewrite incremental_after_full in Hr'.
  pose proof (parse_outcome content) as Ho. cbv zeta in Ho.
  destruct (parseLogContent JSON_parse content) as [|r]; [discriminate Hr'|].
  exists r. split; [reflexivity|]. cbn [bindO] in Hr'.
  destruct (filterO _ (entries r)) as [|es]; [discriminate Hr'|].
  cbn [bindO] in Hr'. injection Hr' as <-. split; [reflexivity|].
  destruct (existsb (isThrowingLine JSON_parse)
                    (JsString.split_newline content));
    [discriminate Ho|].
  injection Ho as ->. reflexivity.
Qed.

End WithBuiltins.

Lemma parse_throws_on_scalar_line_witness :
  parseLogContent JSON_parse_scalars "42" = Threw.
Proof.
  apply (parse_throws_on_scalar_line JSON_parse_scalars "42" "42" (JNumber 42)).
  - simpl. left. reflexivity.
  - reflexivity.
  - reflexivity.
  - reflexivity.
Defined.

Lemma incremental_parse_equation_witness :
  parseLogContent JSON_parse_samples oddSeqLine
  = Returned (mkParseResult [oddSeqEntry] 0)
  /\ parseIncrementalContent JSON_parse_samples (fun _ => None) oddSeqLine 0
     = Threw.
Proof.
  assert (Hr : parseLogContent JSON_parse_samples oddSeqLine
               = Returned (mkParseResult [oddSeqEntry] 0)).
  { vm_compute. reflexivity. }
  split; [exact Hr|].
  exact (proj2 (proj2 (incremental_parse_equation
                         JSON_parse_samples (fun _ => None) oddSeqLine 0))
               _ oddSeqEntry Hr (or_introl eq_refl) eq_refl).
Defined.

Lemma incremental_parse_recounts_skipped_witness :
  (exists r,
      parseLogContent JSON_parse_samples "bad line" = Returned r
      /\ skippedLines (mkParseResult [] 1) = skippedLines r
      /\ skippedLines r
         = Z.of_nat (List.length
                       (nonBlankLines (JsString.split_newline "bad line")))
           - Z.of_nat (List.length (entries r)))
  /\ parseLogContent JSON_parse_samples oddSeqLine
     = Returned (mkParseResult [oddSeqEntry] 0)
  /\ parseIncrementalContent JSON_parse_samples (fun _ => None) oddSeqLine 0
     = Threw.
Proof.
  assert (Hr : parseLogContent JSON_parse_samples oddSeqLine
               = Returned (mkParseResult [oddSeqEntry] 0)).
  { vm_compute. reflexivity. }
  split; [|split; [exact Hr|]].
  - apply (proj1 (incremental_parse_recounts_skipped
                    JSON_parse_samples (fun _ => None) "bad line" 7)).
    vm_compute. reflexivity.
  - exact (proj2 (incremental_parse_recounts_skipped
                    JSON_parse_samples (fun _ => None) oddSeqLine 0)
                 _ oddSeqEntry Hr (or_introl eq_refl) eq_refl).
Defined.

(** A record whose agent is an object with a property named toString
    makes the full parse throw as well. *)
Example parse_throws_on_odd_agent :
  parseLogContent JSON_parse_samples oddAgentLine = Threw.
Proof. vm_compute. reflexivity. Qed.

(** With numbers as log_seq the incremental parse returns. *)
Example incremental_counts_malformed_lines :
  parseIncrementalContent JSON_parse_samples (fun _ => None)
    "bad line 1
bad line 2" 7
  = Returned (mkParseResult [] 2).
Proof. vm_compute. reflexivity. Qed.

(** Malformed text is counted and parsing goes on: three lines that are
    not JSON give three skipped lines (test TS-001-08). *)
Example parse_counts_malformed_lines :
  parseLogContent JSON_parse_scalars
    "bad line 1
bad line 2
bad line 3"
  = Returned (mkParseResult [] 3).
Proof. vm_compute. reflexivity. Qed.

(** A scalar on the second line loses the count of the first. *)
Example parse_scalar_after_malformed :
  parseLogContent JSON_parse_scalars
    "bad line 1
42
bad line 3"
  = Threw.
Proof. vm_compute. reflexivity. Qed.

(** C8, at the failing input.  ["REQ-10 through REQ-100"] has the shape
    prefix-digits through prefix-digits with prefix ["REQ-"], and the
    enumeration the specification describes has the 91 ids from REQ-10 to
    REQ-100.  The greedy first group of the pattern takes ["REQ-1"], the
    numbers read are 0 and 00, and the result is the single id
    ["REQ-10"]. *)
Theorem expand_range_greedy_prefix :
  let rangeStr := "REQ-10 through REQ-100" in
  rangeStr = ("REQ-" ++ "10" ++ " through " ++ "REQ-" ++ "100")%string
  /\ matchRange (JsString.chars rangeStr)
     = Some (JsString.chars "REQ-1", JsString.chars "0", JsString.chars "00")
  /\ expandRequirementRange rangeStr = ["REQ-10"]
  /\ List.length (claimedExpansion "REQ-" "10" "100") = 91%nat
  /\ expandRequirementRange rangeStr <> claimedExpansion "REQ-" "10" "100".
Proof.
  cbv zeta. split; [reflexivity|].
  split; [vm_compute; reflexivity|].
  split; [vm_compute; reflexivity|].
  split; [vm_compute; reflexivity|].
  intros Heq. apply (f_equal (@List.length string)) in Heq.
  vm_compute in Heq. discriminate Heq.
Qed.

(** On the ids of the specification and of the tests the two agree. *)
Example expand_agrees_on_P001_P005 :
  expandRequirementRange "P-001 through P-005"
  = claimedExpansion "P-" "001" "005".
Proof. vm_compute. reflexivity. Qed.

(** The examples of the specification and of the tests do expand. *)
Example expand_P001_P005 :
  expandRequirementRange "P-001 through P-005"
  = ["P-001"; "P-002"; "P-003"; "P-004"; "P-005"].
Proof. vm_compute. reflexivity. Qed.

Example expand_descending :
  expandRequirementRange "P-005 through P-001" = ["P-005 through P-001"].
Proof. vm_compute. reflexivity. Qed.

Example expand_no_match :
  expandRequirementRange "some random string" = ["some random string"].
Proof. vm_compute. reflexivity. Qed.

Example expand_large_range :
  List.length
    (expandRequirementRange "REQ-CORE-FN-001 through REQ-CORE-FN-051")
  = 51%nat.
Proof. vm_compute. reflexivity. Qed.

(** The back reference is compared case-insensitively as well. *)
Example expand_folded_prefix :
  expandRequirementRange "p-001 THROUGH P-003" = ["p-001"; "p-002"; "p-003"].
Proof. vm_compute. reflexivity. Qed.

End ParserProps.

(* ================================================================== *)
(** * The index builder *)
(* ================================================================== *)

Module IndexerProps.
Import Indexer.

(** C1.  For every split of an event list into A and B, building the
    indices of A and then updating them incrementally with B gives the
    same seven maps (entry map, agent, phase and work_seq indices, file
    statistics, requirement index, parent-children map), entry for entry
    and in the same order, as building the indices of A ++ B. *)
Theorem incremental_index_equivalence (A B : list LogEntry) :
  updateIndicesIncremental (buildIndices A) B = buildIndices (A ++ B).
Proof.
  unfold updateIndicesIncremental, buildIndices.
  now rewrite fold_left_app.
Qed.

(** The agent index groups the entries by agent. *)
Lemma indexEntry_agentIndex (e : LogEntry) (idx : LogIndices) :
  agentIndex (indexEntry e idx) = JsMap.push (agent e) e (agentIndex idx).
Proof. reflexivity. Qed.

Lemma buildIndices_agentIndex (l : list LogEntry) :
  agentIndex (buildIndices l) = grouped agent l.
Proof.
  rewrite <- groupBy_grouped.
  induction l as [|e l IH] using rev_ind; [reflexivity|].
  unfold buildIndices in *. rewrite fold_left_app. simpl.
  rewrite IH. now rewrite groupBy_snoc.
Qed.

End IndexerProps.

(* ================================================================== *)
(** * The live tail watcher *)
(* ================================================================== *)

Module WatcherProps.
Import Watcher.

Lemma resetFailures_invariant (w : FileWatcher) :
  watcherInvariant w -> watcherInvariant (resetFailures w).
Proof.
  unfold watcherInvariant, LIVE_TAIL_MAX_FAILURES. destruct w as [iv cfg n act].
  simpl. intros (Hn & Ha & Hi & Hc). repeat split; try lia; tauto.
Qed.

Lemma onFailure_invariant (w : FileWatcher) :
  configured w = true ->
  watcherInvariant w -> watcherInvariant (fst (onFailure w)).
Proof.
  unfold watcherInvariant, onFailure, stop, LIVE_TAIL_MAX_FAILURES.
  destruct w as [iv cfg n act]. simpl. intros -> (Hn & Ha & Hi & Hc).
  destruct (3 <=? n + 1) eqn:E; simpl.
  - repeat split; try lia; discriminate.
  - apply Z.leb_gt in E. repeat split; try lia; try tauto; discriminate.
Qed.

Lemma poll_invariant (w : FileWatcher) (r : ReadResult) :
  watcherInvariant w -> watcherInvariant (fst (poll w r)).
Proof.
  intros Hw. unfold poll.
  destruct (configured w) eqn:Hc; cbn [negb]; [|exact Hw].
  destruct r as [content [|]| |].
  - pose proof (onFailure_invariant (resetFailures w) Hc
                  (resetFailures_invariant _ Hw)) as Hf.
    destruct (onFailure (resetFailures w)) as [w' calls]. exact Hf.
  - now apply resetFailures_invariant.
  - now apply onFailure_invariant.
  - now apply onFailure_invariant.
Qed.

Lemma step_invariant (w : FileWatcher) (ev : Event) :
  watcherInvariant w -> watcherInvariant (fst (step w ev)).
Proof.
  intros Hw. destruct ev as [id| |r|r]; simpl.
  - unfold watcherInvariant, LIVE_TAIL_MAX_FAILURES. simpl.
    repeat split; try lia; try discriminate.
  - unfold watcherInvariant, stop in *. simpl.
    repeat split; try tauto; discriminate.
  - now apply poll_invariant.
  - destruct (intervalId w); [now apply poll_invariant | exact Hw].
Qed.

Lemma reachable_invariant (w : FileWatcher) : reachable w -> watcherInvariant w.
Proof.
  induction 1 as [|w ev _ IH].
  - unfold watcherInvariant. simpl. repeat split; try lia; discriminate.
  - now apply step_invariant.
Qed.

(** Timer ticks do nothing once the interval is cleared. *)
Lemma ticks_when_cleared (w : FileWatcher) (rs : list ReadResult) :
  intervalId w = None -> run w (map Tick rs) = (w, []).
Proof.
  intros Hi. induction rs as [|r rs IH]; [reflexivity|].
  simpl. rewrite Hi. now rewrite IH.
Qed.

(** C9.  For every state [w] the watcher can reach:
    - after a successful poll the consecutive failure counter is zero;
    - if [w] is active, three consecutive failed polls (the content could
      not be read) leave it disabled (isActive false, interval cleared)
      and [onDisabled] has been called exactly once;
    - if moreover the counter of [w] is zero, the watcher is still active
      after the first two of them;
    - once [w] is not active, timer ticks change nothing and call nothing;
    - [start] brings any state back to active with a counter of zero. *)
Theorem polling_auto_disable (w : FileWatcher) :
  reachable w ->
  (forall r,
      isSuccess r = true ->
      consecutiveFailures (fst (poll w r)) = 0)
  /\ (forall r1 r2 r3,
         isActive w = true ->
         isFailure r1 = true -> isFailure r2 = true -> isFailure r3 = true ->
         let '(w', calls) := run w [Tick r1; Tick r2; Tick r3] in
         isActive w' = false /\ intervalId w' = None
         /\ List.length (filter isOnDisabled calls) = 1%nat)
  /\ (forall r1 r2,
         isActive w = true -> consecutiveFailures w = 0 ->
         isFailure r1 = true -> isFailure r2 = true ->
         let '(w', calls) := run w [Tick r1; Tick r2] in
         isActive w' = true /\ consecutiveFailures w' = 2
         /\ filter isOnDisabled calls = [])
  /\ (forall rs,
         isActive w = false -> run w (map Tick rs) = (w, []))
  /\ (forall id,
         let w' := fst (step w (Start id)) in
         isActive w' = true /\ consecutiveFailures w' = 0
         /\ intervalId w' = Some id).
Proof.
  intros Hr. apply reachable_invariant in Hr.
  destruct Hr as (Hn & Ha & Hi & Hc).
  split; [|split; [|split; [|split]]].
  - intros r Hs. unfold poll.
    destruct (configured w) eqn:Hcfg; cbn [negb fst]; [|now apply Hc].
    destruct r as [content [|]| |]; try discriminate. reflexivity.
  - intros r1 r2 r3 Hact H1 H2 H3.
    destruct (Ha Hact) as (Hiv & Hcfg & Hlt).
    unfold LIVE_TAIL_MAX_FAILURES in Hlt.
    destruct w as [iv cfg n act]. simpl in *. subst cfg act.
    destruct iv as [id|]; [|congruence].
    assert (Hcases : n = 0 \/ n = 1 \/ n = 2) by lia.
    destruct r1 as [c1 b1| |]; try discriminate;
      destruct r2 as [c2 b2| |]; try discriminate;
        destruct r3 as [c3 b3| |]; try discriminate;
          destruct Hcases as [-> | [-> | ->]];
          vm_compute; repeat split; reflexivity.
  - intros r1 r2 Hact Hz H1 H2.
    destruct (Ha Hact) as (Hiv & Hcfg & Hlt).
    destruct w as [iv cfg n act]. simpl in *. subst cfg act n.
    destruct iv as [id|]; [|congruence].
    destruct r1 as [c1 b1| |]; try discriminate;
      destruct r2 as [c2 b2| |]; try discriminate;
        vm_compute; repeat split; reflexivity.
  - intros rs Hact. apply ticks_when_cleared, Hi, Hact.
  - intros id. simpl. repeat split.
Qed.

Lemma polling_auto_disable_witness :
  let w := fst (step initial (Start 1%nat)) in
  let '(w', calls) := run w [Tick ReadNull; Tick ReadRejected; Tick ReadNull] in
  isActive w' = false /\ intervalId w' = None
  /\ List.length (filter isOnDisabled calls) = 1%nat.
Proof.
  exact (proj1 (proj2 (polling_auto_disable
                         (fst (step initial (Start 1%nat)))
                         (reach_step _ _ reach_initial)))
               ReadNull ReadRejected ReadNull
               eq_refl eq_refl eq_refl eq_refl).
Defined.

(** The run of the test "should disable after 3 consecutive failures". *)
Example three_failures_run :
  run initial [Start 1%nat; Tick ReadNull; Tick ReadNull; Tick ReadNull;
               Tick (ReadContent "late" false)]
  = (mkWatcher None true 3 false,
     [onError 1; onError 2; onError 3; onDisabled]).
Proof. vm_compute. reflexivity. Qed.

(** The run of the test "should reset failure count on success". *)
Example success_resets_run :
  run initial [Start 1%nat; Tick ReadNull; Tick ReadNull;
               Tick (ReadContent "content" false)]
  = (mkWatcher (Some 1%nat) true 0 true,
     [onError 1; onError 2; onNewContent "content"]).
Proof. vm_compute. reflexivity. Qed.

(** A handler that throws is caught by the same [catch]; the counter was
    reset just before, so such polls never add up to three. *)
Example throwing_handler_run :
  run initial [Start 1%nat; Tick (ReadContent "a" true);
               Tick (ReadContent "b" true); Tick (ReadContent "c" true)]
  = (mkWatcher (Some 1%nat) true 1 true,
     [onNewContent "a"; onError 1; onNewContent "b"; onError 1;
      onNewContent "c"; onError 1]).
Proof. vm_compute. reflexivity. Qed.

End WatcherProps.

(* ================================================================== *)
(** * START/terminal pairing *)
(* ================================================================== *)

Module PairingProps.
Import Pairing.

Lemma find_firstSuch {A} (P : A -> bool) (l : list A) (t : A) :
  find P l = Some t <-> firstSuch P l t.
Proof.
  unfold firstSuch. induction l as [|x l IH]; simpl.
  - split; [discriminate|]. intros (l1 & l2 & E & _).
    destruct l1; discriminate.
  - destruct (P x) eqn:Px.
    + split.
      * intros [= ->]. exists [], l. repeat split; auto.
      * intros (l1 & l2 & E & Pt & Hl1). destruct l1 as [|y l1].
        -- now injection E as -> _.
        -- injection E as -> _. inversion Hl1; congruence.
    + rewrite IH. split.
      * intros (l1 & l2 & -> & Pt & Hl1). exists (x :: l1), l2.
        repeat split; auto.
      * intros (l1 & l2 & E & Pt & Hl1). destruct l1 as [|y l1].
        -- injection E as -> _. congruence.
        -- injection E as -> ->. exists l1, l2. inversion Hl1.
           repeat split; auto.
Qed.

Lemma find_noneSuch {A} (P : A -> bool) (l : list A) :
  find P l = None <-> noneSuch P l.
Proof.
  unfold noneSuch. induction l as [|x l IH]; simpl.
  - split; auto.
  - destruct (P x) eqn:Px.
    + split; [discriminate|]. intros Hf. inversion Hf. congruence.
    + rewrite IH. split; [auto|]. intros Hf. now inversion Hf.
Qed.

(** The inner loops are a search for the first terminal that is not
    consumed and satisfies the condition. *)
Lemma firstMatch_find cond consumed (l : list LogEntry) :
  firstMatch cond consumed l
  = find (fun t => negb (JsSet.has (log_seq t) consumed) && cond t) l.
Proof.
  induction l as [|t l IH]; [reflexivity|]. simpl.
  destruct (JsSet.has (log_seq t) consumed); simpl; [exact IH|].
  destruct (cond t); [reflexivity | exact IH].
Qed.

Lemma firstMatch_Some cond consumed (l : list LogEntry) (t : LogEntry) :
  firstMatch cond consumed l = Some t ->
  In t l /\ JsSet.has (log_seq t) consumed = false /\ cond t = true.
Proof.
  rewrite firstMatch_find. intros Hf. apply find_some in Hf.
  destruct Hf as [Hin Hp]. apply andb_prop in Hp. destruct Hp as [Hc Hd].
  apply negb_true_iff in Hc. auto.
Qed.

Lemma findTerminal_Some (s : LogEntry) consumed (l : list LogEntry) t :
  findTerminal s consumed l = Some t ->
  In t l /\ JsSet.has (log_seq t) consumed = false.
Proof.
  unfold findTerminal. intros Hf.
  destruct (truthyOptString (task_id s)).
  - destruct (firstMatch (primaryCond s) consumed l) eqn:E.
    + injection Hf as ->. apply firstMatch_Some in E. tauto.
    + apply firstMatch_Some in Hf. tauto.
  - apply firstMatch_Some in Hf. tauto.
Qed.

(** Step 1 computes three filters. *)
Lemma isTerminal_not_start (e : LogEntry) :
  isStart e = true -> isTerminal e = false.
Proof.
  unfold isStart, isTerminal. intros Hs. apply String.eqb_eq in Hs.
  now rewrite Hs.
Qed.

Lemma classify_filters (entries : list LogEntry) :
  classify entries
  = (filter isStart entries, filter isTerminal entries,
     filter (fun e => negb (isStart e) && negb (isTerminal e) && isMarker e)
            entries).
Proof.
  unfold classify.
  induction entries as [|e l IH] using rev_ind; [reflexivity|].
  rewrite fold_left_app, IH. simpl. rewrite !filter_app. simpl.
  destruct (isStart e) eqn:Hs.
  - rewrite (isTerminal_not_start e Hs). simpl. now rewrite !app_nil_r.
  - destruct (isTerminal e); simpl; [now rewrite !app_nil_r|].
    destruct (isMarker e); now rewrite !app_nil_r.
Qed.

(** Step 2 groups the terminals by agent. *)
Lemma groupStep_push (m : list (string * list LogEntry)) (t : LogEntry) :
  groupStep m t = JsMap.push (agent t) t m.
Proof.
  unfold groupStep, JsMap.push, JsMap.has.
  destruct (JsMap.get (agent t) m) eqn:E; [reflexivity|].
  now rewrite set_then_mutate.
Qed.

Lemma groupByAgent_grouped (terminals : list LogEntry) :
  groupByAgent terminals = grouped agent terminals.
Proof.
  rewrite <- groupBy_grouped. unfold groupByAgent, groupBy.
  induction terminals as [|t l IH] using rev_ind; [reflexivity|].
  rewrite !fold_left_app. simpl. now rewrite IH, groupStep_push.
Qed.

Lemma groupByAgent_get (terminals : list LogEntry) (a : string) :
  JsMap.get a (groupByAgent terminals)
  = match filter (fun t => String.eqb (agent t) a) terminals with
    | [] => None
    | l => Some l
    end.
Proof.
  rewrite groupByAgent_grouped, grouped_get.
  change (fun x : LogEntry => keyb (agent x) a)
    with (fun t : LogEntry => String.eqb (agent t) a).
  destruct (JsSet.has a (map agent terminals)) eqn:E.
  - apply set_has_In in E. apply in_map_iff in E.
    destruct E as (t & Ha & Hin).
    assert (Hf : In t (filter (fun t => String.eqb (agent t) a) terminals)).
    { apply filter_In. split; [exact Hin|]. now apply String.eqb_eq. }
    destruct (filter (fun t => String.eqb (agent t) a) terminals);
      [contradiction | reflexivity].
  - apply set_has_not_In in E.
    pose proof (filter_key_absent agent terminals a E) as Hf.
    change (fun x : LogEntry => keyb (agent x) a)
      with (fun t : LogEntry => String.eqb (agent t) a) in Hf.
    now rewrite Hf.
Qed.

Lemma pairStarts_snoc tba (l : list LogEntry) (s : LogEntry) :
  pairStarts tba (l ++ [s]) = pairStep tba (pairStarts tba l) s.
Proof. unfold pairStarts. now rewrite fold_left_app. Qed.

Lemma NoDup_snoc {A} (l : list A) (x : A) :
  NoDup l -> ~ In x l -> NoDup (l ++ [x]).
Proof.
  intros Hl Hx. apply (Permutation_NoDup (l := x :: l)).
  - apply Permutation_cons_append.
  - now constructor.
Qed.

(** What the loop over the STARTs maintains. *)
Lemma pairStarts_invariant (terminals starts : list LogEntry) :
  let st := pairStarts (groupByAgent terminals) starts in
  Permutation starts
    (map startEntry (st_bars st) ++ map orphan_entry (st_orphans st))
  /\ (forall z, In z (consumedTerminals st)
                <-> In z (map (fun b => log_seq (endEntry b)) (st_bars st)))
  /\ NoDup (map (fun b => log_seq (endEntry b)) (st_bars st))
  /\ Forall (fun b => In (endEntry b) terminals) (st_bars st).
Proof.
  induction starts as [|s l IH] using rev_ind.
  - simpl. repeat split; auto; try constructor.
  - rewrite pairStarts_snoc. cbv zeta in IH.
    destruct IH as (Hperm & Hcons & Hnd & Hall).
    set (st := pairStarts (groupByAgent terminals) l) in *.
    assert (Horphan :
      let st' := mkPairState (st_bars st) (st_orphans st ++ [mkOrphan s])
                             (consumedTerminals st) in
      Permutation (l ++ [s])
        (map startEntry (st_bars st') ++ map orphan_entry (st_orphans st'))
      /\ (forall z, In z (consumedTerminals st')
            <-> In z (map (fun b => log_seq (endEntry b)) (st_bars st')))
      /\ NoDup (map (fun b => log_seq (endEntry b)) (st_bars st'))
      /\ Forall (fun b => In (endEntry b) terminals) (st_bars st')).
    { simpl. repeat split; auto; try apply Hcons.
      rewrite map_app. simpl. rewrite app_assoc.
      now apply Permutation_app_tail. }
    unfold pairStep. rewrite groupByAgent_get.
    destruct (filter (fun t => String.eqb (agent t) (agent s)) terminals)
      as [|c cs] eqn:F; [exact Horphan|].
    destruct (findTerminal s (consumedTerminals st) (c :: cs))
      as [t|] eqn:Ft; [|exact Horphan].
    apply findTerminal_Some in Ft. destruct Ft as [Hin Hfree].
    rewrite <- F in Hin. apply filter_In in Hin. destruct Hin as [Hin _].
    apply set_has_not_In in Hfree. simpl.
    repeat split.
    + rewrite map_app. simpl. rewrite <- app_assoc. simpl.
      apply Permutation_trans
        with ((map startEntry (st_bars st)
               ++ map orphan_entry (st_orphans st)) ++ [s]).
      * now apply Permutation_app_tail.
      * rewrite <- app_assoc. apply Permutation_app_head.
        apply Permutation_sym, Permutation_cons_append.
    + rewrite set_add_In, map_app, in_app_iff. simpl.
      rewrite Hcons. intuition.
    + rewrite set_add_In, map_app, in_app_iff. simpl.
      rewrite Hcons. intuition.
    + rewrite map_app. simpl. apply NoDup_snoc; [exact Hnd|].
      now rewrite <- Hcons.
    + apply Forall_app. split; [exact Hall|]. now constructor.
Qed.

Lemma pairStarts_bars_grow tba (l : list LogEntry) :
  forall st b,
    In b (st_bars st) -> In b (st_bars (fold_left (pairStep tba) l st)).
Proof.
  induction l as [|s l IH]; intros st b Hb; [exact Hb|].
  simpl. apply IH. unfold pairStep.
  destruct (JsMap.get (agent s) tba) as [ts|]; [|exact Hb].
  destruct (findTerminal s (consumedTerminals st) ts); [|exact Hb].
  simpl. apply in_or_app. now left.
Qed.

Lemma pairStarts_orphans_grow tba (l : list LogEntry) :
  forall st o,
    In o (st_orphans st) -> In o (st_orphans (fold_left (pairStep tba) l st)).
Proof.
  induction l as [|s l IH]; intros st o Ho; [exact Ho|].
  simpl. apply IH. unfold pairStep.
  destruct (JsMap.get (agent s) tba) as [ts|];
    [|simpl; apply in_or_app; now left].
  destruct (findTerminal s (consumedTerminals st) ts); [exact Ho|].
  simpl. apply in_or_app. now left.
Qed.

Lemma find_ext {A} (P Q : A -> bool) (l : list A) :
  (forall x, P x = Q x) -> find P l = find Q l.
Proof.
  intros E. induction l as [|x l IH]; [reflexivity|].
  simpl. now rewrite E, IH.
Qed.

Lemma set_has_ext (z : Z) (s1 s2 : list Z) :
  (forall x, In x s1 <-> In x s2) -> JsSet.has z s1 = JsSet.has z s2.
Proof.
  intros E. destruct (JsSet.has z s2) eqn:H2.
  - apply set_has_In. apply E. now apply set_has_In.
  - apply set_has_not_In. rewrite E. now apply set_has_not_In.
Qed.

(** One pass of the loop body, in terms of searches among the terminals
    of the agent that no bar has consumed. *)
Lemma pairStep_searches (terminals processed : list LogEntry) (s : LogEntry) :
  let tba := groupByAgent terminals in
  let before := pairStarts tba processed in
  let candidates :=
    filter (fun t => String.eqb (agent t) (agent s)) terminals in
  let primary t :=
    negb (consumedBy (st_bars before) t) && primaryCond s t in
  let secondary t :=
    negb (consumedBy (st_bars before) t) && secondaryCond s t in
  let paired t :=
    mkPairState (st_bars before ++ [mkBar s t (outcomeOf t)])
                (st_orphans before)
                (JsSet.add (log_seq t) (consumedTerminals before)) in
  let orphaned :=
    mkPairState (st_bars before) (st_orphans before ++ [mkOrphan s])
                (consumedTerminals before) in
  pairStep tba before s
  = match (if truthyOptString (task_id s)
           then find primary candidates else None) with
    | Some t => paired t
    | None =>
        match find secondary candidates with
        | Some t => paired t
        | None => orphaned
        end
    end.
Proof.
  intros tba before candidates primary secondary paired orphaned.
  destruct (pairStarts_invariant terminals processed)
    as (_ & Hcons & _ & _).
  fold tba in Hcons. fold before in Hcons.
  assert (Hfree : forall t,
    JsSet.has (log_seq t) (consumedTerminals before)
    = consumedBy (st_bars before) t).
  { intros t. unfold consumedBy. apply set_has_ext, Hcons. }
  unfold pairStep. unfold tba at 1. rewrite groupByAgent_get.
  fold candidates. destruct candidates as [|c cs] eqn:F.
  - simpl. destruct (truthyOptString (task_id s)); reflexivity.
  - unfold findTerminal. rewrite !firstMatch_find.
    rewrite (find_ext
               (fun t => negb (JsSet.has (log_seq t) (consumedTerminals before))
                         && primaryCond s t) primary)
      by (intros t; unfold primary; now rewrite Hfree).
    rewrite (find_ext
               (fun t => negb (JsSet.has (log_seq t) (consumedTerminals before))
                         && secondaryCond s t) secondary)
      by (intros t; unfold secondary; now rewrite Hfree).
    destruct (truthyOptString (task_id s)).
    + destruct (find primary (c :: cs)); [reflexivity|].
      destruct (find secondary (c :: cs)); reflexivity.
    + destruct (find secondary (c :: cs)); reflexivity.
Qed.

Section WithDate.
Variable Date_getTime : string -> option Z.

Lemma pairEntries_bars (entries : list LogEntry) :
  bars (pairEntries Date_getTime entries)
  = st_bars (pairStarts (groupByAgent (filter isTerminal entries))
                        (filter isStart entries)).
Proof. unfold pairEntries. now rewrite classify_filters. Qed.

Lemma pairEntries_orphans (entries : list LogEntry) :
  orphans (pairEntries Date_getTime entries)
  = st_orphans (pairStarts (groupByAgent (filter isTerminal entries))
                           (filter isStart entries)).
Proof. unfold pairEntries. now rewrite classify_filters. Qed.

(** C2.  For every event list, in the result of [pairEntries]:
    the START events of the input are, occurrence for occurrence, the
    start entries of the bars together with the orphans (each START is in
    exactly one of the two, once); no two bars end at the same terminal
    (not even at two terminals with the same log_seq); and every end
    entry is a terminal event of the input. *)
Theorem pairing_conservation (entries : list LogEntry) :
  let r := pairEntries Date_getTime entries in
  Permutation (filter isStart entries)
              (map startEntry (bars r) ++ map orphan_entry (orphans r))
  /\ NoDup (map endEntry (bars r))
  /\ NoDup (map (fun b => log_seq (endEntry b)) (bars r))
  /\ Forall (fun b => In (endEntry b) entries
                      /\ isTerminal (endEntry b) = true) (bars r).
Proof.
  cbv zeta. rewrite pairEntries_bars, pairEntries_orphans.
  destruct (pairStarts_invariant (filter isTerminal entries)
                                 (filter isStart entries))
    as (Hperm & _ & Hnd & Hall).
  repeat split.
  - exact Hperm.
  - apply (NoDup_map_inv log_seq). now rewrite map_map.
  - exact Hnd.
  - eapply Forall_impl; [|exact Hall]. intros b Hb.
    now apply filter_In in Hb.
Qed.

(** C3, amended.  The match rule holds when "the START has a task id"
    is read as the code tests it: the task id is neither null nor the
    empty string. *)
Theorem pairing_match_rule (entries : list LogEntry) :
  matchRule Date_getTime truthyOptString entries.
Proof.
  intros processed s rest Hsplit. cbv zeta.
  pose proof (pairStep_searches (filter isTerminal entries) processed s)
    as Hstep.
  cbv zeta in Hstep. rewrite <- pairStarts_snoc in Hstep.
  assert (Hbars : forall b,
    In b (st_bars (pairStarts (groupByAgent (filter isTerminal entries))
                              (processed ++ [s]))) ->
    In b (bars (pairEntries Date_getTime entries))).
  { intros b Hb. rewrite pairEntries_bars, Hsplit.
    replace (processed ++ s :: rest) with ((processed ++ [s]) ++ rest)
      by (now rewrite <- app_assoc).
    unfold pairStarts at 1. rewrite fold_left_app.
    now apply pairStarts_bars_grow. }
  assert (Horph : forall o,
    In o (st_orphans (pairStarts (groupByAgent (filter isTerminal entries))
                                 (processed ++ [s]))) ->
    In o (orphans (pairEntries Date_getTime entries))).
  { intros o Ho. rewrite pairEntries_orphans, Hsplit.
    replace (processed ++ s :: rest) with ((processed ++ [s]) ++ rest)
      by (now rewrite <- app_assoc).
    unfold pairStarts at 1. rewrite fold_left_app.
    now apply pairStarts_orphans_grow. }
  split; [|split].
  - intros t Hp Hfirst. apply find_firstSuch in Hfirst.
    rewrite Hp, Hfirst in Hstep.
    split; [|split]; [now rewrite Hstep | now rewrite Hstep |].
    apply Hbars. rewrite Hstep. simpl. apply in_or_app. right. now left.
  - intros t Hno Hfirst. apply find_firstSuch in Hfirst.
    assert (Hnone :
      (if truthyOptString (task_id s)
       then find (fun t0 =>
              negb (consumedBy
                      (st_bars (pairStarts
                         (groupByAgent (filter isTerminal entries))
                         processed)) t0)
              && primaryCond s t0)
              (filter (fun t0 => String.eqb (agent t0) (agent s))
                      (filter isTerminal entries))
       else None) = None).
    { destruct Hno as [-> | Hno]; [reflexivity|].
      apply find_noneSuch in Hno. rewrite Hno.
      now destruct (truthyOptString (task_id s)). }
    rewrite Hnone, Hfirst in Hstep.
    split; [|split]; [now rewrite Hstep | now rewrite Hstep |].
    apply Hbars. rewrite Hstep. simpl. apply in_or_app. right. now left.
  - intros Hno Hnosec. apply find_noneSuch in Hnosec.
    assert (Hnone :
      (if truthyOptString (task_id s)
       then find (fun t0 =>
              negb (consumedBy
                      (st_bars (pairStarts
                         (groupByAgent (filter isTerminal entries))
                         processed)) t0)
              && primaryCond s t0)
              (filter (fun t0 => String.eqb (agent t0) (agent s))
                      (filter isTerminal entries))
       else None) = None).
    { destruct Hno as [-> | Hno]; [reflexivity|].
      apply find_noneSuch in Hno. rewrite Hno.
      now destruct (truthyOptString (task_id s)). }
    rewrite Hnone, Hnosec in Hstep.
    split; [|split]; [now rewrite Hstep | now rewrite Hstep |].
    apply Horph. rewrite Hstep. simpl. apply in_or_app. right. now left.
Qed.

End WithDate.

(** C3 as stated fails.  With "has a task id" read as "task_id is not
    null", a START whose task_id is the empty string should take the
    first terminal of its agent with the same (empty) task_id; the code
    skips the primary search for it, the phases differ, and the START is
    an orphan. *)
Lemma pairing_match_rule_counterexample :
  ~ matchRule noDate nonNull [emptyTaskStart; emptyTaskComplete].
Proof.
  intros Hrule.
  destruct (Hrule [] emptyTaskStart [] eq_refl) as (Hprimary & _).
  assert (Hfirst :
    firstSuch
      (fun t => negb (consumedBy [] t) && primaryCond emptyTaskStart t)
      [emptyTaskComplete] emptyTaskComplete).
  { exists [], []. repeat split. constructor. }
  destruct (Hprimary emptyTaskComplete eq_refl Hfirst) as (Hbars & _).
  vm_compute in Hbars. discriminate Hbars.
Qed.

Lemma pairing_match_rule_witness :
  let entries := duplicateStartScenario in
  let result := pairEntries noDate entries in
  map (fun b => (log_seq (startEntry b), log_seq (endEntry b))) (bars result)
  = [(1, 3)]
  /\ map (fun o => log_seq (orphan_entry o)) (orphans result) = [2]
  /\ In (mkOrphan (sampleEntry 2 "dev" "START" "implementation" None (Some "T1")))
        (orphans result).
Proof.
  split; [vm_compute; reflexivity|].
  split; [vm_compute; reflexivity|].
  pose proof (pairing_match_rule noDate duplicateStartScenario
                [sampleEntry 1 "dev" "START" "implementation" None (Some "T1")]
                (sampleEntry 2 "dev" "START" "implementation" None (Some "T1"))
                [] eq_refl) as H.
  cbv zeta in H. destruct H as (_ & _ & Horphan).
  apply Horphan.
  - right. vm_compute. repeat constructor.
  - vm_compute. repeat constructor.
Defined.

(** Scenario 8 of the specification. *)
Example pairing_scenario_8 :
  let r := pairEntries noDate
             [ sampleEntry 1 "dev" "START" "implementation" None (Some "T1");
               sampleEntry 2 "dev" "COMPLETE" "implementation" None (Some "T1") ] in
  map outcome (bars r) = [success] /\ orphans r = [].
Proof. vm_compute. split; reflexivity. Qed.

End PairingProps.

(* ================================================================== *)
(** * Phase statistics *)
(* ================================================================== *)

Module DoubleProps.
Import Double.

Lemma roundHalfEven_nonneg (a b : Z) :
  0 <= a -> 0 < b -> 0 <= roundHalfEven a b.
Proof.
  intros Ha Hb. unfold roundHalfEven.
  pose proof (Z.div_pos a b Ha Hb) as Hq.
  destruct (2 * (a mod b) <? b); [exact Hq|].
  destruct (b <? 2 * (a mod b)); [lia|].
  destruct (Z.even (a / b)); lia.
Qed.

Lemma scaled_signs (n d e : Z) :
  0 <= n -> 0 < d -> 0 <= fst (scaled n d e) /\ 0 < snd (scaled n d e).
Proof.
  intros Hn Hd. unfold scaled. destruct (0 <=? e) eqn:E; simpl.
  - apply Z.leb_le in E. split; [exact Hn|].
    apply Z.mul_pos_pos; [exact Hd | now apply Z.pow_pos_nonneg].
  - apply Z.leb_gt in E. split; [|exact Hd].
    apply Z.mul_nonneg_nonneg; [exact Hn|]. apply Z.pow_nonneg. lia.
Qed.

Lemma ofFraction_nonneg (n d : Z) :
  0 <= n -> 0 < d -> 0 <= mant (ofFraction n d).
Proof.
  intros Hn Hd. unfold ofFraction. destruct (n =? 0); [simpl; lia|].
  destruct (scaled n d (Z.log2 n - Z.log2 d - 52)) as [a0 b0].
  set (e := if a0 <? b0 * 2 ^ 52 then _ else _).
  pose proof (scaled_signs n d e Hn Hd) as [Ha Hb].
  destruct (scaled n d e) as [a b]. simpl in *.
  now apply roundHalfEven_nonneg.
Qed.

Lemma mulInt_nonneg (v : t) (k : Z) :
  0 <= mant v -> 0 <= k -> 0 <= mant (mulInt v k).
Proof.
  intros Hv Hk. unfold mulInt. destruct (0 <=? expo v) eqn:E.
  - apply Z.leb_le in E. apply ofFraction_nonneg; [|lia].
    apply Z.mul_nonneg_nonneg; [now apply Z.mul_nonneg_nonneg|].
    now apply Z.pow_nonneg.
  - apply Z.leb_gt in E. apply ofFraction_nonneg.
    + now apply Z.mul_nonneg_nonneg.
    + apply Z.pow_pos_nonneg; lia.
Qed.

Lemma round_nonneg (v : t) : 0 <= mant v -> 0 <= round v.
Proof.
  intros Hv. unfold round. destruct (0 <=? expo v) eqn:E.
  - apply Z.leb_le in E.
    apply Z.mul_nonneg_nonneg; [exact Hv | now apply Z.pow_nonneg].
  - apply Z.leb_gt in E. apply Z.div_pos.
    + assert (0 < 2 ^ (- expo v)) by (apply Z.pow_pos_nonneg; lia). lia.
    + apply Z.pow_pos_nonneg; lia.
Qed.

(** [Math.round((c / t) * 100)] is not negative. *)
Lemma percent_nonneg (c t : Z) :
  0 <= c -> 0 < t -> 0 <= round (mulInt (div c t) 100).
Proof.
  intros Hc Ht. apply round_nonneg, mulInt_nonneg; [|lia].
  now apply ofFraction_nonneg.
Qed.

(** Values of the expression as JavaScript computes them; 29/200 is the
    case where the double product falls just below 14.5. *)
Example percent_one_third : round (mulInt (div 1 3) 100) = 33.
Proof. vm_compute. reflexivity. Qed.

Example percent_two_thirds : round (mulInt (div 2 3) 100) = 67.
Proof. vm_compute. reflexivity. Qed.

Example percent_one_eighth : round (mulInt (div 1 8) 100) = 13.
Proof. vm_compute. reflexivity. Qed.

Example percent_29_of_200 : round (mulInt (div 29 200) 100) = 14.
Proof. vm_compute. reflexivity. Qed.

End DoubleProps.

Module DashboardProps.
Import Dashboard.

Ltac triple_lia :=
  apply (f_equal2 pair); [apply (f_equal2 pair)|]; lia.

Lemma insertSorted_In {A} (cmp : A -> A -> Z) (x y : A) (l : list A) :
  In y (insertSorted cmp x l) <-> y = x \/ In y l.
Proof.
  induction l as [|z l IH]; simpl.
  - intuition.
  - destruct (cmp x z <=? 0); simpl; [intuition|].
    rewrite IH. intuition.
Qed.

Lemma stableSort_In {A} (cmp : A -> A -> Z) (y : A) (l : list A) :
  In y (stableSort cmp l) <-> In y l.
Proof.
  unfold stableSort. induction l as [|x l IH]; simpl; [reflexivity|].
  rewrite insertSorted_In, IH. intuition.
Qed.

(** The phase map groups the entries that have a phase. *)
Lemma groupByPhase_grouped (entries : list LogEntry) :
  groupByPhase entries
  = grouped phase (filter (fun e => truthyString (phase e)) entries).
Proof.
  rewrite <- groupBy_grouped. unfold groupByPhase, groupBy.
  induction entries as [|e l IH] using rev_ind; [reflexivity|].
  rewrite fold_left_app, filter_app. simpl. rewrite IH.
  destruct (truthyString (phase e)); simpl.
  - now rewrite fold_left_app.
  - now rewrite app_nil_r.
Qed.

Lemma filter_filter_implied {A} (P Q : A -> bool) (l : list A) :
  (forall x, P x = true -> Q x = true) ->
  filter P (filter Q l) = filter P l.
Proof.
  intros Hpq. induction l as [|x l IH]; [reflexivity|]. simpl.
  destruct (Q x) eqn:Qx; simpl.
  - now rewrite IH.
  - destruct (P x) eqn:Px; [|exact IH].
    apply Hpq in Px. congruence.
Qed.

Lemma phaseMap_get (entries : list LogEntry) (n : string) :
  In n (JsMap.keys (groupByPhase entries)) ->
  JsMap.get n (groupByPhase entries)
  = Some (filter (fun e => String.eqb (phase e) n) entries).
Proof.
  rewrite groupByPhase_grouped, grouped_keys, distinct_In. intros Hin.
  rewrite grouped_get.
  pose proof Hin as Hhas. apply set_has_In in Hhas. rewrite Hhas.
  apply in_map_iff in Hin. destruct Hin as (e & He & Hin).
  apply filter_In in Hin. destruct Hin as [_ Htruthy].
  f_equal.
  change (fun x : LogEntry => keyb (phase x) n)
    with (fun x : LogEntry => String.eqb (phase x) n).
  apply filter_filter_implied. intros x Hx.
  apply String.eqb_eq in Hx. now rewrite Hx, <- He.
Qed.

Lemma groupWorkUnits_values (phaseEntries : list LogEntry) :
  JsMap.values (groupWorkUnits phaseEntries) = unitsOf phaseEntries.
Proof.
  unfold groupWorkUnits. fold (groupBy workUnitKey phaseEntries).
  rewrite groupBy_grouped. unfold grouped, JsMap.values, unitsOf.
  now rewrite map_map.
Qed.

Lemma countWhere_cons {A} (P : A -> bool) (x : A) (l : list A) :
  countWhere P (x :: l) = (if P x then 1 else 0) + countWhere P l.
Proof.
  unfold countWhere. simpl. destruct (P x); simpl List.length; lia.
Qed.

Lemma countWhere_nonneg {A} (P : A -> bool) (l : list A) :
  0 <= countWhere P l.
Proof. unfold countWhere. lia. Qed.

(** The two sets of actions have no element in common. *)
Lemma success_not_failure (e : LogEntry) :
  isSuccessTerminal e = true -> isFailureTerminal e = false.
Proof.
  unfold isSuccessTerminal, isFailureTerminal. intros Hs.
  apply set_has_In in Hs. simpl in Hs.
  destruct Hs as [<- | [<- | [<- | []]]]; reflexivity.
Qed.

(** One pass of the loop over the work units. *)
Lemma countStep_one (a b c : Z) (u : list LogEntry) :
  countStep (a, b, c) u
  = (a + (if hasStart u then 1 else 0),
     b + (if hasStart u && latestIs isSuccessTerminal u then 1 else 0),
     c + (if hasStart u && latestIs isFailureTerminal u then 1 else 0)).
Proof.
  unfold countStep. fold (hasStart u).
  destruct (hasStart u) eqn:Hs; cbn [negb andb].
  - destruct u as [|first others]; [discriminate|].
    unfold latestIs, latestEntry.
    fold (isSuccessTerminal (fold_left later others first)).
    fold (isFailureTerminal (fold_left later others first)).
    destruct (isSuccessTerminal (fold_left later others first)) eqn:S.
    + rewrite (success_not_failure _ S). triple_lia.
    + destruct (isFailureTerminal (fold_left later others first));
        triple_lia.
  - triple_lia.
Qed.

(** The loop over the work units counts them. *)
Lemma countStep_fold (units : list (list LogEntry)) :
  forall a b c,
    fold_left countStep units (a, b, c)
    = (a + countWhere hasStart units,
       b + countWhere (fun u => hasStart u && latestIs isSuccessTerminal u)
                      units,
       c + countWhere (fun u => hasStart u && latestIs isFailureTerminal u)
                      units).
Proof.
  induction units as [|u units IH]; intros a b c.
  - unfold countWhere. simpl. triple_lia.
  - change (fold_left countStep (u :: units) (a, b, c))
      with (fold_left countStep units (countStep (a, b, c) u)).
    rewrite countStep_one, IH, !countWhere_cons.
    triple_lia.
Qed.

(** Every counted unit is completed, failed or neither. *)
Lemma counts_partition (units : list (list LogEntry)) :
  countWhere hasStart units
  = countWhere (fun u => hasStart u && latestIs isSuccessTerminal u) units
    + countWhere (fun u => hasStart u && latestIs isFailureTerminal u) units
    + countWhere (fun u => hasStart u
                           && negb (latestIs isSuccessTerminal u)
                           && negb (latestIs isFailureTerminal u)) units.
Proof.
  induction units as [|u units IH]; [reflexivity|].
  assert (Hu :
    (if hasStart u then 1 else 0)
    = (if hasStart u && latestIs isSuccessTerminal u then 1 else 0)
      + (if hasStart u && latestIs isFailureTerminal u then 1 else 0)
      + (if hasStart u && negb (latestIs isSuccessTerminal u)
            && negb (latestIs isFailureTerminal u) then 1 else 0)).
  { destruct (hasStart u); cbn [andb]; [|reflexivity].
    unfold latestIs. destruct (latestEntry u) as [e|]; [|reflexivity].
    destruct (isSuccessTerminal e) eqn:S.
    - now rewrite (success_not_failure e S).
    - now destruct (isFailureTerminal e). }
  rewrite !countWhere_cons, IH. lia.
Qed.

Lemma later_fold (others : list LogEntry) :
  forall first,
    let r := fold_left later others first in
    (r = first \/ In r others)
    /\ log_seq first <= log_seq r
    /\ (forall x, In x others -> log_seq x <= log_seq r).
Proof.
  induction others as [|y others IH]; intros first; simpl.
  - split; [now left|]. split; [lia|]. intros x [].
  - specialize (IH (later first y)). cbv zeta in IH.
    destruct IH as (Hin & Hle & Hall).
    assert (Hl : (later first y = first \/ later first y = y)
                 /\ log_seq first <= log_seq (later first y)
                 /\ log_seq y <= log_seq (later first y)).
    { unfold later. destruct (log_seq first <? log_seq y) eqn:E.
      - apply Z.ltb_lt in E. split; [now right|]. lia.
      - apply Z.ltb_ge in E. split; [now left|]. lia. }
    destruct Hl as (Hwhich & Hf & Hy).
    split; [|split].
    + destruct Hin as [Hin | Hin]; [|now right; right].
      rewrite Hin. destruct Hwhich as [-> | ->]; [now left | now right; left].
    + lia.
    + intros x [<- | Hx]; [lia | now apply Hall].
Qed.

Lemma latestEntry_greatest (u : list LogEntry) (e : LogEntry) :
  latestEntry u = Some e ->
  In e u /\ (forall x, In x u -> log_seq x <= log_seq e).
Proof.
  destruct u as [|first others]; [discriminate|].
  simpl. intros [= <-].
  destruct (later_fold others first) as (Hin & Hle & Hall).
  split.
  - destruct Hin as [-> | Hin]; [now left | now right].
  - intros x [<- | Hx]; [exact Hle | now apply Hall].
Qed.

(** The record of one phase, in terms of its work units. *)
Lemma phaseRecord_counts (entries : list LogEntry) (n : string) :
  In n (JsMap.keys (groupByPhase entries)) ->
  let r := phaseRecord (groupByPhase entries) n in
  let units := unitsOf (filter (fun e => String.eqb (phase e) n) entries) in
  name r = n
  /\ total r = countWhere hasStart units
  /\ completed r
     = countWhere (fun u => hasStart u && latestIs isSuccessTerminal u) units
  /\ failures r
     = countWhere (fun u => hasStart u && latestIs isFailureTerminal u) units
  /\ inProgress r = Z.max 0 (total r - completed r - failures r)
  /\ percentage r
     = if 0 <? total r
       then Z.min 100
              (Double.round
                 (Double.mulInt (Double.div (completed r) (total r)) 100))
       else 0.
Proof.
  intros Hin. cbv zeta. unfold phaseRecord.
  rewrite (phaseMap_get entries n Hin), groupWorkUnits_values.
  rewrite countStep_fold. simpl. repeat split.
Qed.

Section WithLocale.
Variable localeCompare : string -> string -> Z.

Lemma computePhaseStats_In (entries : list LogEntry) (r : PhaseStats) :
  In r (computePhaseStats localeCompare entries) ->
  exists n,
    In n (JsMap.keys (groupByPhase entries))
    /\ r = phaseRecord (groupByPhase entries) n.
Proof.
  unfold computePhaseStats, sortPhases. intros Hin.
  apply in_map_iff in Hin. destruct Hin as (n & <- & Hn).
  apply stableSort_In in Hn. now exists n.
Qed.

(** C4.  For every event list, every record that [computePhaseStats]
    emits has a percentage (an integer) between 0 and 100, and its
    completed, failures and inProgress counts add up to its total. *)
Theorem phase_stats_bounds (entries : list LogEntry) (r : PhaseStats) :
  In r (computePhaseStats localeCompare entries) ->
  0 <= percentage r <= 100
  /\ completed r + failures r + inProgress r = total r.
Proof.
  intros Hin. apply computePhaseStats_In in Hin.
  destruct Hin as (n & Hn & ->).
  destruct (phaseRecord_counts entries n Hn)
    as (_ & Ht & Hc & Hf & Hi & Hp).
  set (units := unitsOf (filter (fun e => String.eqb (phase e) n) entries))
    in *.
  pose proof (counts_partition units) as Hpart.
  pose proof (countWhere_nonneg
                (fun u => hasStart u && latestIs isSuccessTerminal u) units)
    as Hc0.
  pose proof (countWhere_nonneg
                (fun u => hasStart u && latestIs isFailureTerminal u) units)
    as Hf0.
  pose proof (countWhere_nonneg
                (fun u => hasStart u
                          && negb (latestIs isSuccessTerminal u)
                          && negb (latestIs isFailureTerminal u)) units)
    as Hn0.
  split.
  - rewrite Hp. destruct (0 <? total (phaseRecord (groupByPhase entries) n))
      eqn:E; [|lia].
    apply Z.ltb_lt in E.
    assert (0 <= Double.round
                   (Double.mulInt
                      (Double.div
                         (completed (phaseRecord (groupByPhase entries) n))
                         (total (phaseRecord (groupByPhase entries) n)))
                      100)).
    { apply DoubleProps.percent_nonneg; [|exact E]. rewrite Hc. exact Hc0. }
    lia.
  - rewrite Hi. lia.
Qed.

(** C5.  For every record emitted for a phase, with the work units of
    the phase formed by the key agent|task_id (or agent|log_seq when
    task_id is null): total counts the units that hold a START; completed
    counts those of them whose latest entry by log_seq is a success
    terminal; failures those whose latest entry is a failure terminal;
    inProgress all the other counted units; and the latest entry of a
    unit is one of its entries with the greatest log_seq. *)
Theorem phase_work_unit_counting (entries : list LogEntry) (r : PhaseStats) :
  In r (computePhaseStats localeCompare entries) ->
  let units :=
    unitsOf (filter (fun e => String.eqb (phase e) (name r)) entries) in
  total r = countWhere hasStart units
  /\ completed r
     = countWhere (fun u => hasStart u && latestIs isSuccessTerminal u) units
  /\ failures r
     = countWhere (fun u => hasStart u && latestIs isFailureTerminal u) units
  /\ inProgress r
     = countWhere (fun u => hasStart u
                            && negb (latestIs isSuccessTerminal u)
                            && negb (latestIs isFailureTerminal u)) units
  /\ (forall u e,
         In u units -> latestEntry u = Some e ->
         In e u /\ (forall x, In x u -> log_seq x <= log_seq e)).
Proof.
  intros Hin. apply computePhaseStats_In in Hin.
  destruct Hin as (n & Hn & ->).
  destruct (phaseRecord_counts entries n Hn)
    as (Hname & Ht & Hc & Hf & Hi & _).
  cbv zeta. rewrite Hname.
  set (units := unitsOf (filter (fun e => String.eqb (phase e) n) entries))
    in *.
  pose proof (counts_partition units) as Hpart.
  pose proof (countWhere_nonneg
                (fun u => hasStart u
                          && negb (latestIs isSuccessTerminal u)
                          && negb (latestIs isFailureTerminal u)) units)
    as Hn0.
  repeat split; try assumption.
  - rewrite Hi. lia.
  - now apply (latestEntry_greatest u e).
  - intros x Hx. now apply (latestEntry_greatest u e).
Qed.

End WithLocale.

Lemma phase_stats_bounds_witness :
  let r := mkPhaseStats "implementation" 3 1 1 1 0 33 in
  In r (computePhaseStats codeUnitCompare threeUnitsScenario)
  /\ 0 <= percentage r <= 100
  /\ completed r + failures r + inProgress r = total r.
Proof.
  assert (Hin : In (mkPhaseStats "implementation" 3 1 1 1 0 33)
                   (computePhaseStats codeUnitCompare threeUnitsScenario)).
  { vm_compute. left. reflexivity. }
  split; [exact Hin|].
  exact (phase_stats_bounds codeUnitCompare threeUnitsScenario _ Hin).
Defined.

Lemma phase_work_unit_counting_witness :
  let r := mkPhaseStats "implementation" 3 1 1 1 0 33 in
  let units := unitsOf threeUnitsScenario in
  total r = countWhere hasStart units
  /\ completed r
     = countWhere (fun u => hasStart u && latestIs isSuccessTerminal u) units.
Proof.
  assert (Hin : In (mkPhaseStats "implementation" 3 1 1 1 0 33)
                   (computePhaseStats codeUnitCompare threeUnitsScenario)).
  { vm_compute. left. reflexivity. }
  pose proof (phase_work_unit_counting codeUnitCompare threeUnitsScenario _ Hin)
    as H.
  cbv zeta in H. destruct H as (Ht & Hc & _).
  split; [exact Ht | exact Hc].
Defined.

(** Test TC-013: without task_id each entry is its own work unit. *)
Example lone_entries_are_units :
  computePhaseStats codeUnitCompare
    [ sampleEntry 1 "task-manager" "START" "planning" None None;
      sampleEntry 2 "task-manager" "COMPLETE" "planning" None None ]
  = [mkPhaseStats "planning" 1 0 1 0 0 0].
Proof. vm_compute. reflexivity. Qed.

(** Test TC-011 and property 7: canonical order, unknown phases last. *)
Example sortPhases_canonical :
  sortPhases codeUnitCompare
    ["testing"; "design"; "requirements"; "implementation"; "review"]
  = ["requirements"; "design"; "implementation"; "review"; "testing"].
Proof. vm_compute. reflexivity. Qed.

Example sortPhases_unknown_last :
  sortPhases codeUnitCompare
    ["custom-phase"; "implementation"; "alpha-phase"; "design"]
  = ["design"; "implementation"; "alpha-phase"; "custom-phase"].
Proof. vm_compute. reflexivity. Qed.

End DashboardProps.

(* ================================================================== *)
(** * More about maps *)
(* ================================================================== *)

Section MoreMapFacts.
Context {K : Type} `{Key K}.

Lemma get_set {V} (k k' : K) (v : V) (m : list (K * V)) :
  JsMap.get k (JsMap.set k' v m)
  = if keyb k k' then Some v else JsMap.get k m.
Proof.
  induction m as [|[k0 v0] m IH]; simpl.
  - reflexivity.
  - destruct (keyb k' k0) eqn:E0; simpl.
    + destruct (keyb_spec k' k0) as [->|]; [|discriminate].
      now destruct (keyb k k0).
    + destruct (keyb k k0) eqn:E1; [|exact IH].
      destruct (keyb_spec k k0) as [->|]; [|discriminate].
      rewrite keyb_sym in E0. now rewrite E0.
Qed.

Lemma get_mutate {V} (k k' : K) (f : V -> V) (m : list (K * V)) :
  JsMap.get k (JsMap.mutate k' f m)
  = if keyb k k' then option_map f (JsMap.get k m) else JsMap.get k m.
Proof.
  induction m as [|[k0 v0] m IH]; simpl.
  - now destruct (keyb k k').
  - destruct (keyb k' k0) eqn:E0; simpl.
    + destruct (keyb_spec k' k0) as [->|]; [|discriminate].
      now destruct (keyb k k0).
    + destruct (keyb k k0) eqn:E1; [|exact IH].
      destruct (keyb_spec k k0) as [->|]; [|discriminate].
      rewrite keyb_sym in E0. now rewrite E0.
Qed.

Lemma get_In_keys {V} (k : K) (m : list (K * V)) :
  JsMap.has k m = true <-> In k (JsMap.keys m).
Proof.
  unfold JsMap.has, JsMap.keys. induction m as [|[k0 v0] m IH]; simpl.
  - split; [discriminate | contradiction].
  - destruct (keyb_spec k k0) as [->|Hne].
    + split; auto.
    + rewrite IH. split; [auto|]. intros [E|Hin]; [congruence | exact Hin].
Qed.

Lemma get_mapValues {X Y} (v : X -> Y) (k : K) (m : list (K * list X)) :
  JsMap.get k (mapValues v m) = option_map (map v) (JsMap.get k m).
Proof.
  induction m as [|[k0 l0] m IH]; [reflexivity|]. simpl.
  now destruct (keyb k k0).
Qed.

Lemma set_mapValues {X Y} (v : X -> Y) (k : K) (l : list X)
    (m : list (K * list X)) :
  JsMap.set k (map v l) (mapValues v m) = mapValues v (JsMap.set k l m).
Proof.
  induction m as [|[k0 l0] m IH]; [reflexivity|]. simpl.
  destruct (keyb k k0); simpl; [reflexivity|]. now rewrite IH.
Qed.

Lemma mutate_mapValues {X Y} (v : X -> Y) (k : K) (x : X)
    (m : list (K * list X)) :
  JsMap.mutate k (fun l => l ++ [v x]) (mapValues v m)
  = mapValues v (JsMap.mutate k (fun l => l ++ [x]) m).
Proof.
  induction m as [|[k0 l0] m IH]; [reflexivity|]. simpl.
  destruct (keyb k k0); simpl.
  - now rewrite map_app.
  - now rewrite IH.
Qed.

Lemma push_mapValues {X Y} (v : X -> Y) (k : K) (x : X)
    (m : list (K * list X)) :
  JsMap.push k (v x) (mapValues v m) = mapValues v (JsMap.push k x m).
Proof.
  unfold JsMap.push, JsMap.has. rewrite get_mapValues.
  destruct (JsMap.get k m); simpl.
  - apply mutate_mapValues.
  - change (@nil Y) with (map v (@nil X)).
    rewrite set_mapValues. apply mutate_mapValues.
Qed.

(** A loop that pushes [v x] under the key [key x]. *)
Lemma foldPush_grouped {X Y} (key : X -> K) (v : X -> Y) (l : list X) :
  fold_left (fun m x => JsMap.push (key x) (v x) m) l []
  = mapValues v (grouped key l).
Proof.
  induction l as [|x l IH] using rev_ind; [reflexivity|].
  rewrite fold_left_app. simpl. rewrite IH, push_mapValues.
  now rewrite push_grouped.
Qed.

Lemma nonEmpty_filter {X} (key : X -> K) (l : list X) (k : K) :
  (if JsSet.has k (map key l)
   then Some (filter (fun x => keyb (key x) k) l) else None)
  = nonEmpty (filter (fun x => keyb (key x) k) l).
Proof.
  destruct (JsSet.has k (map key l)) eqn:E.
  - apply set_has_In in E. apply in_map_iff in E.
    destruct E as (x & Hx & Hin).
    assert (Hf : In x (filter (fun x => keyb (key x) k) l)).
    { apply filter_In. split; [exact Hin|]. subst k. apply keyb_refl. }
    destruct (filter (fun x => keyb (key x) k) l); [contradiction|reflexivity].
  - apply set_has_not_In in E.
    now rewrite (filter_key_absent key l k E).
Qed.

(** Looking a key up in a grouping. *)
Lemma grouped_lookup {X} (key : X -> K) (l : list X) (k : K) :
  JsMap.get k (grouped key l) = nonEmpty (filter (fun x => keyb (key x) k) l).
Proof. rewrite grouped_get. apply nonEmpty_filter. Qed.

End MoreMapFacts.

(* ================================================================== *)
(** * The index builder: what each map holds *)
(* ================================================================== *)

Module IndexerMore.
Import Indexer.

Lemma fold_entryMap (l : list LogEntry) :
  forall idx,
    entryMap (fold_left (fun idx e => indexEntry e idx) l idx)
    = fold_left (fun m e => JsMap.set (log_seq e) e m) l (entryMap idx).
Proof. induction l as [|e l IH]; intros idx; [reflexivity|]. simpl. now rewrite IH. Qed.

Lemma fold_agentIndex (l : list LogEntry) :
  forall idx,
    agentIndex (fold_left (fun idx e => indexEntry e idx) l idx)
    = fold_left (fun m e => JsMap.push (agent e) e m) l (agentIndex idx).
Proof. induction l as [|e l IH]; intros idx; [reflexivity|]. simpl. now rewrite IH. Qed.

Lemma fold_workSeqIndex (l : list LogEntry) :
  forall idx,
    workSeqIndex (fold_left (fun idx e => indexEntry e idx) l idx)
    = fold_left (fun m e => JsMap.push (work_seq e) e m) l (workSeqIndex idx).
Proof. induction l as [|e l IH]; intros idx; [reflexivity|]. simpl. now rewrite IH. Qed.

Lemma fold_phaseIndex (l : list LogEntry) :
  forall idx,
    phaseIndex (fold_left (fun idx e => indexEntry e idx) l idx)
    = fold_left
        (fun m e =>
           if truthyString (phase e) then JsMap.push (phase e) e m else m)
        l (phaseIndex idx).
Proof. induction l as [|e l IH]; intros idx; [reflexivity|]. simpl. now rewrite IH. Qed.

Lemma fold_parentChildMap (l : list LogEntry) :
  forall idx,
    parentChildMap (fold_left (fun idx e => indexEntry e idx) l idx)
    = fold_left
        (fun m e =>
           match parent_log_seq e with
           | Some parent => JsMap.push parent (log_seq e) m
           | None => m
           end)
        l (parentChildMap idx).
Proof. induction l as [|e l IH]; intros idx; [reflexivity|]. simpl. now rewrite IH. Qed.

Lemma NoDup_map_eq {A B} (f : A -> B) (l : list A) (a b : A) :
  NoDup (map f l) -> In a l -> In b l -> f a = f b -> a = b.
Proof.
  induction l as [|x l IH]; simpl; [contradiction|].
  intros Hnd Ha Hb E. inversion Hnd as [|? ? Hx Hnd']; subst.
  destruct Ha as [->|Ha], Hb as [->|Hb]; auto.
  - exfalso. apply Hx. rewrite E. now apply in_map.
  - exfalso. apply Hx. rewrite <- E. now apply in_map.
Qed.

Lemma entryMap_find (l : list LogEntry) (k : Z) :
  JsMap.get k (entryMap (buildIndices l))
  = find (fun e => log_seq e =? k) (rev l).
Proof.
  unfold buildIndices. rewrite fold_entryMap. simpl.
  induction l as [|e l IH] using rev_ind; [reflexivity|].
  rewrite fold_left_app, rev_app_distr. simpl. rewrite get_set.
  change (@keyb Z Key_Z k (log_seq e)) with (k =? log_seq e).
  rewrite (Z.eqb_sym (log_seq e) k).
  destruct (k =? log_seq e); [reflexivity | exact IH].
Qed.

(** X1.  Looking a log_seq up in the entry map of [buildIndices] gives the
    last entry of the list that carries it, and nothing when no entry
    does; when the log_seq values of the list are distinct, every entry is
    found under its own log_seq. *)
Theorem entryMap_lookup (l : list LogEntry) :
  (forall k,
      JsMap.get k (entryMap (buildIndices l))
      = find (fun e => log_seq e =? k) (rev l))
  /\ (forall k,
         JsMap.get k (entryMap (buildIndices l)) = None
         <-> ~ In k (map log_seq l))
  /\ (NoDup (map log_seq l) ->
      forall e, In e l ->
                JsMap.get (log_seq e) (entryMap (buildIndices l)) = Some e).
Proof.
  split; [apply entryMap_find|]. split.
  - intros k. rewrite entryMap_find. split.
    + intros Hnone Hin. apply in_map_iff in Hin. destruct Hin as (e & <- & Hin).
      apply in_rev in Hin. pose proof (find_none _ _ Hnone e Hin) as C.
      simpl in C. rewrite Z.eqb_refl in C. discriminate C.
    + intros Hn. destruct (find _ (rev l)) as [e|] eqn:F; [|reflexivity].
      apply find_some in F. destruct F as [Hin Hk].
      exfalso. apply Hn. apply Z.eqb_eq in Hk. subst k.
      apply in_map. now apply in_rev.
  - intros Hnd e Hin. rewrite entryMap_find.
    destruct (find (fun e0 => log_seq e0 =? log_seq e) (rev l)) as [e'|] eqn:F.
    + apply find_some in F. destruct F as [Hin' Hk]. apply Z.eqb_eq in Hk.
      f_equal. apply (NoDup_map_eq log_seq l); auto. now apply in_rev.
    + apply in_rev in Hin. pose proof (find_none _ _ F e Hin) as C.
      simpl in C. rewrite Z.eqb_refl in C. discriminate C.
Qed.

Lemma entryMap_lookup_witness :
  JsMap.get 2 (entryMap (buildIndices indexScenario))
  = Some (fileEntry 2 "dev2" [] ["src/a.ts"] ["R-1 through R-3"] (Some 1)).
Proof.
  assert (Hnd : NoDup (map log_seq indexScenario)).
  { simpl. repeat constructor; simpl; intuition discriminate. }
  exact (proj2 (proj2 (entryMap_lookup indexScenario)) Hnd
           (fileEntry 2 "dev2" [] ["src/a.ts"] ["R-1 through R-3"] (Some 1))
           (or_intror (or_introl eq_refl))).
Defined.

Lemma phaseIndex_grouped (l : list LogEntry) :
  phaseIndex (buildIndices l)
  = grouped phase (filter (fun e => truthyString (phase e)) l).
Proof.
  unfold buildIndices. rewrite fold_phaseIndex. simpl.
  apply DashboardProps.groupByPhase_grouped.
Qed.

(** X2.  In the result of [buildIndices] the agent index, the work_seq
    index and the phase index map a key to exactly the entries that carry
    it, in arrival order, and have no key without entries; their keys come
    in order of first appearance; the phase index leaves out the entries
    whose phase is empty. *)
Theorem key_indices_lookup (l : list LogEntry) :
  let idx := buildIndices l in
  (forall a, JsMap.get a (agentIndex idx)
             = nonEmpty (filter (fun e => String.eqb (agent e) a) l))
  /\ (forall w, JsMap.get w (workSeqIndex idx)
                = nonEmpty (filter (fun e => String.eqb (work_seq e) w) l))
  /\ (forall p, JsMap.get p (phaseIndex idx)
                = if truthyString p
                  then nonEmpty (filter (fun e => String.eqb (phase e) p) l)
                  else None)
  /\ JsMap.keys (agentIndex idx) = distinct (map agent l)
  /\ JsMap.keys (workSeqIndex idx) = distinct (map work_seq l)
  /\ JsMap.keys (phaseIndex idx)
     = distinct (filter truthyString (map phase l)).
Proof.
  cbv zeta.
  assert (Ha : agentIndex (buildIndices l) = grouped agent l).
  { unfold buildIndices. rewrite fold_agentIndex. simpl.
    apply (groupBy_grouped agent). }
  assert (Hw : workSeqIndex (buildIndices l) = grouped work_seq l).
  { unfold buildIndices. rewrite fold_workSeqIndex. simpl.
    apply (groupBy_grouped work_seq). }
  rewrite Ha, Hw, phaseIndex_grouped.
  split; [|split; [|split; [|split; [|split]]]].
  - intros a. exact (grouped_lookup agent l a).
  - intros w. exact (grouped_lookup work_seq l w).
  - intros p. rewrite (grouped_lookup phase).
    change (fun x : LogEntry => keyb (phase x) p)
      with (fun x : LogEntry => String.eqb (phase x) p).
    destruct (truthyString p) eqn:Hp.
    + f_equal. apply DashboardProps.filter_filter_implied.
      intros x Hx. apply String.eqb_eq in Hx. now rewrite Hx.
    + destruct p; [|discriminate].
      assert (E : filter (fun x : LogEntry => String.eqb (phase x) "")
                         (filter (fun e => truthyString (phase e)) l) = []).
      { clear Ha Hw. induction l as [|e l IH]; [reflexivity|]. simpl.
        destruct (truthyString (phase e)) eqn:T; [|exact IH]. simpl.
        destruct (String.eqb_spec (phase e) "") as [E|_]; [|exact IH].
        rewrite E in T. discriminate. }
      now rewrite E.
  - apply grouped_keys.
  - apply grouped_keys.
  - rewrite grouped_keys. f_equal. clear Ha Hw.
    induction l as [|e l IH]; [reflexivity|]. simpl.
    destruct (truthyString (phase e)); simpl; now rewrite IH.
Qed.

Lemma parentChildMap_get (l : list LogEntry) (p : Z) :
  JsMap.get p (parentChildMap (buildIndices l))
  = nonEmpty
      (map log_seq
           (filter (fun e => strictEqOptNumber (parent_log_seq e) (Some p)) l)).
Proof.
  unfold buildIndices. rewrite fold_parentChildMap. simpl.
  assert (E : forall m,
    fold_left
      (fun m e =>
         match parent_log_seq e with
         | Some parent => JsMap.push parent (log_seq e) m
         | None => m
         end) l m
    = fold_left
        (fun m x => JsMap.push (fst x) (snd x) m)
        (flat_map (fun e => match parent_log_seq e with
                            | Some parent => [(parent, log_seq e)]
                            | None => []
                            end) l) m).
  { induction l as [|e l IH]; intros m; [reflexivity|]. simpl.
    rewrite fold_left_app, IH.
    now destruct (parent_log_seq e). }
  rewrite E, (foldPush_grouped fst snd), get_mapValues, grouped_lookup.
  set (pairs := flat_map _ l).
  assert (F : map snd (filter (fun x : Z * Z => keyb (fst x) p) pairs)
              = map log_seq
                  (filter (fun e => strictEqOptNumber (parent_log_seq e) (Some p))
                          l)).
  { unfold pairs. clear E pairs. induction l as [|e l IH]; [reflexivity|].
    cbn [flat_map filter]. rewrite filter_app, map_app, IH.
    destruct (parent_log_seq e) as [q|]; simpl; [|reflexivity].
    now destruct (q =? p). }
  rewrite <- F.
  now destruct (filter (fun x : Z * Z => keyb (fst x) p) pairs).
Qed.

(** X3.  The parent-children map of [buildIndices] gives, for a log_seq,
    the log_seq values of the entries that name it as their parent, in
    arrival order, and has no key without children. *)
Theorem parentChildMap_lookup (l : list LogEntry) (p : Z) :
  JsMap.get p (parentChildMap (buildIndices l))
  = nonEmpty
      (map log_seq
           (filter (fun e => strictEqOptNumber (parent_log_seq e) (Some p)) l)).
Proof. apply parentChildMap_get. Qed.

Lemma fold_left_map {A B C} (f : A -> C -> A) (g : B -> C) (l : list B) :
  forall a, fold_left f (map g l) a = fold_left (fun a x => f a (g x)) l a.
Proof. induction l as [|x l IH]; intros a; [reflexivity|]. simpl. apply IH. Qed.

Lemma fold_fileFrequencyMap (l : list LogEntry) :
  forall idx,
    fileFrequencyMap (fold_left (fun idx e => indexEntry e idx) l idx)
    = fold_left
        (fun m x => updateFileStats m (touchPath x) (touchAgent x) (snd x))
        (fileTouches l) (fileFrequencyMap idx).
Proof.
  induction l as [|e l IH]; intros idx; [reflexivity|].
  cbn [fold_left fileTouches flat_map]. rewrite IH.
  rewrite !fold_left_app, !fold_left_map. reflexivity.
Qed.

Lemma get_updateFileStats (m : list (string * FileStats))
    (f a : string) (t : ChangeType) (p : string) :
  JsMap.get p (updateFileStats m f a t)
  = if String.eqb p f
    then Some (touch a t (match JsMap.get f m with
                          | Some st => st
                          | None => freshStats f
                          end))
    else JsMap.get p m.
Proof.
  unfold updateFileStats, JsMap.has.
  change (String.eqb p f) with (keyb p f).
  destruct (JsMap.get f m) as [st|] eqn:G.
  - rewrite get_mutate. destruct (keyb_spec p f) as [->|]; [|reflexivity].
    now rewrite G.
  - rewrite get_mutate, get_set.
    destruct (keyb_spec p f) as [->|]; reflexivity.
Qed.

Lemma countWhere_app {A} (P : A -> bool) (l1 l2 : list A) :
  countWhere P (l1 ++ l2) = countWhere P l1 + countWhere P l2.
Proof.
  unfold countWhere. rewrite filter_app, length_app. lia.
Qed.

Lemma touch_statsOf (p a : string) (t : ChangeType)
    (ts : list (string * string * ChangeType)) :
  touch a t (statsOf p ts) = statsOf p (ts ++ [(p, a, t)]).
Proof.
  unfold touch, statsOf. cbn [path directory createCount modifyCount agents].
  rewrite !countWhere_app, map_app. cbn [map touchAgent fst snd].
  rewrite distinct_snoc.
  assert (Hc : countWhere isCreate [(p, a, t)]
               = match t with create => 1 | modify => 0 end)
    by now destruct t.
  assert (Hm : countWhere (fun x => negb (isCreate x)) [(p, a, t)]
               = match t with create => 0 | modify => 1 end)
    by now destruct t.
  rewrite Hc, Hm.
  destruct t; rewrite ?Z.add_0_r; reflexivity.
Qed.

Lemma fileStats_get (l : list LogEntry) (p : string) :
  JsMap.get p (fileFrequencyMap (buildIndices l))
  = option_map (statsOf p)
      (nonEmpty (filter (fun x => String.eqb (touchPath x) p) (fileTouches l))).
Proof.
  unfold buildIndices. rewrite fold_fileFrequencyMap. simpl fileFrequencyMap.
  generalize (fileTouches l). clear l. intros T.
  induction T as [|[[f a] t] T IH] using rev_ind; [reflexivity|].
  rewrite fold_left_app. cbn [fold_left touchPath touchAgent fst snd].
  rewrite get_updateFileStats, filter_app.
  cbn [filter touchPath fst]. rewrite (String.eqb_sym f p).
  destruct (String.eqb_spec p f) as [->|Hne].
  - rewrite IH.
    assert (E : match option_map (statsOf f)
                        (nonEmpty (filter (fun x => String.eqb (touchPath x) f) T))
                with
                | Some st => st
                | None => freshStats f
                end
                = statsOf f (filter (fun x => String.eqb (touchPath x) f) T)).
    { now destruct (filter (fun x => String.eqb (touchPath x) f) T). }
    rewrite E, touch_statsOf.
    now destruct (filter (fun x => String.eqb (touchPath x) f) T).
  - now rewrite app_nil_r.
Qed.

(** X4.  The file statistics of [buildIndices] hold, for a path, the
    number of times entries list it as created and as modified, their sum as
    total, the agents that touched it in order of first appearance, and the
    churn flag set exactly when both counts are positive; a path that no
    entry lists has no statistics. *)
Theorem fileStats_lookup (l : list LogEntry) (p : string) :
  JsMap.get p (fileFrequencyMap (buildIndices l))
  = option_map (statsOf p)
      (nonEmpty (filter (fun x => String.eqb (touchPath x) p) (fileTouches l))).
Proof. apply fileStats_get. Qed.

(** Test TS-002-04 and TS-002-05. *)
Example fileStats_churn :
  JsMap.get "src/a.ts" (fileFrequencyMap (buildIndices indexScenario))
  = Some (mkFileStats "src/a.ts" "src" 1 2 3 ["dev1"; "dev2"] true).
Proof. vm_compute. reflexivity. Qed.

Lemma fold_requirementIndex (l : list LogEntry) :
  forall idx,
    requirementIndex (fold_left (fun idx e => indexEntry e idx) l idx)
    = fold_left (fun m x => JsMap.push (fst x) (snd x) m)
                (requirementPairs l) (requirementIndex idx).
Proof.
  induction l as [|e l IH]; intros idx; [reflexivity|].
  cbn [fold_left requirementPairs flat_map]. rewrite IH.
  rewrite fold_left_app, fold_left_map. f_equal.
  cbn [requirementIndex indexEntry].
  destruct (requirements e) as [|r rs] eqn:R; [reflexivity|].
  reflexivity.
Qed.

Lemma requirementIndex_get (l : list LogEntry) (r : string) :
  JsMap.get r (requirementIndex (buildIndices l))
  = nonEmpty
      (map snd (filter (fun x => String.eqb (fst x) r) (requirementPairs l))).
Proof.
  unfold buildIndices. rewrite fold_requirementIndex. simpl requirementIndex.
  rewrite (foldPush_grouped fst snd), get_mapValues, grouped_lookup.
  change (fun x : string * RequirementTrace => keyb (fst x) r)
    with (fun x : string * RequirementTrace => String.eqb (fst x) r).
  now destruct (filter (fun x => String.eqb (fst x) r) (requirementPairs l)).
Qed.

(** X5.  The requirement index of [buildIndices] gives, for a requirement
    id, one trace for each time an entry lists it after range expansion, in
    arrival order; each trace holds the entry with its phase and action;
    an id that no entry lists has no key. *)
Theorem requirementIndex_lookup (l : list LogEntry) (r : string) :
  JsMap.get r (requirementIndex (buildIndices l))
  = nonEmpty
      (map snd (filter (fun x => String.eqb (fst x) r) (requirementPairs l)))
  /\ (forall traces t,
         JsMap.get r (requirementIndex (buildIndices l)) = Some traces ->
         In t traces ->
         In (trace_entry t) l
         /\ trace_phase t = phase (trace_entry t)
         /\ trace_action t = action (trace_entry t)
         /\ In r (Parser.expandAllRequirements (requirements (trace_entry t)))).
Proof.
  split; [apply requirementIndex_get|].
  intros traces t Hget Hin. rewrite requirementIndex_get in Hget.
  assert (Ht : In t (map snd (filter (fun x => String.eqb (fst x) r)
                                     (requirementPairs l)))).
  { destruct (map snd _); [discriminate|]. now injection Hget as ->. }
  apply in_map_iff in Ht. destruct Ht as ([r' t'] & Heq & Hf).
  simpl in Heq. subst t'. apply filter_In in Hf. destruct Hf as [Hp Hr].
  simpl in Hr. apply String.eqb_eq in Hr. subst r'.
  unfold requirementPairs in Hp. apply in_flat_map in Hp.
  destruct Hp as (e & He & Hp). apply in_map_iff in Hp.
  destruct Hp as (r0 & Heq & Hr0). injection Heq as -> <-.
  simpl. auto.
Qed.

Lemma requirementIndex_lookup_witness :
  map (fun t => log_seq (trace_entry t))
      (match JsMap.get "R-2" (requirementIndex (buildIndices indexScenario)) with
       | Some traces => traces
       | None => []
       end) = [2; 3]
  /\ forall t,
       In t (match JsMap.get "R-2"
                     (requirementIndex (buildIndices indexScenario)) with
             | Some traces => traces
             | None => []
             end) ->
       trace_phase t = phase (trace_entry t).
Proof.
  split; [vm_compute; reflexivity|].
  destruct (JsMap.get "R-2" (requirementIndex (buildIndices indexScenario)))
    as [traces|] eqn:G; [|intros t []].
  intros t Hin.
  exact (proj1 (proj2 (proj2 (requirementIndex_lookup indexScenario "R-2")
                         traces t G Hin))).
Defined.

(** The order of strings by code units. *)
Lemma string_compare_refl (a : string) : String.compare a a = Eq.
Proof.
  pose proof (String.compare_antisym a a) as H.
  destruct (String.compare a a); simpl in H; congruence.
Qed.

Lemma string_leb_refl (a : string) : String.leb a a = true.
Proof. unfold String.leb. now rewrite string_compare_refl. Qed.

Lemma string_leb_cases (a b : string) :
  String.leb a b = true <-> a = b \/ String_as_OT.lt a b.
Proof.
  unfold String.leb. split.
  - destruct (String.compare a b) eqn:C; try discriminate; intros _.
    + left. now apply String.compare_eq_iff.
    + right. now apply String_as_OT.cmp_lt.
  - intros [->|Hlt].
    + now rewrite string_compare_refl.
    + apply String_as_OT.cmp_lt in Hlt. unfold String_as_OT.cmp in Hlt.
      now rewrite Hlt.
Qed.

Lemma string_leb_trans (a b c : string) :
  String.leb a b = true -> String.leb b c = true -> String.leb a c = true.
Proof.
  rewrite !string_leb_cases. intros [->|Hab] [->|Hbc]; auto.
  right. eapply String_as_OT.lt_trans; eauto.
Qed.

Lemma string_ltb_leb (a b : string) :
  String.ltb a b = true -> String.leb a b = true.
Proof. unfold String.ltb, String.leb. now destruct (String.compare a b). Qed.

Lemma string_not_ltb_leb (a b : string) :
  String.ltb a b = false -> String.leb b a = true.
Proof.
  unfold String.ltb, String.leb. rewrite (String.compare_antisym b a).
  now destruct (String.compare a b).
Qed.

(** What the loop of [computeTimestampRange] keeps. *)
Lemma timestampRange_fold (l : list LogEntry) :
  forall lo hi,
    let r := fold_left rangeStep l (lo, hi) in
    (fst r = lo \/ In (fst r) (map timestamp l))
    /\ (snd r = hi \/ In (snd r) (map timestamp l))
    /\ String.leb (fst r) lo = true /\ String.leb hi (snd r) = true
    /\ (forall e, In e l ->
                  String.leb (fst r) (timestamp e) = true
                  /\ String.leb (timestamp e) (snd r) = true).
Proof.
  induction l as [|e l IH]; intros lo hi.
  - simpl. repeat split; auto using string_leb_refl; contradiction.
  - cbn [fold_left rangeStep].
    set (lo' := if String.ltb (timestamp e) lo then timestamp e else lo).
    set (hi' := if String.ltb hi (timestamp e) then timestamp e else hi).
    specialize (IH lo' hi'). cbv zeta in IH |- *.
    destruct IH as (Hlo & Hhi & Hle & Hge & Hall).
    assert (Hlo' : (lo' = lo \/ lo' = timestamp e)
                   /\ String.leb lo' lo = true
                   /\ String.leb lo' (timestamp e) = true).
    { unfold lo'. destruct (String.ltb (timestamp e) lo) eqn:E.
      - repeat split; auto using string_leb_refl, string_ltb_leb.
      - repeat split; auto using string_leb_refl, string_not_ltb_leb. }
    assert (Hhi' : (hi' = hi \/ hi' = timestamp e)
                   /\ String.leb hi hi' = true
                   /\ String.leb (timestamp e) hi' = true).
    { unfold hi'. destruct (String.ltb hi (timestamp e)) eqn:E.
      - repeat split; auto using string_leb_refl, string_ltb_leb.
      - repeat split; auto using string_leb_refl, string_not_ltb_leb. }
    destruct Hlo' as (Hl1 & Hl2 & Hl3). destruct Hhi' as (Hh1 & Hh2 & Hh3).
    split; [|split; [|split; [|split]]].
    + destruct Hlo as [->|Hin]; [|right; now right].
      destruct Hl1 as [->| ->]; [now left | right; now left].
    + destruct Hhi as [->|Hin]; [|right; now right].
      destruct Hh1 as [->| ->]; [now left | right; now left].
    + eapply string_leb_trans; eauto.
    + eapply string_leb_trans; eauto.
    + intros x [<-|Hx].
      * split; eapply string_leb_trans; eauto.
      * now apply Hall.
Qed.

(** X6.  [computeTimestampRange] returns null exactly for the empty list;
    otherwise earliest and latest are timestamps of entries of the list,
    and every timestamp of the list lies between them in the order of
    strings by code units. *)
Theorem computeTimestampRange_bounds (l : list LogEntry) :
  (computeTimestampRange l = None <-> l = [])
  /\ (forall earliest latest,
         computeTimestampRange l = Some (earliest, latest) ->
         In earliest (map timestamp l) /\ In latest (map timestamp l)
         /\ (forall e, In e l ->
                       String.leb earliest (timestamp e) = true
                       /\ String.leb (timestamp e) latest = true)).
Proof.
  split.
  - destruct l; simpl; split; intros; congruence.
  - intros earliest latest Hr. destruct l as [|first rest]; [discriminate|].
    unfold computeTimestampRange in Hr.
    assert (E : fold_left rangeStep (first :: rest)
                          (timestamp first, timestamp first)
                = (earliest, latest)) by congruence.
    pose proof (timestampRange_fold (first :: rest)
                  (timestamp first) (timestamp first)) as H.
    cbv zeta in H. rewrite E in H. cbn [fst snd] in H.
    destruct H as (Hlo & Hhi & _ & _ & Hall).
    repeat split.
    + destruct Hlo as [->|Hin]; [now left | exact Hin].
    + destruct Hhi as [->|Hin]; [now left | exact Hin].
    + now apply Hall.
    + now apply Hall.
Qed.

Lemma computeTimestampRange_bounds_witness :
  In "2026-01-01T00:00:00Z" (map timestamp timestampScenario)
  /\ In "2026-02-05T00:00:00Z" (map timestamp timestampScenario)
  /\ (forall e, In e timestampScenario ->
                String.leb "2026-01-01T00:00:00Z" (timestamp e) = true
                /\ String.leb (timestamp e) "2026-02-05T00:00:00Z" = true).
Proof.
  exact (proj2 (computeTimestampRange_bounds timestampScenario)
           "2026-01-01T00:00:00Z" "2026-02-05T00:00:00Z" eq_refl).
Defined.

(** ** The directory of a path *)

Lemma chars_append (a b : string) :
  JsString.chars (a ++ b)%string = JsString.chars a ++ JsString.chars b.
Proof.
  unfold JsString.chars. induction a as [|c a IH]; [reflexivity|].
  simpl. now rewrite IH.
Qed.

Lemma str_chars (a : string) : JsString.str (JsString.chars a) = a.
Proof. apply string_of_list_ascii_of_string. Qed.

Lemma lastIndexOfSlash_app (a rest : list ascii) :
  forall i found,
    JsString.lastIndexOfSlash i (a ++ rest) found
    = JsString.lastIndexOfSlash (i + List.length a) rest
        (JsString.lastIndexOfSlash i a found).
Proof.
  induction a as [|c a IH]; intros i found; simpl.
  - now rewrite Nat.add_0_r.
  - rewrite IH. f_equal. lia.
Qed.

Lemma lastIndexOfSlash_none (s : list ascii) :
  forallb (fun c => negb (JsString.code c =? 47)%N) s = true ->
  forall i found, JsString.lastIndexOfSlash i s found = found.
Proof.
  induction s as [|c s IH]; intros Hs i found; [reflexivity|].
  simpl in Hs. apply andb_prop in Hs. destruct Hs as [Hc Hs].
  simpl. apply negb_true_iff in Hc. rewrite Hc. now apply IH.
Qed.

Lemma directoryOf_nonempty (p : string) : truthyString (directoryOf p) = true.
Proof.
  unfold directoryOf.
  destruct (truthyString
              match JsString.lastIndexOfSlash 0 (JsString.chars p) None with
              | Some i => JsString.substring0 i p
              | None => ""%string
              end) eqn:E; [exact E | reflexivity].
Qed.

Lemma directoryOf_plain (f : string) :
  hasNoSlash f = true -> directoryOf f = "/"%string.
Proof.
  intros Hf. unfold directoryOf.
  now rewrite (lastIndexOfSlash_none _ Hf).
Qed.

Lemma directoryOf_split (d f : string) :
  hasNoSlash f = true ->
  directoryOf (d ++ "/" ++ f)%string = if truthyString d then d else "/"%string.
Proof.
  intros Hf. unfold directoryOf.
  rewrite !chars_append. rewrite lastIndexOfSlash_app.
  change (JsString.chars "/") with ["/"%char]. cbn [app].
  cbn [JsString.lastIndexOfSlash].
  change (JsString.code "/" =? 47)%N with true. cbv iota.
  rewrite (lastIndexOfSlash_none _ Hf). cbn [Nat.add].
  unfold JsString.substring0. rewrite !chars_append.
  rewrite firstn_app, Nat.sub_diag, firstn_all. cbn [firstn].
  rewrite app_nil_r, str_chars. reflexivity.
Qed.

(** X7.  The directory that [updateFileStats] derives from a path is never
    the empty string; it is ["/"] for a path without a slash and for a path
    whose only slash is the first character, and otherwise the part of the
    path before its last slash. *)
Theorem directoryOf_spec :
  (forall p, truthyString (directoryOf p) = true)
  /\ (forall f, hasNoSlash f = true -> directoryOf f = "/"%string)
  /\ (forall d f,
         hasNoSlash f = true ->
         directoryOf (d ++ "/" ++ f)%string
         = if truthyString d then d else "/"%string).
Proof.
  split; [apply directoryOf_nonempty|].
  split; [apply directoryOf_plain | apply directoryOf_split].
Qed.

Lemma directoryOf_spec_witness :
  directoryOf "src/client/app.ts" = "src/client"%string
  /\ directoryOf "/etc" = "/"%string
  /\ directoryOf "README.md" = "/"%string.
Proof.
  split; [|split].
  - exact (proj2 (proj2 directoryOf_spec) "src/client" "app.ts" eq_refl).
  - exact (proj2 (proj2 directoryOf_spec) "" "etc" eq_refl).
  - exact (proj1 (proj2 directoryOf_spec) "README.md" eq_refl).
Defined.

(** ** Incremental updates only add *)

Lemma nonEmpty_app {A} (x y es : list A) :
  nonEmpty x = Some es -> nonEmpty (x ++ y) = Some (es ++ y).
Proof. destruct x; [discriminate|]. now intros [= <-]. Qed.

Lemma agentIndex_get (l : list LogEntry) (a : string) :
  JsMap.get a (agentIndex (buildIndices l))
  = nonEmpty (filter (fun e => String.eqb (agent e) a) l).
Proof.
  unfold buildIndices. rewrite fold_agentIndex. simpl agentIndex.
  pose proof (groupBy_grouped agent l) as G. unfold groupBy in G. rewrite G.
  exact (grouped_lookup agent l a).
Qed.

Lemma workSeqIndex_get (l : list LogEntry) (w : string) :
  JsMap.get w (workSeqIndex (buildIndices l))
  = nonEmpty (filter (fun e => String.eqb (work_seq e) w) l).
Proof.
  unfold buildIndices. rewrite fold_workSeqIndex. simpl workSeqIndex.
  pose proof (groupBy_grouped work_seq l) as G. unfold groupBy in G. rewrite G.
  exact (grouped_lookup work_seq l w).
Qed.

Lemma phaseIndex_get (l : list LogEntry) (p : string) :
  JsMap.get p (phaseIndex (buildIndices l))
  = nonEmpty (filter (fun e => truthyString (phase e) && String.eqb (phase e) p) l).
Proof.
  rewrite phaseIndex_grouped, (grouped_lookup phase).
  change (fun x : LogEntry => keyb (phase x) p)
    with (fun x : LogEntry => String.eqb (phase x) p).
  f_equal. induction l as [|e l IH]; [reflexivity|]. simpl.
  destruct (truthyString (phase e)); simpl; now rewrite IH.
Qed.

Lemma entryMap_has (l : list LogEntry) (k : Z) :
  JsMap.has k (entryMap (buildIndices l)) = true <-> In k (map log_seq l).
Proof.
  unfold JsMap.has. rewrite entryMap_find. split.
  - destruct (find _ (rev l)) as [e|] eqn:F; [|discriminate]. intros _.
    apply find_some in F. destruct F as [Hin Hk]. apply Z.eqb_eq in Hk.
    subst k. apply in_map. now apply in_rev.
  - intros Hin. apply in_map_iff in Hin. destruct Hin as (e & <- & Hin).
    destruct (find _ (rev l)) as [e'|] eqn:F; [reflexivity|].
    apply in_rev in Hin. pose proof (find_none _ _ F e Hin) as C.
    simpl in C. rewrite Z.eqb_refl in C. discriminate C.
Qed.

Lemma update_after_build (A B : list LogEntry) :
  updateIndicesIncremental (buildIndices A) B = buildIndices (A ++ B).
Proof.
  unfold updateIndicesIncremental, buildIndices. now rewrite fold_left_app.
Qed.

(** X8.  [updateIndicesIncremental] only adds to what [buildIndices]
    made: every list found under a key of the agent, work_seq, phase,
    parent-children or requirement index is still found there, extended at
    its end; every log_seq of the entry map is still a key; and for every
    file the create and modify counts do not decrease and a churn flag that
    was set stays set. *)
Theorem incremental_update_additive (A B : list LogEntry) :
  let before := buildIndices A in
  let after := updateIndicesIncremental before B in
  (forall a es, JsMap.get a (agentIndex before) = Some es ->
                exists more, JsMap.get a (agentIndex after) = Some (es ++ more))
  /\ (forall w es, JsMap.get w (workSeqIndex before) = Some es ->
                   exists more,
                     JsMap.get w (workSeqIndex after) = Some (es ++ more))
  /\ (forall p es, JsMap.get p (phaseIndex before) = Some es ->
                   exists more,
                     JsMap.get p (phaseIndex after) = Some (es ++ more))
  /\ (forall p cs, JsMap.get p (parentChildMap before) = Some cs ->
                   exists more,
                     JsMap.get p (parentChildMap after) = Some (cs ++ more))
  /\ (forall r ts, JsMap.get r (requirementIndex before) = Some ts ->
                   exists more,
                     JsMap.get r (requirementIndex after) = Some (ts ++ more))
  /\ (forall k, JsMap.has k (entryMap before) = true ->
                JsMap.has k (entryMap after) = true)
  /\ (forall p st,
         JsMap.get p (fileFrequencyMap before) = Some st ->
         exists st',
           JsMap.get p (fileFrequencyMap after) = Some st'
           /\ createCount st <= createCount st'
           /\ modifyCount st <= modifyCount st'
           /\ (isChurn st = true -> isChurn st' = true)).
Proof.
  cbv zeta. rewrite update_after_build.
  split; [|split; [|split; [|split; [|split; [|split]]]]].
  - intros a es. rewrite !agentIndex_get, filter_app. intros E.
    eexists. now apply nonEmpty_app.
  - intros w es. rewrite !workSeqIndex_get, filter_app. intros E.
    eexists. now apply nonEmpty_app.
  - intros p es. rewrite !phaseIndex_get, filter_app. intros E.
    eexists. now apply nonEmpty_app.
  - intros p cs. rewrite !parentChildMap_get, filter_app, map_app. intros E.
    eexists. now apply nonEmpty_app.
  - intros r ts. rewrite !requirementIndex_get. unfold requirementPairs.
    rewrite flat_map_app, filter_app, map_app. intros E.
    eexists. now apply nonEmpty_app.
  - intros k. rewrite !entryMap_has, map_app, in_app_iff. auto.
  - intros p st. rewrite !fileStats_get. unfold fileTouches.
    rewrite flat_map_app, filter_app.
    set (x := filter _ (flat_map _ A)). set (y := filter _ (flat_map _ B)).
    destruct x as [|x0 x]; [discriminate|]. simpl. intros [= <-].
    eexists. split; [reflexivity|].
    unfold statsOf. cbn [createCount modifyCount isChurn].
    change (x0 :: x ++ y) with ((x0 :: x) ++ y).
    rewrite !countWhere_app.
    pose proof (DashboardProps.countWhere_nonneg isCreate y).
    pose proof (DashboardProps.countWhere_nonneg
                  (fun x => negb (isCreate x)) y).
    split; [lia|]. split; [lia|].
    intros Hc. apply andb_prop in Hc. destruct Hc as [Hc Hm].
    apply Z.ltb_lt in Hc, Hm. apply andb_true_intro.
    split; apply Z.ltb_lt; lia.
Qed.

Lemma incremental_update_additive_witness :
  exists more,
    JsMap.get "dev1"
      (agentIndex (updateIndicesIncremental
                     (buildIndices (firstn 1 indexScenario))
                     (skipn 1 indexScenario)))
    = Some (firstn 1 indexScenario ++ more).
Proof.
  exact (proj1 (incremental_update_additive (firstn 1 indexScenario)
                                            (skipn 1 indexScenario))
               "dev1" (firstn 1 indexScenario) eq_refl).
Defined.

End IndexerMore.

(* ================================================================== *)
(** * Pairing: bars, outcomes, markers *)
(* ================================================================== *)

Module PairingMore.
Import Pairing.

Lemma findTerminal_cond (s : LogEntry) consumed (l : list LogEntry) t :
  findTerminal s consumed l = Some t ->
  (truthyOptString (task_id s) = true /\ primaryCond s t = true)
  \/ secondaryCond s t = true.
Proof.
  unfold findTerminal. intros Hf.
  destruct (truthyOptString (task_id s)).
  - destruct (firstMatch (primaryCond s) consumed l) eqn:E.
    + injection Hf as ->. apply PairingProps.firstMatch_Some in E.
      left. tauto.
    + apply PairingProps.firstMatch_Some in Hf. right. tauto.
  - apply PairingProps.firstMatch_Some in Hf. right. tauto.
Qed.

(** What every bar made by the loop over the STARTs satisfies. *)
Lemma pairStarts_bars (terminals starts : list LogEntry) :
  Forall
    (fun b =>
       In (startEntry b) starts
       /\ In (endEntry b) terminals
       /\ agent (endEntry b) = agent (startEntry b)
       /\ outcome b = outcomeOf (endEntry b)
       /\ ((truthyOptString (task_id (startEntry b)) = true
            /\ primaryCond (startEntry b) (endEntry b) = true)
           \/ secondaryCond (startEntry b) (endEntry b) = true))
    (st_bars (pairStarts (groupByAgent terminals) starts)).
Proof.
  induction starts as [|s l IH] using rev_ind; [constructor|].
  rewrite PairingProps.pairStarts_snoc.
  set (st := pairStarts (groupByAgent terminals) l) in *.
  assert (IH' : Forall
    (fun b =>
       In (startEntry b) (l ++ [s])
       /\ In (endEntry b) terminals
       /\ agent (endEntry b) = agent (startEntry b)
       /\ outcome b = outcomeOf (endEntry b)
       /\ ((truthyOptString (task_id (startEntry b)) = true
            /\ primaryCond (startEntry b) (endEntry b) = true)
           \/ secondaryCond (startEntry b) (endEntry b) = true))
    (st_bars st)).
  { eapply Forall_impl; [|exact IH]. intros b (H1 & H2).
    split; [apply in_or_app; now left | exact H2]. }
  unfold pairStep. rewrite PairingProps.groupByAgent_get.
  destruct (filter (fun t => String.eqb (agent t) (agent s)) terminals)
    as [|c cs] eqn:F; [exact IH'|].
  destruct (findTerminal s (consumedTerminals st) (c :: cs)) as [t|] eqn:Ft;
    [|exact IH'].
  simpl. apply Forall_app. split; [exact IH'|]. constructor; [|constructor].
  pose proof (PairingProps.findTerminal_Some _ _ _ _ Ft) as [Hin _].
  pose proof (findTerminal_cond _ _ _ _ Ft) as Hc.
  rewrite <- F in Hin. apply filter_In in Hin. destruct Hin as [Hin Ha].
  apply String.eqb_eq in Ha. simpl.
  repeat split; auto. apply in_or_app. right. now left.
Qed.

Lemma conds_greater (s t : LogEntry) :
  primaryCond s t = true \/ secondaryCond s t = true ->
  log_seq s < log_seq t.
Proof.
  unfold primaryCond, secondaryCond.
  intros [H|H]; apply andb_prop in H; destruct H as [_ H];
    now apply Z.ltb_lt.
Qed.

Section WithDate.
Variable Date_getTime : string -> option Z.

(** X9.  Every bar that [pairEntries] returns joins a START of the input
    to a terminal event of the input that has the same agent and a greater
    log_seq, and that has either the same non-empty task_id or the same
    phase and parent_log_seq. *)
Theorem bars_well_formed (entries : list LogEntry) (b : DurationBar) :
  In b (bars (pairEntries Date_getTime entries)) ->
  In (startEntry b) entries /\ isStart (startEntry b) = true
  /\ In (endEntry b) entries /\ isTerminal (endEntry b) = true
  /\ agent (endEntry b) = agent (startEntry b)
  /\ log_seq (startEntry b) < log_seq (endEntry b)
  /\ ((truthyOptString (task_id (startEntry b)) = true
       /\ task_id (endEntry b) = task_id (startEntry b))
      \/ (phase (endEntry b) = phase (startEntry b)
          /\ parent_log_seq (endEntry b) = parent_log_seq (startEntry b))).
Proof.
  rewrite PairingProps.pairEntries_bars. intros Hb.
  pose proof (pairStarts_bars (filter isTerminal entries)
                              (filter isStart entries)) as Hall.
  rewrite Forall_forall in Hall.
  destruct (Hall b Hb) as (Hs & Ht & Ha & _ & Hc).
  apply filter_In in Hs. apply filter_In in Ht.
  destruct Hs as [Hs1 Hs2]. destruct Ht as [Ht1 Ht2].
  repeat split; auto.
  - apply conds_greater. tauto.
  - destruct Hc as [[Htruthy Hp]|Hsec].
    + left. split; [exact Htruthy|].
      unfold primaryCond in Hp. apply andb_prop in Hp. destruct Hp as [Hp _].
      unfold strictEqOptString in Hp.
      destruct (task_id (endEntry b)) as [x|], (task_id (startEntry b)) as [y|];
        try discriminate; try reflexivity.
      apply String.eqb_eq in Hp. now subst.
    + right. unfold secondaryCond in Hsec.
      apply andb_prop in Hsec. destruct Hsec as [Hsec _].
      apply andb_prop in Hsec. destruct Hsec as [Hph Hpar].
      apply String.eqb_eq in Hph. split; [exact Hph|].
      unfold strictEqOptNumber in Hpar.
      destruct (parent_log_seq (endEntry b)) as [x|],
               (parent_log_seq (startEntry b)) as [y|];
        try discriminate; try reflexivity.
      apply Z.eqb_eq in Hpar. now subst.
Qed.

(** X10.  The outcome of a bar of [pairEntries] is success exactly when
    the action of its end entry is COMPLETE, REVIEW_PASS or TEST_PASS, and
    failure exactly when it is REVIEW_FAIL, TEST_FAIL or ERROR. *)
Theorem bar_outcomes (entries : list LogEntry) (b : DurationBar) :
  In b (bars (pairEntries Date_getTime entries)) ->
  (outcome b = success
   <-> In (action (endEntry b)) ["COMPLETE"; "REVIEW_PASS"; "TEST_PASS"])
  /\ (outcome b = failure
      <-> In (action (endEntry b)) ["REVIEW_FAIL"; "TEST_FAIL"; "ERROR"]).
Proof.
  rewrite PairingProps.pairEntries_bars. intros Hb.
  pose proof (pairStarts_bars (filter isTerminal entries)
                              (filter isStart entries)) as Hall.
  rewrite Forall_forall in Hall.
  destruct (Hall b Hb) as (_ & Ht & _ & Ho & _).
  apply filter_In in Ht. destruct Ht as [_ Ht].
  unfold isTerminal in Ht. apply set_has_In in Ht.
  rewrite Ho. unfold outcomeOf.
  destruct (JsSet.has (action (endEntry b)) SUCCESS_TERMINALS) eqn:S.
  - apply set_has_In in S. split; split; auto; try discriminate.
    intros Hf. exfalso. simpl in S, Hf.
    destruct S as [S|[S|[S|[]]]]; rewrite <- S in Hf;
      destruct Hf as [Hf|[Hf|[Hf|[]]]]; discriminate Hf.
  - apply set_has_not_In in S. split; split; auto; try discriminate.
    + intros Hs. exfalso. now apply S.
    + intros _. simpl in Ht. simpl.
      destruct Ht as [E|[E|[E|[E|[E|[E|[]]]]]]]; auto;
        exfalso; apply S; rewrite <- E; simpl; auto.
Qed.

End WithDate.

Lemma bars_well_formed_witness :
  let b := mkBar (timedEntry 4 "tester" "START" (Some "T002")
                             "2026-01-01T00:07:00Z")
                 (timedEntry 6 "tester" "TEST_FAIL" (Some "T002")
                             "2026-01-01T00:12:00Z")
                 failure in
  In b (bars (pairEntries minuteClock markerScenario))
  /\ agent (endEntry b) = agent (startEntry b)
  /\ log_seq (startEntry b) < log_seq (endEntry b).
Proof.
  cbv zeta.
  assert (Hin : In (mkBar (timedEntry 4 "tester" "START" (Some "T002")
                                      "2026-01-01T00:07:00Z")
                          (timedEntry 6 "tester" "TEST_FAIL" (Some "T002")
                                      "2026-01-01T00:12:00Z")
                          failure)
                   (bars (pairEntries minuteClock markerScenario))).
  { vm_compute. right. left. reflexivity. }
  split; [exact Hin|].
  pose proof (bars_well_formed minuteClock markerScenario _ Hin) as H.
  destruct H as (_ & _ & _ & _ & Ha & Hlt & _).
  split; [exact Ha | exact Hlt].
Defined.

Lemma bar_outcomes_witness :
  let b := mkBar (timedEntry 4 "tester" "START" (Some "T002")
                             "2026-01-01T00:07:00Z")
                 (timedEntry 6 "tester" "TEST_FAIL" (Some "T002")
                             "2026-01-01T00:12:00Z")
                 failure in
  outcome b = failure
  <-> In (action (endEntry b)) ["REVIEW_FAIL"; "TEST_FAIL"; "ERROR"].
Proof.
  cbv zeta.
  assert (Hin : In (mkBar (timedEntry 4 "tester" "START" (Some "T002")
                                      "2026-01-01T00:07:00Z")
                          (timedEntry 6 "tester" "TEST_FAIL" (Some "T002")
                                      "2026-01-01T00:12:00Z")
                          failure)
                   (bars (pairEntries minuteClock markerScenario))).
  { vm_compute. right. left. reflexivity. }
  exact (proj2 (bar_outcomes minuteClock markerScenario _ Hin)).
Defined.

(** ** Markers *)

Lemma isMarker_exclusive (e : LogEntry) :
  isMarker e = true -> isStart e = false /\ isTerminal e = false.
Proof.
  unfold isMarker, isStart, isTerminal. intros Hm.
  apply set_has_In in Hm. simpl in Hm.
  destruct Hm as [<-|[<-|[<-|[<-|[<-|[]]]]]]; split; reflexivity.
Qed.

Lemma filter_markers (entries : list LogEntry) :
  filter (fun e => negb (isStart e) && negb (isTerminal e) && isMarker e)
         entries
  = filter isMarker entries.
Proof.
  apply filter_ext. intros e. destruct (isMarker e) eqn:M.
  - destruct (isMarker_exclusive e M) as [-> ->]. reflexivity.
  - now rewrite andb_false_r.
Qed.

Section Markers.
Variable Date_getTime : string -> option Z.

Lemma findParentBar_find (m : LogEntry) (bs : list DurationBar) :
  findParentBar Date_getTime m bs = find (covers Date_getTime m) bs.
Proof.
  induction bs as [|bar bs IH]; [reflexivity|].
  simpl. unfold covers at 1.
  destruct (String.eqb (agent (startEntry bar)) (agent m)); simpl;
    [|exact IH].
  destruct (leNumber (Date_getTime (timestamp (startEntry bar)))
                     (Date_getTime (timestamp m))
            && leNumber (Date_getTime (timestamp m))
                        (Date_getTime (timestamp (endEntry bar))));
    [reflexivity | exact IH].
Qed.

Lemma pairEntries_markers (entries : list LogEntry) :
  markers (pairEntries Date_getTime entries)
  = map (fun m =>
           mkMarker m (findParentBar Date_getTime m
                         (bars (pairEntries Date_getTime entries))))
        (filter isMarker entries).
Proof.
  unfold pairEntries. rewrite PairingProps.classify_filters.
  cbn [markers bars]. now rewrite filter_markers.
Qed.

(** X11.  The markers that [pairEntries] returns are the entries whose
    action is DECISION, FILE_CREATE, FILE_MODIFY, BLOCKED or UNBLOCKED, each
    once and in input order; the parent bar of a marker is the first bar of
    the result that has the agent of the marker and whose time span, ends
    included, holds the time of the marker, and null when there is none. *)
Theorem markers_spec (entries : list LogEntry) :
  let r := pairEntries Date_getTime entries in
  map marker_entry (markers r) = filter isMarker entries
  /\ (forall m, In m (markers r) ->
                match parentBar m with
                | Some b => firstSuch (covers Date_getTime (marker_entry m))
                                      (bars r) b
                | None => noneSuch (covers Date_getTime (marker_entry m))
                                   (bars r)
                end).
Proof.
  cbv zeta. rewrite pairEntries_markers. split.
  - rewrite map_map. simpl. apply map_id.
  - intros m Hin. apply in_map_iff in Hin. destruct Hin as (e & <- & _).
    cbn [parentBar marker_entry]. rewrite findParentBar_find.
    destruct (find (covers Date_getTime e)
                   (bars (pairEntries Date_getTime entries))) eqn:F.
    + now apply PairingProps.find_firstSuch.
    + now apply PairingProps.find_noneSuch.
Qed.

(** X12.  Entries whose action is not one of the twelve known actions
    have no effect on the result of [pairEntries]. *)
Theorem unknown_actions_ignored (entries : list LogEntry) :
  pairEntries Date_getTime (filter knownAction entries)
  = pairEntries Date_getTime entries.
Proof.
  unfold pairEntries. rewrite !PairingProps.classify_filters.
  rewrite !filter_markers.
  assert (Hs : filter isStart (filter knownAction entries)
               = filter isStart entries).
  { apply DashboardProps.filter_filter_implied. intros e He.
    unfold knownAction. now rewrite He. }
  assert (Ht : filter isTerminal (filter knownAction entries)
               = filter isTerminal entries).
  { apply DashboardProps.filter_filter_implied. intros e He.
    unfold knownAction. rewrite He. now rewrite orb_true_r. }
  assert (Hm : filter isMarker (filter knownAction entries)
               = filter isMarker entries).
  { apply DashboardProps.filter_filter_implied. intros e He.
    unfold knownAction. rewrite He. now rewrite orb_true_r. }
  now rewrite Hs, Ht, Hm.
Qed.

End Markers.

Lemma markers_spec_witness :
  let r := pairEntries minuteClock markerScenario in
  map (fun m => (log_seq (marker_entry m),
                 option_map (fun b => log_seq (startEntry b)) (parentBar m)))
      (markers r)
  = [(2, Some 1); (7, None)]
  /\ noneSuch (covers minuteClock
                      (timedEntry 7 "developer" "DECISION" None
                                  "2026-01-01T00:20:00Z"))
              (bars r).
Proof.
  cbv zeta. split; [vm_compute; reflexivity|].
  assert (Hin : In (mkMarker (timedEntry 7 "developer" "DECISION" None
                                         "2026-01-01T00:20:00Z") None)
                   (markers (pairEntries minuteClock markerScenario))).
  { vm_compute. right. left. reflexivity. }
  exact (proj2 (markers_spec minuteClock markerScenario) _ Hin).
Defined.

(** ** Agents are paired independently *)

Lemma filter_comm {A} (P Q : A -> bool) (l : list A) :
  filter P (filter Q l) = filter Q (filter P l).
Proof.
  induction l as [|x l IH]; [reflexivity|]. simpl.
  destruct (P x) eqn:Px, (Q x) eqn:Qx; simpl; rewrite ?Px, ?Qx, IH;
    reflexivity.
Qed.

Lemma filter_map_comm {A B} (f : A -> B) (P : B -> bool) (l : list A) :
  filter P (map f l) = map f (filter (fun x => P (f x)) l).
Proof.
  induction l as [|x l IH]; [reflexivity|]. simpl.
  destruct (P (f x)); simpl; now rewrite IH.
Qed.

Lemma find_filter_implied {A} (P Q : A -> bool) (l : list A) :
  (forall x, P x = true -> Q x = true) ->
  find P (filter Q l) = find P l.
Proof.
  intros Himp. induction l as [|x l IH]; [reflexivity|]. simpl.
  destruct (P x) eqn:Px.
  - rewrite (Himp x Px). simpl. now rewrite Px.
  - destruct (Q x); simpl; [now rewrite Px|exact IH].
Qed.

Lemma set_has_add_agree (x y : Z) (c1 c2 : list Z) :
  JsSet.has x c1 = JsSet.has x c2 ->
  JsSet.has x (JsSet.add y c1) = JsSet.has x (JsSet.add y c2).
Proof.
  intros E. destruct (JsSet.has x (JsSet.add y c2)) eqn:H2.
  - apply set_has_In. apply set_has_In in H2.
    apply set_add_In. apply set_add_In in H2.
    destruct H2 as [->|H2]; [now left|right].
    apply set_has_In. rewrite E. now apply set_has_In.
  - apply set_has_not_In. apply set_has_not_In in H2.
    rewrite set_add_In. rewrite set_add_In in H2.
    intros [->|H1]; apply H2; [now left|right].
    apply set_has_In. rewrite <- E. now apply set_has_In.
Qed.

Lemma set_has_add_other (x y : Z) (c : list Z) :
  x <> y -> JsSet.has x (JsSet.add y c) = JsSet.has x c.
Proof.
  intros Hne. destruct (JsSet.has x c) eqn:H.
  - apply set_has_In. apply set_add_In. right. now apply set_has_In.
  - apply set_has_not_In. rewrite set_add_In.
    apply set_has_not_In in H. intros [->|H1]; auto.
Qed.

Lemma firstMatch_agree cond (c1 c2 : list Z) (l : list LogEntry) :
  (forall t, In t l -> JsSet.has (log_seq t) c1 = JsSet.has (log_seq t) c2) ->
  firstMatch cond c1 l = firstMatch cond c2 l.
Proof.
  induction l as [|t l IH]; intros Hag; [reflexivity|]. simpl.
  rewrite (Hag t (or_introl eq_refl)).
  rewrite IH by (intros t' Ht'; apply Hag; now right). reflexivity.
Qed.

Lemma findTerminal_agree (s : LogEntry) (c1 c2 : list Z) (l : list LogEntry) :
  (forall t, In t l -> JsSet.has (log_seq t) c1 = JsSet.has (log_seq t) c2) ->
  findTerminal s c1 l = findTerminal s c2 l.
Proof.
  intros Hag. unfold findTerminal.
  now rewrite !(firstMatch_agree _ c1 c2 l Hag).
Qed.

Lemma NoDup_map_inj {A B} (f : A -> B) (l : list A) (x y : A) :
  NoDup (map f l) -> In x l -> In y l -> f x = f y -> x = y.
Proof.
  induction l as [|z l IH]; intros Hnd Hx Hy E; [destruct Hx|].
  simpl in Hnd. inversion Hnd as [|? ? Hz Hnd']; subst.
  destruct Hx as [->|Hx], Hy as [->|Hy]; auto.
  - exfalso. apply Hz. rewrite E. now apply in_map.
  - exfalso. apply Hz. rewrite <- E. now apply in_map.
Qed.

(** The loop over the STARTs, seen from one agent. *)
Lemma pairStarts_per_agent (a : string) (terminals starts : list LogEntry) :
  NoDup (map log_seq terminals) ->
  let st := pairStarts (groupByAgent terminals) starts in
  let own := pairStarts (groupByAgent (filter (ofAgent a) terminals))
                        (filter (ofAgent a) starts) in
  filter (fun b => ofAgent a (startEntry b)) (st_bars st) = st_bars own
  /\ filter (fun o => ofAgent a (orphan_entry o)) (st_orphans st)
     = st_orphans own
  /\ (forall t, In t terminals -> ofAgent a t = true ->
                JsSet.has (log_seq t) (consumedTerminals st)
                = JsSet.has (log_seq t) (consumedTerminals own)).
Proof.
  intros Hnd. induction starts as [|s l IH] using rev_ind.
  - simpl. auto.
  - cbv zeta in *. destruct IH as (Hb & Ho & Hc).
    rewrite filter_app, PairingProps.pairStarts_snoc.
    set (st := pairStarts (groupByAgent terminals) l) in *.
    set (own := pairStarts (groupByAgent (filter (ofAgent a) terminals))
                           (filter (ofAgent a) l)) in *.
    cbn [filter]. destruct (ofAgent a s) eqn:As.
    + rewrite PairingProps.pairStarts_snoc. fold own.
      unfold pairStep. rewrite !PairingProps.groupByAgent_get.
      assert (Ea : agent s = a) by (now apply String.eqb_eq).
      assert (Ef : filter (fun t => String.eqb (agent t) (agent s))
                          (filter (ofAgent a) terminals)
                   = filter (fun t => String.eqb (agent t) (agent s))
                            terminals).
      { apply DashboardProps.filter_filter_implied. intros t Ht.
        unfold ofAgent. now rewrite <- Ea. }
      rewrite Ef.
      destruct (filter (fun t => String.eqb (agent t) (agent s)) terminals)
        as [|c cs] eqn:F.
      * cbn [st_bars st_orphans consumedTerminals].
        rewrite filter_app. cbn [filter orphan_entry]. rewrite As.
        rewrite Hb, Ho. auto.
      * assert (Hcand : forall t, In t (c :: cs) ->
                  In t terminals /\ ofAgent a t = true).
        { intros t Ht. rewrite <- F in Ht. apply filter_In in Ht.
          destruct Ht as [Ht Hat]. split; [exact Ht|].
          unfold ofAgent. now rewrite <- Ea. }
        rewrite (findTerminal_agree s (consumedTerminals st)
                   (consumedTerminals own) (c :: cs))
          by (intros t Ht; destruct (Hcand t Ht); now apply Hc).
        destruct (findTerminal s (consumedTerminals own) (c :: cs))
          as [t|] eqn:Ft.
        -- cbn [st_bars st_orphans consumedTerminals].
           rewrite filter_app. cbn [filter startEntry]. rewrite As.
           rewrite Hb, Ho. repeat split.
           intros t' Ht' Hat'. apply set_has_add_agree. now apply Hc.
        -- cbn [st_bars st_orphans consumedTerminals].
           rewrite filter_app. cbn [filter orphan_entry]. rewrite As.
           rewrite Hb, Ho. auto.
    + rewrite app_nil_r. fold own.
      unfold pairStep. rewrite PairingProps.groupByAgent_get.
      destruct (filter (fun t => String.eqb (agent t) (agent s)) terminals)
        as [|c cs] eqn:F.
      * cbn [st_bars st_orphans consumedTerminals].
        rewrite filter_app. cbn [filter orphan_entry]. rewrite As.
        rewrite app_nil_r. auto.
      * destruct (findTerminal s (consumedTerminals st) (c :: cs))
          as [t|] eqn:Ft.
        -- apply PairingProps.findTerminal_Some in Ft.
           destruct Ft as [Hin _]. rewrite <- F in Hin.
           apply filter_In in Hin. destruct Hin as [Hin Hat].
           apply String.eqb_eq in Hat.
           cbn [st_bars st_orphans consumedTerminals].
           rewrite filter_app. cbn [filter startEntry]. rewrite As.
           rewrite app_nil_r. repeat split; auto.
           intros t' Ht' Hat'. rewrite <- (Hc t' Ht' Hat').
           apply set_has_add_other. intros E.
           assert (Et : t' = t)
             by (exact (NoDup_map_inj log_seq terminals t' t Hnd Ht' Hin E)).
           subst t'. unfold ofAgent in Hat', As.
           rewrite Hat in Hat'. congruence.
        -- cbn [st_bars st_orphans consumedTerminals].
           rewrite filter_app. cbn [filter orphan_entry]. rewrite As.
           rewrite app_nil_r. auto.
Qed.

Section Isolation.
Variable Date_getTime : string -> option Z.

(** X13.  When no two terminal entries of the input share a log_seq, the
    agents are paired independently: the bars, orphans and markers of
    an agent in the result for the whole log are the result for the entries
    of that agent alone. *)
Theorem agents_paired_independently (a : string) (entries : list LogEntry) :
  NoDup (map log_seq (filter isTerminal entries)) ->
  let whole := pairEntries Date_getTime entries in
  let own := pairEntries Date_getTime (filter (ofAgent a) entries) in
  filter (fun b => ofAgent a (startEntry b)) (bars whole) = bars own
  /\ filter (fun o => ofAgent a (orphan_entry o)) (orphans whole)
     = orphans own
  /\ filter (fun m => ofAgent a (marker_entry m)) (markers whole)
     = markers own.
Proof.
  intros Hnd. cbv zeta.
  destruct (pairStarts_per_agent a (filter isTerminal entries)
              (filter isStart entries) Hnd) as (Hb & Ho & _).
  rewrite (filter_comm (ofAgent a) isTerminal) in Hb, Ho.
  rewrite (filter_comm (ofAgent a) isStart) in Hb, Ho.
  assert (Eb : filter (fun b => ofAgent a (startEntry b))
                      (bars (pairEntries Date_getTime entries))
               = bars (pairEntries Date_getTime
                         (filter (ofAgent a) entries))).
  { now rewrite !PairingProps.pairEntries_bars. }
  split; [exact Eb|]. split.
  - now rewrite !PairingProps.pairEntries_orphans.
  - rewrite !pairEntries_markers, filter_map_comm. cbn [marker_entry].
    rewrite (filter_comm isMarker (ofAgent a)).
    apply map_ext_in. intros m Hm. f_equal.
    assert (Ha : ofAgent a m = true).
    { apply filter_In in Hm. destruct Hm as [Hm Hp].
      apply filter_In in Hm. destruct Hm as [_ Hq].
      destruct (ofAgent a m); [reflexivity|].
      first [exact Hp | exact Hq]. }
    clear Hm. rewrite !findParentBar_find, <- Eb.
    symmetry. apply find_filter_implied. intros b Hcov.
    unfold covers in Hcov. apply andb_prop in Hcov.
    destruct Hcov as [Hcov _]. apply andb_prop in Hcov.
    destruct Hcov as [Hag _]. apply String.eqb_eq in Hag.
    unfold ofAgent in *. now rewrite Hag.
Qed.

End Isolation.

Lemma agents_paired_independently_witness :
  let whole := pairEntries minuteClock markerScenario in
  let own := pairEntries minuteClock (filter (ofAgent "tester") markerScenario) in
  filter (fun b => ofAgent "tester" (startEntry b)) (bars whole) = bars own
  /\ filter (fun o => ofAgent "tester" (orphan_entry o)) (orphans whole)
     = orphans own
  /\ filter (fun m => ofAgent "tester" (marker_entry m)) (markers whole)
     = markers own.
Proof.
  apply (agents_paired_independently minuteClock "tester" markerScenario).
  cbn. repeat constructor; cbn; intuition discriminate.
Defined.

End PairingMore.

(* ================================================================== *)
(** * More on the line parser *)
(* ================================================================== *)

Module ParserMore.
Import Parser.

Lemma splitLines_join (a b : list ascii) :
  forall cur,
    JsString.splitLines cur (a ++ "010"%char :: b)
    = JsString.splitLines cur a ++ JsString.splitLines [] b.
Proof.
  induction a as [|c a IH]; intros cur; [reflexivity|].
  cbn [app JsString.splitLines].
  destruct (JsString.code c =? 10)%N; rewrite IH; reflexivity.
Qed.

Lemma split_newline_join (a b : string) :
  JsString.split_newline (a ++ newline ++ b)%string
  = JsString.split_newline a ++ JsString.split_newline b.
Proof.
  unfold JsString.split_newline.
  rewrite !IndexerMore.chars_append. apply splitLines_join.
Qed.

Section WithBuiltins.
Variable JSON_parse : string -> option JSON.
Variable StringToNumber : string -> option Z.

Lemma parseLoop_app keep (l1 l2 : list string) :
  forall st,
    parseLoop JSON_parse keep (l1 ++ l2) st
    = (st' <- parseLoop JSON_parse keep l1 st ;;
       parseLoop JSON_parse keep l2 st').
Proof.
  induction l1 as [|l l1 IH]; intros st; [reflexivity|].
  cbn [app parseLoop].
  destruct (parseStep JSON_parse keep st l) as [|st']; [reflexivity|].
  cbn [bindO]. apply IH.
Qed.

Lemma parseLoop_join keep (a b : string) :
  mapO (fun st => mkParseResult (fst st) (snd st))
       (parseLoop JSON_parse keep
          (JsString.split_newline (a ++ newline ++ b)%string) ([], 0))
  = (ra <- mapO (fun st => mkParseResult (fst st) (snd st))
             (parseLoop JSON_parse keep (JsString.split_newline a) ([], 0)) ;;
     rb <- mapO (fun st => mkParseResult (fst st) (snd st))
             (parseLoop JSON_parse keep (JsString.split_newline b) ([], 0)) ;;
     Returned (appendResults ra rb)).
Proof.
  rewrite split_newline_join, parseLoop_app.
  destruct (parseLoop JSON_parse keep (JsString.split_newline a) ([], 0))
    as [|[es k]]; [reflexivity|].
  cbn [bindO mapO fst snd]. rewrite ParserProps.parseLoop_from.
  destruct (parseLoop JSON_parse keep (JsString.split_newline b) ([], 0))
    as [|[es' k']]; reflexivity.
Qed.

(** X14.  [parseLogContent] throws exactly when some non-blank line holds
    a JSON scalar, or holds a record with the four required fields in which
    one of the six fields converted with [String] (work_seq, timestamp,
    agent, action, phase, details) has no string form, that is, holds an
    object with a property named toString, directly or inside arrays;
    otherwise it returns the entries of the lines that parse to an object
    with the four required fields present and not null, in line order, and
    counts every other non-blank line (text that is not JSON, arrays,
    objects with a missing or null required field) as skipped. *)
Theorem parseLogContent_outcome (content : string) :
  let lines := JsString.split_newline content in
  parseLogContent JSON_parse content
  = if existsb (isThrowingLine JSON_parse) lines then Threw
    else Returned
           (mkParseResult
              (eventsOf JSON_parse lines)
              (Z.of_nat (List.length (nonBlankLines lines))
               - Z.of_nat (List.length (eventsOf JSON_parse lines)))).
Proof. exact (ParserProps.parse_outcome JSON_parse content). Qed.

(** X15.  Parsing two pieces of content joined by a newline gives the
    entries of the first followed by those of the second, and the sum of the
    skipped-line counts; it throws when parsing either piece throws.  This
    holds for [parseLogContent] and, with any watermark, for
    [parseIncrementalContent]. *)
Theorem parse_joined_content (a b : string) (w : Z) :
  parseLogContent JSON_parse (a ++ newline ++ b)%string
  = (ra <- parseLogContent JSON_parse a ;;
     rb <- parseLogContent JSON_parse b ;;
     Returned (appendResults ra rb))
  /\ parseIncrementalContent JSON_parse StringToNumber
                              (a ++ newline ++ b)%string w
     = (ra <- parseIncrementalContent JSON_parse StringToNumber a w ;;
        rb <- parseIncrementalContent JSON_parse StringToNumber b w ;;
        Returned (appendResults ra rb)).
Proof.
  split; apply parseLoop_join.
Qed.

End WithBuiltins.

(** ** The pattern of requirement ranges *)

Lemma greedyStar_sound {R} (p : ascii -> bool) (s : list ascii) :
  forall (k : list ascii -> list ascii -> option R) (r : R),
    greedyStar p s k = Some r ->
    exists taken rest,
      s = taken ++ rest /\ forallb p taken = true /\ k taken rest = Some r.
Proof.
  induction s as [|c s IH]; intros k r Hm.
  - exists [], []. auto.
  - cbn [greedyStar] in Hm. destruct (p c) eqn:Pc.
    + destruct (greedyStar p s (fun taken rest => k (c :: taken) rest))
        as [r'|] eqn:G.
      * injection Hm as ->. apply IH in G.
        destruct G as (taken & rest & -> & Hp & Hk).
        exists (c :: taken), rest. cbn [forallb]. rewrite Pc, Hp. auto.
      * exists [], (c :: s). auto.
    + exists [], (c :: s). auto.
Qed.

Lemma greedyPlus_sound {R} (p : ascii -> bool) (s : list ascii)
    (k : list ascii -> list ascii -> option R) (r : R) :
  greedyPlus p s k = Some r ->
  exists taken rest, s = taken ++ rest /\ run p taken /\ k taken rest = Some r.
Proof.
  unfold greedyPlus. destruct s as [|c s]; [discriminate|].
  destruct (p c) eqn:Pc; [|discriminate]. intros Hm.
  apply greedyStar_sound in Hm. destruct Hm as (taken & rest & -> & Hp & Hk).
  exists (c :: taken), rest. repeat split; auto; [discriminate|].
  cbn [forallb]. now rewrite Pc, Hp.
Qed.

Lemma optionalDash_sound {R} (s : list ascii)
    (k : list ascii -> list ascii -> option R) (r : R) :
  optionalDash s k = Some r ->
  exists dash rest,
    s = dash ++ rest /\ forallb JsString.isDot dash = true
    /\ k dash rest = Some r.
Proof.
  unfold optionalDash. destruct s as [|c s].
  - intros Hk. exists [], []. auto.
  - destruct (JsString.code c =? 45)%N eqn:Hc.
    + destruct (k [c] s) as [r'|] eqn:K.
      * intros [= ->]. exists [c], s. repeat split; auto.
        cbn [forallb]. unfold JsString.isDot, JsString.isLineTerminator.
        apply N.eqb_eq in Hc. now rewrite Hc.
      * intros Hk. exists [], (c :: s). auto.
    + intros Hk. exists [], (c :: s). auto.
Qed.

Lemma matchFolded_sound (pat s rest : list ascii) :
  matchFolded pat s = Some rest ->
  exists m, s = m ++ rest /\ sameFolded pat m.
Proof.
  revert s. induction pat as [|a pat IH]; intros s Hm.
  - injection Hm as ->. exists []. split; reflexivity.
  - cbn [matchFolded] in Hm. destruct s as [|c s]; [discriminate|].
    destruct (Ascii.eqb (JsString.canonicalize a) (JsString.canonicalize c))
      eqn:E; [|discriminate].
    apply Ascii.eqb_eq in E. apply IH in Hm. destruct Hm as (m & -> & Hf).
    exists (c :: m). split; [reflexivity|].
    unfold sameFolded in *. cbn [map]. now rewrite E, Hf.
Qed.

Lemma matchRange_shape (s g1 g2 g3 : list ascii) :
  matchRange s = Some (g1, g2, g3) -> rangeShape s g1 g2 g3.
Proof.
  unfold matchRange. intros Hm.
  apply greedyPlus_sound in Hm. destruct Hm as (dots & r1 & -> & Hdots & Hm).
  apply optionalDash_sound in Hm. destruct Hm as (dash & r2 & -> & Hdash & Hm).
  apply greedyPlus_sound in Hm. destruct Hm as (d1 & r3 & -> & Hd1 & Hm).
  apply greedyPlus_sound in Hm. destruct Hm as (ws1 & r4 & -> & Hws1 & Hm).
  destruct (matchFolded (JsString.chars "through") r4) as [r5|] eqn:Hth;
    [|discriminate].
  apply matchFolded_sound in Hth. destruct Hth as (word & -> & Hword).
  apply greedyPlus_sound in Hm. destruct Hm as (ws2 & r6 & -> & Hws2 & Hm).
  destruct (matchFolded (dots ++ dash) r6) as [r7|] eqn:Hback;
    [|discriminate].
  apply matchFolded_sound in Hback. destruct Hback as (g1' & -> & Hg1').
  apply greedyPlus_sound in Hm. destruct Hm as (d2 & r8 & -> & Hd2 & Hm).
  destruct r8; [|discriminate]. injection Hm as <- <- <-.
  exists ws1, word, ws2, g1'. rewrite app_nil_r.
  repeat split; try (apply Hd1 || apply Hws1 || apply Hws2 || apply Hd2);
    auto.
  - now rewrite <- !app_assoc.
  - destruct Hdots as [Hne _]. destruct dots; [contradiction|discriminate].
  - rewrite forallb_app. destruct Hdots as [_ ->]. now rewrite Hdash.
Qed.

(** X16.  [expandRequirementRange] returns its argument alone unless the
    argument reads, from its first to its last character: a non-empty first
    group without line terminators, one or more digits, white space, the
    word "through" in any mix of cases, white space, the first group again
    up to case, and one or more digits. *)
Theorem expansion_only_of_ranges (rangeStr : string) :
  expandRequirementRange rangeStr <> [rangeStr] ->
  exists g1 g2 g3, rangeShape (JsString.chars rangeStr) g1 g2 g3.
Proof.
  unfold expandRequirementRange. intros Hne.
  destruct (matchRange (JsString.chars rangeStr)) as [[[g1 g2] g3]|] eqn:Hm;
    [|contradiction].
  exists g1, g2, g3. now apply matchRange_shape.
Qed.

Lemma expansion_only_of_ranges_witness :
  exists g1 g2 g3, rangeShape (JsString.chars "P-001 through P-005") g1 g2 g3.
Proof.
  apply (expansion_only_of_ranges "P-001 through P-005").
  vm_compute. discriminate.
Defined.

(** ** Digits, numbers and padding *)

Lemma digit_cases (c : ascii) :
  JsString.isDigit c = true ->
  (0 <= JsString.digitValue c <= 9)
  /\ forall u,
       NilEmpty.string_of_uint (digitToUint c u)
       = String c (NilEmpty.string_of_uint u).
Proof.
  destruct c as [[] [] [] [] [] [] [] []]; intros Hd;
    try discriminate Hd; (split; [vm_compute; split; discriminate|]);
    intros u; reflexivity.
Qed.

Lemma string_of_uintOfDigits (ds : list ascii) :
  forallb JsString.isDigit ds = true ->
  NilEmpty.string_of_uint (uintOfDigits ds) = JsString.str ds.
Proof.
  induction ds as [|c ds IH]; intros Hd; [reflexivity|].
  cbn [forallb] in Hd. apply andb_prop in Hd. destruct Hd as [Hc Hd].
  cbn [uintOfDigits fold_right]. fold (uintOfDigits ds).
  destruct (digit_cases c Hc) as [_ E]. rewrite E, (IH Hd). reflexivity.
Qed.

Lemma nb_digits_uintOfDigits (ds : list ascii) :
  Decimal.nb_digits (uintOfDigits ds) = List.length ds.
Proof.
  induction ds as [|c ds IH]; [reflexivity|].
  cbn [uintOfDigits fold_right]. fold (uintOfDigits ds).
  unfold digitToUint.
  destruct (JsString.digitValue c) as [|[[[|[]|]|[[]|[]|]|]|[[|[]|]|[|[]|]|]|]|];
    cbn [Decimal.nb_digits List.length]; now rewrite IH.
Qed.

Lemma of_uint_acc_digits (ds : list ascii) :
  forallb JsString.isDigit ds = true ->
  forall acc : positive,
    Z.pos (Pos.of_uint_acc (uintOfDigits ds) acc)
    = fold_left (fun a c => 10 * a + JsString.digitValue c) ds (Z.pos acc).
Proof.
  induction ds as [|c ds IH]; intros Hd acc; [reflexivity|].
  cbn [forallb] in Hd. apply andb_prop in Hd. destruct Hd as [Hc Hd].
  cbn [uintOfDigits fold_right fold_left]. fold (uintOfDigits ds).
  destruct (digit_cases c Hc) as [Hr _]. unfold digitToUint.
  destruct (JsString.digitValue c) as [|[[[|[]|]|[[]|[]|]|]|[[|[]|]|[|[]|]|]|]|]
    eqn:V; try lia; cbn [Pos.of_uint_acc]; rewrite (IH Hd); f_equal; lia.
Qed.

Lemma of_uint_digits (ds : list ascii) :
  forallb JsString.isDigit ds = true ->
  Z.of_uint (uintOfDigits ds) = JsString.parseInt10 ds.
Proof.
  unfold JsString.parseInt10, Z.of_uint.
  induction ds as [|c ds IH]; intros Hd; [reflexivity|].
  cbn [forallb] in Hd. apply andb_prop in Hd. destruct Hd as [Hc Hd].
  cbn [uintOfDigits fold_right fold_left]. fold (uintOfDigits ds).
  destruct (digit_cases c Hc) as [Hr _]. unfold digitToUint.
  destruct (JsString.digitValue c) as [|[[[|[]|]|[[]|[]|]|]|[[|[]|]|[|[]|]|]|]|]
    eqn:V; try lia; cbn [Pos.of_uint]; try (exact (IH Hd));
    cbn [Z.of_N]; rewrite (of_uint_acc_digits ds Hd); f_equal.
Qed.

Lemma length_string_of_uint (u : Decimal.uint) :
  String.length (NilEmpty.string_of_uint u) = Decimal.nb_digits u.
Proof.
  induction u; cbn [NilEmpty.string_of_uint String.length Decimal.nb_digits];
    congruence.
Qed.

Lemma pad_unorm (u : Decimal.uint) :
  u <> Decimal.Nil ->
  JsString.padStart0 (Decimal.nb_digits u)
    (NilEmpty.string_of_uint (Decimal.unorm u))
  = NilEmpty.string_of_uint u.
Proof.
  unfold JsString.padStart0. rewrite length_string_of_uint.
  induction u as [|u IH| | | | | | | | |]; intros Hne;
    try contradiction;
    try (unfold Decimal.unorm; cbn [Decimal.nzhead Decimal.nb_digits];
         rewrite Nat.sub_diag; reflexivity).
  rewrite DecimalFacts.unorm_D0. destruct (Decimal.uint_eq_dec u Decimal.Nil) as [->|Hu].
  - reflexivity.
  - pose proof (DecimalFacts.nb_digits_unorm u Hu) as Hle.
    cbn [Decimal.nb_digits NilEmpty.string_of_uint].
    replace (S (Decimal.nb_digits u) - Decimal.nb_digits (Decimal.unorm u))%nat
      with (S (Decimal.nb_digits u - Decimal.nb_digits (Decimal.unorm u)))
      by lia.
    cbn [repeat JsString.str string_of_list_ascii String.append].
    f_equal. apply (IH Hu).
Qed.

(** [String(parseInt(ds, 10)).padStart(ds.length, '0')] is [ds] again. *)
Lemma pad_parseInt (ds : list ascii) :
  ds <> [] ->
  forallb JsString.isDigit ds = true ->
  JsString.padStart0 (List.length ds)
    (JsString.ofNumber (JsString.parseInt10 ds))
  = JsString.str ds.
Proof.
  intros Hne Hd. unfold JsString.ofNumber.
  rewrite <- (of_uint_digits ds Hd).
  change (Z.of_uint (uintOfDigits ds))
    with (Z.of_int (Decimal.Pos (uintOfDigits ds))).
  rewrite DecimalZ.to_of. cbn [Decimal.norm NilZero.string_of_int].
  assert (Hn : NilZero.string_of_uint (Decimal.unorm (uintOfDigits ds))
               = NilEmpty.string_of_uint (Decimal.unorm (uintOfDigits ds))).
  { pose proof (DecimalFacts.unorm_nonnil (uintOfDigits ds)) as Hnn.
    destruct (Decimal.unorm (uintOfDigits ds)); [contradiction|..];
      reflexivity. }
  rewrite Hn, <- (nb_digits_uintOfDigits ds), pad_unorm.
  - now apply string_of_uintOfDigits.
  - intros E. apply (f_equal Decimal.nb_digits) in E.
    rewrite nb_digits_uintOfDigits in E. destruct ds; [contradiction|].
    discriminate E.
Qed.

Lemma numbersFromTo_cons (first last : Z) :
  first <= last ->
  numbersFromTo first last
  = first :: map (fun i => first + Z.of_nat (S i))
                 (seq 0 (Z.to_nat (last - first))).
Proof.
  intros Hle. unfold numbersFromTo.
  replace (Z.to_nat (last - first + 1)) with (S (Z.to_nat (last - first)))
    by lia.
  cbn [seq map]. rewrite <- seq_shift, map_map. f_equal. f_equal. lia.
Qed.

Lemma numbersFromTo_last (first last d : Z) :
  first <= last -> List.last (numbersFromTo first last) d = last.
Proof.
  intros Hle. unfold numbersFromTo.
  replace (Z.to_nat (last - first + 1)) with (Z.to_nat (last - first) + 1)%nat
    by lia.
  rewrite seq_app, map_app. cbn [seq map]. rewrite last_last. lia.
Qed.

Lemma last_map {A B} (f : A -> B) (l : list A) (d : A) (d' : B) :
  l <> [] -> List.last (map f l) d' = f (List.last l d).
Proof.
  induction l as [|x l IH]; intros Hne; [contradiction|].
  destruct l as [|y l]; [reflexivity|].
  change (List.last (map f (x :: y :: l)) d')
    with (List.last (map f (y :: l)) d').
  change (List.last (x :: y :: l) d) with (List.last (y :: l) d).
  apply IH. discriminate.
Qed.

(** X17.  When the pattern matches with numbers below 2^53 and the start
    number is not above the end number, the expansion has one id for each
    integer from start to end, its first id is the first group followed by
    the digits of the start number as the argument writes them, and, when
    both numbers are written with the same number of digits, its last id is
    the first group followed by the digits of the end number. *)
Theorem expansion_endpoints (rangeStr : string) (g1 g2 g3 : list ascii) :
  matchRange (JsString.chars rangeStr) = Some (g1, g2, g3) ->
  JsString.parseInt10 g2 <= JsString.parseInt10 g3 < 2 ^ 53 ->
  let ids := expandRequirementRange rangeStr in
  Z.of_nat (List.length ids)
  = JsString.parseInt10 g3 - JsString.parseInt10 g2 + 1
  /\ hd_error ids = Some (JsString.str (g1 ++ g2))
  /\ (List.length g3 = List.length g2 ->
      List.last ids rangeStr = JsString.str (g1 ++ g3)).
Proof.
  intros Hm [Hle _]. cbv zeta. unfold expandRequirementRange. rewrite Hm.
  destruct (matchRange_shape _ _ _ _ Hm)
    as (ws1 & word & ws2 & g1' & _ & _ & [Hn2 Hd2] & _ & _ & _ & _
        & [Hn3 Hd3]).
  assert (Hstr : forall a b,
    JsString.str (a ++ b) = (JsString.str a ++ JsString.str b)%string).
  { intros a b. unfold JsString.str.
    induction a as [|c a IH]; [reflexivity|]. cbn. now rewrite IH. }
  destruct (JsString.parseInt10 g3 <? JsString.parseInt10 g2) eqn:Hlt;
    [apply Z.ltb_lt in Hlt; lia|].
  split; [|split].
  - rewrite length_map. unfold numbersFromTo. rewrite length_map, length_seq.
    lia.
  - rewrite (numbersFromTo_cons _ _ Hle). cbn [map hd_error].
    now rewrite (pad_parseInt g2 Hn2 Hd2), Hstr.
  - intros Hlen.
    rewrite (last_map _ _ 0).
    + rewrite (numbersFromTo_last _ _ 0 Hle), <- Hlen.
      now rewrite (pad_parseInt g3 Hn3 Hd3), Hstr.
    + rewrite (numbersFromTo_cons _ _ Hle). discriminate.
Qed.

Lemma expansion_endpoints_witness :
  let ids := expandRequirementRange "P-001 through P-005" in
  Z.of_nat (List.length ids) = 5 - 1 + 1
  /\ hd_error ids = Some "P-001"
  /\ (1%nat = 1%nat -> List.last ids "P-001 through P-005" = "P-005").
Proof.
  apply (expansion_endpoints "P-001 through P-005"
           (JsString.chars "P-00") (JsString.chars "1") (JsString.chars "5")).
  - vm_compute. reflexivity.
  - vm_compute. split; [discriminate | reflexivity].
Defined.

Lemma noWhiteSpace_no_match (s : string) :
  noWhiteSpace s = true -> matchRange (JsString.chars s) = None.
Proof.
  intros Hs.
  destruct (matchRange (JsString.chars s)) as [[[g1 g2] g3]|] eqn:Hm;
    [|reflexivity].
  apply matchRange_shape in Hm.
  destruct Hm as (ws1 & word & ws2 & g1' & E & _ & _ & [Hne Hws] & _).
  unfold noWhiteSpace in Hs. rewrite E in Hs.
  rewrite !forallb_app in Hs.
  apply andb_prop in Hs. destruct Hs as [_ Hs].
  apply andb_prop in Hs. destruct Hs as [_ Hs].
  apply andb_prop in Hs. destruct Hs as [Hs _].
  destruct ws1 as [|c ws1]; [contradiction|].
  cbn [forallb] in Hs, Hws.
  apply andb_prop in Hs. apply andb_prop in Hws.
  destruct Hs as [Hs _], Hws as [Hws _]. rewrite Hws in Hs. discriminate.
Qed.

(** X18.  [expandAllRequirements] expands every reference in place and
    keeps the order; a list of references none of which holds a white space
    character is returned as it is. *)
Theorem expandAll_plain_ids (reqs : list string) :
  expandAllRequirements reqs = flat_map expandRequirementRange reqs
  /\ (forallb noWhiteSpace reqs = true -> expandAllRequirements reqs = reqs).
Proof.
  assert (Hflat : forall acc,
    fold_left (fun expanded req => expanded ++ expandRequirementRange req)
              reqs acc
    = acc ++ flat_map expandRequirementRange reqs).
  { induction reqs as [|r reqs IH]; intros acc.
    - cbn. now rewrite app_nil_r.
    - cbn [fold_left flat_map]. rewrite IH. now rewrite app_assoc. }
  unfold expandAllRequirements. rewrite Hflat. cbn [app].
  split; [reflexivity|].
  clear Hflat. induction reqs as [|r reqs IH]; intros Hp; [reflexivity|].
  cbn [forallb] in Hp. apply andb_prop in Hp. destruct Hp as [Hr Hp].
  cbn [flat_map]. rewrite (IH Hp). unfold expandRequirementRange.
  now rewrite (noWhiteSpace_no_match r Hr).
Qed.

Lemma expandAll_plain_ids_witness :
  expandAllRequirements ["REQ-001"; "through"; "REQ-01-02"]
  = ["REQ-001"; "through"; "REQ-01-02"].
Proof.
  apply (proj2 (expandAll_plain_ids ["REQ-001"; "through"; "REQ-01-02"])).
  vm_compute. reflexivity.
Defined.

(** ** Ranges with numbers of equal width *)

Lemma greedyStar_complete {R} (p : ascii -> bool) (taken : list ascii) :
  forall (s rest : list ascii) (k : list ascii -> list ascii -> option R),
    s = taken ++ rest ->
    forallb p taken = true ->
    k taken rest <> None ->
    greedyStar p s k <> None.
Proof.
  induction taken as [|c taken IH]; intros s rest k -> Hp Hk.
  - cbn [app]. destruct rest as [|c rest]; [exact Hk|].
    cbn [greedyStar]. destruct (p c); [|exact Hk].
    destruct (greedyStar p rest (fun t r => k (c :: t) r));
      [discriminate | exact Hk].
  - cbn [forallb] in Hp. apply andb_prop in Hp. destruct Hp as [Hc Hp].
    cbn [app greedyStar]. rewrite Hc.
    pose proof (IH (taken ++ rest) rest (fun t r => k (c :: t) r)
                   eq_refl Hp Hk) as Hs.
    destruct (greedyStar p (taken ++ rest) (fun t r => k (c :: t) r));
      [discriminate | contradiction].
Qed.

Lemma greedyPlus_complete {R} (p : ascii -> bool) (taken rest : list ascii)
    (k : list ascii -> list ascii -> option R) :
  taken <> [] ->
  forallb p taken = true ->
  k taken rest <> None ->
  greedyPlus p (taken ++ rest) k <> None.
Proof.
  intros Hne Hp Hk. destruct taken as [|c taken]; [contradiction|].
  cbn [forallb] in Hp. apply andb_prop in Hp. destruct Hp as [Hc Hp].
  cbn [app greedyPlus]. rewrite Hc.
  now apply (greedyStar_complete p taken (taken ++ rest) rest).
Qed.

Lemma optionalDash_complete {R} (s : list ascii)
    (k : list ascii -> list ascii -> option R) :
  k [] s <> None -> optionalDash s k <> None.
Proof.
  intros Hk. unfold optionalDash. destruct s as [|c s]; [exact Hk|].
  destruct (JsString.code c =? 45)%N; [|exact Hk].
  destruct (k [c] s); [discriminate | exact Hk].
Qed.

Lemma matchFolded_same (pat rest : list ascii) :
  matchFolded pat (pat ++ rest) = Some rest.
Proof.
  induction pat as [|a pat IH]; [reflexivity|].
  cbn [app matchFolded]. now rewrite Ascii.eqb_refl.
Qed.

Lemma matchRange_complete (P d1 d2 : list ascii) :
  P <> [] -> forallb JsString.isDot P = true ->
  d1 <> [] -> forallb JsString.isDigit d1 = true ->
  d2 <> [] -> forallb JsString.isDigit d2 = true ->
  matchRange (P ++ d1 ++ JsString.chars " through " ++ P ++ d2) <> None.
Proof.
  intros HP HPd H1 H1d H2 H2d. unfold matchRange.
  apply greedyPlus_complete; [exact HP | exact HPd |].
  apply optionalDash_complete. rewrite app_nil_r.
  apply greedyPlus_complete; [exact H1 | exact H1d |].
  change (JsString.chars " through " ++ P ++ d2)
    with ([" "%char] ++ (JsString.chars "through" ++ [" "%char] ++ P ++ d2)).
  apply greedyPlus_complete; [discriminate | reflexivity |].
  rewrite matchFolded_same.
  apply greedyPlus_complete; [discriminate | reflexivity |].
  rewrite matchFolded_same.
  rewrite <- (app_nil_r d2).
  apply greedyPlus_complete; [exact H2 | exact H2d |]. discriminate.
Qed.

Lemma digit_not_space (c : ascii) :
  JsString.isDigit c = true ->
  JsString.isWhiteSpace c = false /\ JsString.canonicalize c = c.
Proof.
  destruct c as [[] [] [] [] [] [] [] []]; intros Hd;
    try discriminate Hd; split; reflexivity.
Qed.

Lemma space_canonical (c : ascii) :
  JsString.isWhiteSpace c = true -> JsString.canonicalize c = c.
Proof.
  destruct c as [[] [] [] [] [] [] [] []]; intros Hd;
    try discriminate Hd; reflexivity.
Qed.

Lemma through_not_space (word : list ascii) :
  sameFolded (JsString.chars "through") word ->
  forallb (fun c => negb (JsString.isWhiteSpace c)) word = true.
Proof.
  unfold sameFolded. intros E.
  assert (Hall : Forall (fun x => JsString.isWhiteSpace x = false)
                        (map JsString.canonicalize word)).
  { rewrite <- E. repeat constructor. }
  clear E. induction word as [|c word IH]; [reflexivity|].
  cbn [map] in Hall. inversion Hall as [|? ? Hc Hw]; subst.
  cbn [forallb]. rewrite (IH Hw), andb_true_r.
  destruct (JsString.isWhiteSpace c) eqn:W; [|reflexivity].
  rewrite (space_canonical c W) in Hc. congruence.
Qed.

Lemma first_space_unique (l1 : list ascii) :
  forall l2 r1 r2 w1 w2,
    forallb (fun c => negb (JsString.isWhiteSpace c)) l1 = true ->
    forallb (fun c => negb (JsString.isWhiteSpace c)) l2 = true ->
    JsString.isWhiteSpace w1 = true ->
    JsString.isWhiteSpace w2 = true ->
    l1 ++ w1 :: r1 = l2 ++ w2 :: r2 ->
    l1 = l2 /\ w1 = w2 /\ r1 = r2.
Proof.
  induction l1 as [|a l1 IH]; intros l2 r1 r2 w1 w2 H1 H2 W1 W2 E.
  - destruct l2 as [|b l2].
    + injection E as -> ->. auto.
    + cbn [app] in E. injection E as <- _.
      cbn [forallb] in H2. rewrite W1 in H2. discriminate.
  - destruct l2 as [|b l2].
    + cbn [app] in E. injection E as -> _.
      cbn [forallb] in H1. rewrite W2 in H1. discriminate.
    + cbn [app] in E. injection E as <- E.
      cbn [forallb] in H1, H2.
      apply andb_prop in H1. apply andb_prop in H2.
      destruct (IH l2 r1 r2 w1 w2 (proj2 H1) (proj2 H2) W1 W2 E)
        as (-> & -> & ->).
      auto.
Qed.

Lemma filter_nil_forallb {A} (P : A -> bool) (l : list A) :
  filter P l = [] -> forallb (fun x => negb (P x)) l = true.
Proof.
  induction l as [|x l IH]; [reflexivity|].
  cbn [filter forallb]. destruct (P x); [discriminate|].
  intros E. now rewrite (IH E).
Qed.

Lemma forallb_filter_nil {A} (P : A -> bool) (l : list A) :
  forallb (fun x => negb (P x)) l = true -> filter P l = [].
Proof.
  induction l as [|x l IH]; [reflexivity|].
  cbn [filter forallb]. destruct (P x); [discriminate|]. exact IH.
Qed.

Lemma filter_all_true {A} (P : A -> bool) (l : list A) :
  forallb P l = true -> filter P l = l.
Proof.
  induction l as [|x l IH]; [reflexivity|].
  cbn [filter forallb]. destruct (P x); [|discriminate].
  intros E. now rewrite (IH E).
Qed.

Lemma digits_no_space (d : list ascii) :
  forallb JsString.isDigit d = true ->
  forallb (fun c => negb (JsString.isWhiteSpace c)) d = true.
Proof.
  induction d as [|c d IH]; [reflexivity|].
  cbn [forallb]. intros H. apply andb_prop in H. destruct H as [Hc Hd].
  destruct (digit_not_space c Hc) as [-> _]. now rewrite (IH Hd).
Qed.

Lemma digits_canonical (d : list ascii) :
  forallb JsString.isDigit d = true -> map JsString.canonicalize d = d.
Proof.
  induction d as [|c d IH]; [reflexivity|].
  cbn [forallb map]. intros H. apply andb_prop in H. destruct H as [Hc Hd].
  destruct (digit_not_space c Hc) as [_ ->]. now rewrite (IH Hd).
Qed.

Lemma digit_suffix_split (g1 g2 P d : list ascii) :
  g1 ++ g2 = P ++ d ->
  forallb JsString.isDigit g2 = true ->
  endsWithoutDigit P = true ->
  exists c, g1 = P ++ c /\ d = c ++ g2.
Proof.
  intros E Hg HP. apply app_eq_app in E.
  destruct E as (l & [[-> ->]|[-> ->]]).
  - now exists l.
  - destruct l as [|z l] using rev_ind.
    + exists []. now rewrite !app_nil_r.
    + exfalso. clear IHl. unfold endsWithoutDigit in HP.
      rewrite app_assoc, rev_app_distr in HP. cbn [rev app] in HP.
      rewrite !forallb_app in Hg.
      apply andb_prop in Hg. destruct Hg as [Hg _].
      apply andb_prop in Hg. destruct Hg as [_ Hz]. cbn [forallb] in Hz.
      rewrite andb_true_r in Hz. rewrite Hz in HP. discriminate.
Qed.

(** Every way in which the pattern matches a range written with one
    prefix and two numbers of the same width splits the numbers after a
    common run of leading digits. *)
Lemma equal_width_match (P d1 d2 g1 g2 g3 : list ascii) :
  forallb (fun c => negb (JsString.isWhiteSpace c)) P = true ->
  endsWithoutDigit P = true ->
  forallb JsString.isDigit d1 = true ->
  forallb JsString.isDigit d2 = true ->
  rangeShape (P ++ d1 ++ JsString.chars " through " ++ P ++ d2) g1 g2 g3 ->
  exists c, g1 = P ++ c /\ d1 = c ++ g2 /\ d2 = c ++ g3
            /\ g2 <> [] /\ g3 <> []
            /\ forallb JsString.isDigit c = true
            /\ forallb JsString.isDigit g2 = true
            /\ forallb JsString.isDigit g3 = true.
Proof.
  intros HP HPe H1 H2 (ws1 & word & ws2 & g1' & E & [_ _] & [Hn2 Hg2]
                       & [Hw1n Hw1] & Hword & [Hw2n Hw2] & Hback
                       & [Hn3 Hg3]).
  pose proof (through_not_space word Hword) as Hwordns.
  pose proof (digits_no_space _ H1) as H1ns.
  pose proof (digits_no_space _ H2) as H2ns.
  pose proof (digits_no_space _ Hg2) as Hg2ns.
  pose proof (digits_no_space _ Hg3) as Hg3ns.
  (* count the white space on both sides *)
  pose proof (f_equal (filter JsString.isWhiteSpace) E) as C.
  rewrite !filter_app in C.
  rewrite (forallb_filter_nil _ P HP), (forallb_filter_nil _ d1 H1ns),
    (forallb_filter_nil _ d2 H2ns), (forallb_filter_nil _ g2 Hg2ns),
    (forallb_filter_nil _ g3 Hg3ns), (forallb_filter_nil _ word Hwordns),
    (filter_all_true _ ws1 Hw1), (filter_all_true _ ws2 Hw2) in C.
  cbn [app] in C. rewrite app_nil_r in C.
  change (filter JsString.isWhiteSpace (JsString.chars " through "))
    with [" "%char; " "%char] in C. cbn [app] in C.
  pose proof (f_equal (@List.length ascii) C) as L.
  rewrite !length_app in L. cbn [List.length] in L.
  destruct ws1 as [|w1 ws1]; [contradiction|].
  destruct ws2 as [|w2 ws2]; [contradiction|].
  cbn [List.length] in L.
  assert (Lg1 : List.length (filter JsString.isWhiteSpace g1) = 0%nat) by lia.
  assert (Lg1' : List.length (filter JsString.isWhiteSpace g1') = 0%nat)
    by lia.
  assert (ws1 = []) by (destruct ws1; [reflexivity | cbn in L; lia]).
  assert (ws2 = []) by (destruct ws2; [reflexivity | cbn in L; lia]).
  subst ws1 ws2.
  apply length_zero_iff_nil in Lg1, Lg1'.
  apply filter_nil_forallb in Lg1, Lg1'.
  cbn [forallb] in Hw1, Hw2. rewrite andb_true_r in Hw1, Hw2.
  (* the first white space *)
  assert (E1 : (P ++ d1) ++ " "%char
                 :: (JsString.chars "through" ++ " "%char :: P ++ d2)
               = (g1 ++ g2) ++ w1 :: (word ++ w2 :: g1' ++ g3)).
  { rewrite <- !app_assoc. exact E. }
  apply first_space_unique in E1;
    [| now rewrite forallb_app, HP, H1ns
     | now rewrite forallb_app, Lg1, Hg2ns | reflexivity | exact Hw1].
  destruct E1 as (Ea & _ & E2).
  apply first_space_unique in E2;
    [| reflexivity | exact Hwordns | reflexivity | exact Hw2].
  destruct E2 as (_ & _ & Eb).
  symmetry in Ea, Eb.
  destruct (digit_suffix_split g1 g2 P d1 Ea Hg2 HPe) as (c & -> & ->).
  destruct (digit_suffix_split g1' g3 P d2 Eb Hg3 HPe) as (c' & -> & ->).
  rewrite forallb_app in H1, H2.
  apply andb_prop in H1. apply andb_prop in H2.
  destruct H1 as [Hc _], H2 as [Hc' _].
  unfold sameFolded in Hback. rewrite !map_app in Hback.
  apply app_inv_head in Hback.
  rewrite (digits_canonical c Hc), (digits_canonical c' Hc') in Hback.
  subst c'. exists c. repeat split; auto.
Qed.
Lemma parseInt10_from (g : list ascii) :
  forall a,
    fold_left (fun acc c => 10 * acc + JsString.digitValue c) g a
    = a * 10 ^ Z.of_nat (List.length g) + JsString.parseInt10 g.
Proof.
  unfold JsString.parseInt10.
  induction g as [|c g IH]; intros a.
  - cbn [fold_left List.length]. change (Z.of_nat 0) with 0. lia.
  - cbn [fold_left List.length]. rewrite (IH (10 * a + _)), (IH (10 * 0 + _)).
    rewrite Nat2Z.inj_succ, Z.pow_succ_r by lia. ring.
Qed.

Lemma parseInt10_app (c g : list ascii) :
  JsString.parseInt10 (c ++ g)
  = JsString.parseInt10 c * 10 ^ Z.of_nat (List.length g)
    + JsString.parseInt10 g.
Proof.
  unfold JsString.parseInt10 at 1. rewrite fold_left_app.
  apply parseInt10_from.
Qed.

Lemma parseInt10_bounds (g : list ascii) :
  forallb JsString.isDigit g = true ->
  0 <= JsString.parseInt10 g < 10 ^ Z.of_nat (List.length g).
Proof.
  induction g as [|c g IH] using rev_ind; intros Hd.
  - cbn. lia.
  - rewrite forallb_app in Hd. apply andb_prop in Hd. destruct Hd as [Hg Hc].
    cbn [forallb] in Hc. rewrite andb_true_r in Hc.
    destruct (digit_cases c Hc) as [Hr _]. specialize (IH Hg).
    rewrite parseInt10_app, length_app. cbn [List.length].
    change (JsString.parseInt10 [c]) with (10 * 0 + JsString.digitValue c).
    rewrite Nat2Z.inj_add. change (Z.of_nat 1) with 1.
    rewrite Z.pow_add_r by lia. lia.
Qed.

Lemma digit_exists (r : Z) :
  0 <= r <= 9 ->
  exists ch, JsString.isDigit ch = true /\ JsString.digitValue ch = r.
Proof.
  intros Hr.
  assert (H : r = 0 \/ r = 1 \/ r = 2 \/ r = 3 \/ r = 4 \/ r = 5 \/ r = 6
              \/ r = 7 \/ r = 8 \/ r = 9) by lia.
  destruct H as [->|[->|[->|[->|[->|[->|[->|[->|[->| ->]]]]]]]]].
  - now exists "0"%char.
  - now exists "1"%char.
  - now exists "2"%char.
  - now exists "3"%char.
  - now exists "4"%char.
  - now exists "5"%char.
  - now exists "6"%char.
  - now exists "7"%char.
  - now exists "8"%char.
  - now exists "9"%char.
Qed.

Lemma digits_exist (m : nat) :
  forall i,
    0 <= i < 10 ^ Z.of_nat m ->
    exists g, List.length g = m /\ forallb JsString.isDigit g = true
              /\ JsString.parseInt10 g = i.
Proof.
  induction m as [|m IH]; intros i Hi.
  - exists []. cbn in Hi. repeat split. cbn. lia.
  - rewrite Nat2Z.inj_succ, Z.pow_succ_r in Hi by lia.
    destruct (IH (i / 10)) as (g & Hlen & Hd & Hv).
    { split; [apply Z.div_pos; lia|]. apply Z.div_lt_upper_bound; lia. }
    destruct (digit_exists (i mod 10)) as (ch & Hch & Hval).
    { pose proof (Z.mod_pos_bound i 10 ltac:(lia)). lia. }
    exists (g ++ [ch]). repeat split.
    + rewrite length_app. cbn [List.length]. lia.
    + rewrite forallb_app, Hd. cbn [forallb]. now rewrite Hch.
    + rewrite parseInt10_app. cbn [List.length].
      change (JsString.parseInt10 [ch]) with (10 * 0 + JsString.digitValue ch).
      rewrite Hv, Hval. change (10 ^ Z.of_nat 1) with 10.
      pose proof (Z.div_mod i 10 ltac:(lia)). lia.
Qed.

Lemma str_app (a b : list ascii) :
  JsString.str (a ++ b) = (JsString.str a ++ JsString.str b)%string.
Proof.
  unfold JsString.str. induction a as [|c a IH]; [reflexivity|].
  cbn. now rewrite IH.
Qed.

Lemma pad_shift (c : list ascii) (m : nat) (i : Z) :
  forallb JsString.isDigit c = true ->
  (0 < m)%nat ->
  0 <= i < 10 ^ Z.of_nat m ->
  JsString.padStart0 (List.length c + m)
    (JsString.ofNumber (JsString.parseInt10 c * 10 ^ Z.of_nat m + i))
  = (JsString.str c ++ JsString.padStart0 m (JsString.ofNumber i))%string.
Proof.
  intros Hc Hm Hi. destruct (digits_exist m i Hi) as (g & Hlen & Hg & Hv).
  assert (Hgne : g <> []) by (intros ->; cbn in Hlen; lia).
  rewrite <- Hv, <- Hlen, <- parseInt10_app, <- length_app.
  rewrite pad_parseInt.
  - rewrite (pad_parseInt g Hgne Hg). apply str_app.
  - destruct c; [exact Hgne | discriminate].
  - now rewrite forallb_app, Hc, Hg.
Qed.

Lemma space_or_dot (c : ascii) :
  JsString.isWhiteSpace c = false -> JsString.isDot c = true.
Proof.
  destruct c as [[] [] [] [] [] [] [] []]; intros Hd;
    try discriminate Hd; reflexivity.
Qed.

Lemma length_chars (s : string) :
  List.length (JsString.chars s) = String.length s.
Proof.
  unfold JsString.chars. induction s as [|c s IH]; [reflexivity|].
  cbn. now rewrite IH.
Qed.

Lemma numbersFromTo_shift (K a b : Z) :
  numbersFromTo (K + a) (K + b) = map (Z.add K) (numbersFromTo a b).
Proof.
  unfold numbersFromTo. rewrite map_map.
  replace (K + b - (K + a) + 1) with (b - a + 1) by lia.
  apply map_ext. intros i. lia.
Qed.

Lemma numbersFromTo_In (a b i : Z) :
  In i (numbersFromTo a b) -> a <= i <= b.
Proof.
  unfold numbersFromTo. intros Hin. apply in_map_iff in Hin.
  destruct Hin as (n & <- & Hn). apply in_seq in Hn. lia.
Qed.

Lemma string_append_assoc (a b c : string) :
  ((a ++ b) ++ c)%string = (a ++ (b ++ c))%string.
Proof.
  induction a as [|x a IH]; [reflexivity|]. cbn. now rewrite IH.
Qed.

(** X19.  A range written with one prefix and two numbers of the same
    number of digits expands as its text says: when the prefix holds no
    white space and does not end in a digit, and start <= end < 2^53,
    [expandRequirementRange] returns the prefix followed by each integer
    from start to end, zero-padded to the width of the start number. *)
Theorem equal_width_expansion (P d1 d2 : string) :
  noWhiteSpace P = true ->
  endsWithoutDigit (JsString.chars P) = true ->
  d1 <> ""%string ->
  forallb JsString.isDigit (JsString.chars d1) = true ->
  forallb JsString.isDigit (JsString.chars d2) = true ->
  String.length d1 = String.length d2 ->
  JsString.parseInt10 (JsString.chars d1)
  <= JsString.parseInt10 (JsString.chars d2) < 2 ^ 53 ->
  expandRequirementRange (P ++ d1 ++ " through " ++ P ++ d2)%string
  = map (fun i =>
           (P ++ JsString.padStart0 (String.length d1)
                                    (JsString.ofNumber i))%string)
        (numbersFromTo (JsString.parseInt10 (JsString.chars d1))
                       (JsString.parseInt10 (JsString.chars d2))).
Proof.
  intros HP HPe Hne H1 H2 Hlen [Hle _].
  assert (Hchars :
    JsString.chars (P ++ d1 ++ " through " ++ P ++ d2)%string
    = JsString.chars P ++ JsString.chars d1 ++ JsString.chars " through "
      ++ JsString.chars P ++ JsString.chars d2).
  { now rewrite !IndexerMore.chars_append. }
  assert (HPne : JsString.chars P <> []).
  { intros E. rewrite E in HPe. discriminate HPe. }
  assert (HPdot : forallb JsString.isDot (JsString.chars P) = true).
  { unfold noWhiteSpace in HP. clear -HP.
    induction (JsString.chars P) as [|c l IH]; [reflexivity|].
    cbn [forallb] in *. apply andb_prop in HP. destruct HP as [Hc Hl].
    apply negb_true_iff in Hc. now rewrite (space_or_dot c Hc), (IH Hl). }
  assert (H1ne : JsString.chars d1 <> []).
  { intros E. apply Hne. rewrite <- (IndexerMore.str_chars d1), E.
    reflexivity. }
  assert (H2ne : JsString.chars d2 <> []).
  { intros E. apply H1ne. apply length_zero_iff_nil.
    rewrite length_chars, Hlen, <- length_chars, E. reflexivity. }
  pose proof (matchRange_complete _ _ _ HPne HPdot H1ne H1 H2ne H2) as Hm.
  unfold expandRequirementRange. rewrite Hchars.
  destruct (matchRange _) as [[[g1 g2] g3]|] eqn:M; [|contradiction].
  apply matchRange_shape in M.
  destruct (equal_width_match _ _ _ _ _ _ HP HPe H1 H2 M)
    as (c & -> & E1 & E2 & Hn2 & Hn3 & Hc & Hg2 & Hg3).
  assert (Hglen : List.length g3 = List.length g2).
  { pose proof (f_equal (@List.length ascii) E1) as L1.
    pose proof (f_equal (@List.length ascii) E2) as L2.
    rewrite length_app, length_chars in L1, L2. lia. }
  rewrite E1, E2, !parseInt10_app, Hglen.
  set (T := 10 ^ Z.of_nat (List.length g2)).
  set (C := JsString.parseInt10 c).
  rewrite E1, E2, !parseInt10_app, Hglen in Hle. fold T C in Hle.
  pose proof (parseInt10_bounds g2 Hg2) as B2.
  pose proof (parseInt10_bounds g3 Hg3) as B3.
  rewrite Hglen in B3. fold T in B2, B3.
  destruct (JsString.parseInt10 g3 <? JsString.parseInt10 g2) eqn:Lt;
    [apply Z.ltb_lt in Lt; lia|].
  rewrite numbersFromTo_shift, map_map. apply map_ext_in. intros i Hi.
  apply numbersFromTo_In in Hi.
  cbv beta. rewrite <- length_chars, E1, length_app.
  unfold C, T.
  rewrite (pad_shift c (List.length g2) i Hc);
    [| destruct g2; [contradiction | cbn; lia] | fold T; lia].
  rewrite str_app, IndexerMore.str_chars.
  now rewrite string_append_assoc.
Qed.

Lemma equal_width_expansion_witness :
  expandRequirementRange "REQ-CORE-FN-001 through REQ-CORE-FN-051"
  = map (fun i =>
           ("REQ-CORE-FN-" ++ JsString.padStart0 3 (JsString.ofNumber i))%string)
        (numbersFromTo 1 51).
Proof.
  apply (equal_width_expansion "REQ-CORE-FN-" "001" "051").
  - reflexivity.
  - reflexivity.
  - discriminate.
  - reflexivity.
  - reflexivity.
  - reflexivity.
  - vm_compute. split; [discriminate | reflexivity].
Defined.

End ParserMore.

(* ================================================================== *)
(** * More on the dashboard *)
(* ================================================================== *)

Module DashboardMore.
Import Dashboard.

(** ** Phase order *)

Lemma indexOfFrom_notIn (x : string) (l : list string) :
  forall i, ~ In x l -> indexOfFrom i x l = -1.
Proof.
  induction l as [|y l IH]; intros i Hn; [reflexivity|].
  cbn [indexOfFrom]. destruct (String.eqb_spec y x) as [->|Hne].
  - exfalso. apply Hn. now left.
  - apply IH. intros Hin. apply Hn. now right.
Qed.

Lemma indexOfFrom_In (x : string) (l : list string) :
  forall i, In x l -> i <= indexOfFrom i x l.
Proof.
  induction l as [|y l IH]; intros i Hin; [contradiction|].
  cbn [indexOfFrom]. destruct (String.eqb_spec y x) as [->|Hne]; [lia|].
  destruct Hin as [->|Hin]; [contradiction|].
  specialize (IH (i + 1) Hin). lia.
Qed.

Lemma indexOfFrom_app (x : string) (pre l : list string) :
  forall i,
    ~ In x pre ->
    indexOfFrom i x (pre ++ l) = indexOfFrom (i + Z.of_nat (List.length pre)) x l.
Proof.
  induction pre as [|y pre IH]; intros i Hn.
  - cbn. now rewrite Z.add_0_r.
  - cbn [app indexOfFrom]. destruct (String.eqb_spec y x) as [->|Hne].
    + exfalso. apply Hn. now left.
    + rewrite IH by (intros Hin; apply Hn; now right).
      f_equal. cbn [List.length]. lia.
Qed.

Lemma isKnownPhase_In (p : string) :
  isKnownPhase p = true <-> In p CANONICAL_PHASE_ORDER.
Proof.
  unfold isKnownPhase, indexOf. split.
  - intros Hk. apply Z.leb_le in Hk.
    destruct (in_dec string_dec p CANONICAL_PHASE_ORDER) as [Hin|Hn];
      [exact Hin|].
    rewrite (indexOfFrom_notIn p _ 0 Hn) in Hk. lia.
  - intros Hin. apply Z.leb_le. now apply indexOfFrom_In.
Qed.

Lemma canonical_NoDup : NoDup CANONICAL_PHASE_ORDER.
Proof.
  unfold CANONICAL_PHASE_ORDER.
  repeat (constructor; [cbn [In]; intuition discriminate|]). constructor.
Qed.

(** Positions in the canonical order. *)
Lemma canonical_positions (pre rest : list string) (y z : string) :
  CANONICAL_PHASE_ORDER = pre ++ y :: rest ->
  In z rest ->
  indexOf y CANONICAL_PHASE_ORDER = Z.of_nat (List.length pre)
  /\ Z.of_nat (List.length pre) < indexOf z CANONICAL_PHASE_ORDER.
Proof.
  intros E Hz. pose proof canonical_NoDup as Hnd. rewrite E in Hnd.
  unfold indexOf. rewrite E.
  assert (Hy : ~ In y pre).
  { intros Hin. apply NoDup_remove_2 in Hnd. apply Hnd.
    apply in_or_app. now left. }
  assert (Hzy : z <> y).
  { intros ->. apply NoDup_remove_2 in Hnd. apply Hnd.
    apply in_or_app. now right. }
  assert (Hzp : ~ In z pre).
  { intros Hin. apply NoDup_app_remove_r in Hnd as Hp.
    clear Hp. revert Hnd Hin Hz. clear. induction pre as [|a pre IH].
    - contradiction.
    - cbn [app]. intros Hnd [->|Hin] Hz.
      + inversion Hnd as [|? ? Hn _]. apply Hn.
        apply in_or_app. right. now right.
      + inversion Hnd. now apply IH. }
  split.
  - rewrite indexOfFrom_app by exact Hy. cbn [indexOfFrom].
    rewrite String.eqb_refl. lia.
  - rewrite indexOfFrom_app by exact Hzp. cbn [indexOfFrom].
    destruct (String.eqb_spec y z) as [<-|_]; [contradiction|].
    pose proof (indexOfFrom_In z rest
                  (0 + Z.of_nat (List.length pre) + 1) Hz).
    lia.
Qed.

Section PhaseOrder.
Variable localeCompare : string -> string -> Z.

Lemma comparePhases_known (a b : string) :
  isKnownPhase a = true -> isKnownPhase b = true ->
  comparePhases localeCompare a b
  = indexOf a CANONICAL_PHASE_ORDER - indexOf b CANONICAL_PHASE_ORDER.
Proof.
  unfold isKnownPhase, comparePhases. intros -> ->. reflexivity.
Qed.

Lemma comparePhases_known_unknown (a b : string) :
  isKnownPhase a = true -> isKnownPhase b = false ->
  comparePhases localeCompare a b = -1.
Proof.
  unfold isKnownPhase, comparePhases. intros -> ->. reflexivity.
Qed.

Lemma comparePhases_unknown_known (a b : string) :
  isKnownPhase a = false -> isKnownPhase b = true ->
  comparePhases localeCompare a b = 1.
Proof.
  unfold isKnownPhase, comparePhases. intros -> ->. reflexivity.
Qed.

Lemma comparePhases_unknown (a b : string) :
  isKnownPhase a = false -> isKnownPhase b = false ->
  comparePhases localeCompare a b = localeCompare a b.
Proof.
  unfold isKnownPhase, comparePhases. intros -> ->. reflexivity.
Qed.

Lemma insert_unknown (x : string) (K U : list string) :
  isKnownPhase x = false ->
  Forall (fun p => isKnownPhase p = true) K ->
  Forall (fun p => isKnownPhase p = false) U ->
  insertSorted (comparePhases localeCompare) x (K ++ U)
  = K ++ insertSorted localeCompare x U.
Proof.
  intros Hx HK HU. induction K as [|y K IH].
  - cbn [app]. induction U as [|u U IHU]; [reflexivity|].
    inversion HU as [|? ? Hu HU']; subst. cbn [insertSorted].
    rewrite (comparePhases_unknown x u Hx Hu).
    destruct (localeCompare x u <=? 0); [reflexivity|].
    now rewrite (IHU HU').
  - inversion HK as [|? ? Hy HK']; subst. cbn [app insertSorted].
    rewrite (comparePhases_unknown_known x y Hx Hy).
    cbn. now rewrite (IH HK').
Qed.

Lemma has_cons_other (c x : string) (T : list string) :
  c <> x -> JsSet.has c (x :: T) = JsSet.has c T.
Proof.
  intros Hne. unfold JsSet.has. cbn [existsb keyb Key_string].
  destruct (String.eqb_spec c x); [contradiction|reflexivity].
Qed.

Lemma insert_known (x : string) (T U : list string) :
  JsSet.has x T = false ->
  Forall (fun p => isKnownPhase p = false) U ->
  forall pre suffix,
    CANONICAL_PHASE_ORDER = pre ++ suffix ->
    In x suffix ->
    insertSorted (comparePhases localeCompare) x
      (filter (fun c => JsSet.has c T) suffix ++ U)
    = filter (fun c => JsSet.has c (x :: T)) suffix ++ U.
Proof.
  intros HxT HU pre suffix. revert pre.
  induction suffix as [|y rest IH]; intros pre E Hin; [contradiction|].
  assert (Hxk : isKnownPhase x = true).
  { apply isKnownPhase_In. rewrite E. apply in_or_app. now right. }
  assert (Hrest : forall z, In z rest -> z <> y).
  { intros z Hz ->. pose proof canonical_NoDup as Hnd. rewrite E in Hnd.
    apply NoDup_remove_2 in Hnd. apply Hnd. apply in_or_app. now right. }
  cbn [filter]. destruct (String.eqb_spec y x) as [->|Hne].
  - (* x is the head of the suffix *)
    rewrite HxT.
    assert (Hhas : JsSet.has x (x :: T) = true).
    { unfold JsSet.has. cbn [existsb keyb Key_string].
      now rewrite String.eqb_refl. }
    rewrite Hhas.
    assert (Hf : filter (fun c => JsSet.has c (x :: T)) rest
                 = filter (fun c => JsSet.has c T) rest).
    { apply filter_ext_in. intros c Hc. apply has_cons_other.
      now apply Hrest. }
    rewrite Hf. cbn [app].
    destruct (filter (fun c => JsSet.has c T) rest) as [|z zs] eqn:F.
    + cbn [app]. destruct U as [|u U']; [reflexivity|].
      inversion HU as [|? ? Hu _]; subst. cbn [insertSorted].
      now rewrite (comparePhases_known_unknown x u Hxk Hu).
    + assert (Hz : In z rest).
      { assert (Hz : In z (z :: zs)) by now left.
        rewrite <- F in Hz. now apply filter_In in Hz. }
      assert (Hzk : isKnownPhase z = true).
      { apply isKnownPhase_In. rewrite E. apply in_or_app. right. now right. }
      destruct (canonical_positions pre rest x z E Hz) as [Ex Ez].
      cbn [app insertSorted].
      rewrite (comparePhases_known x z Hxk Hzk).
      destruct (indexOf x CANONICAL_PHASE_ORDER
                - indexOf z CANONICAL_PHASE_ORDER <=? 0) eqn:L;
        [reflexivity|]. apply Z.leb_gt in L. lia.
  - (* x lies further down *)
    destruct Hin as [->|Hin]; [contradiction|].
    rewrite (has_cons_other y x T Hne).
    assert (E' : CANONICAL_PHASE_ORDER = (pre ++ [y]) ++ rest)
      by (now rewrite <- app_assoc).
    destruct (JsSet.has y T) eqn:Hy.
    + assert (Hyk : isKnownPhase y = true).
      { apply isKnownPhase_In. rewrite E. apply in_or_app. right. now left. }
      destruct (canonical_positions pre rest y x E Hin) as [Ey Ex].
      cbn [app insertSorted].
      rewrite (comparePhases_known x y Hxk Hyk).
      destruct (indexOf x CANONICAL_PHASE_ORDER
                - indexOf y CANONICAL_PHASE_ORDER <=? 0) eqn:L;
        [apply Z.leb_le in L; lia|].
      now rewrite (IH (pre ++ [y]) E' Hin).
    + exact (IH (pre ++ [y]) E' Hin).
Qed.

Lemma sortPhases_split (phases : list string) :
  NoDup phases ->
  sortPhases localeCompare phases
  = filter (fun c => JsSet.has c phases) CANONICAL_PHASE_ORDER
    ++ stableSort localeCompare
         (filter (fun p => negb (isKnownPhase p)) phases).
Proof.
  unfold sortPhases. induction phases as [|x T IH]; intros Hnd.
  - cbn. induction CANONICAL_PHASE_ORDER; [reflexivity|assumption].
  - inversion Hnd as [|? ? Hx HT]; subst.
    change (stableSort (comparePhases localeCompare) (x :: T))
      with (insertSorted (comparePhases localeCompare) x
              (stableSort (comparePhases localeCompare) T)).
    rewrite (IH HT).
    assert (HU : Forall (fun p => isKnownPhase p = false)
                   (stableSort localeCompare
                      (filter (fun p => negb (isKnownPhase p)) T))).
    { apply Forall_forall. intros p Hp.
      apply DashboardProps.stableSort_In in Hp.
      apply filter_In in Hp. destruct Hp as [_ Hp].
      now apply negb_true_iff in Hp. }
    cbn [filter]. destruct (isKnownPhase x) eqn:Hk; cbn [negb].
    + apply isKnownPhase_In in Hk.
      apply (insert_known x T _ (proj2 (set_has_not_In x T) Hx) HU []
               CANONICAL_PHASE_ORDER eq_refl Hk).
    + rewrite insert_unknown; [|exact Hk| |exact HU].
      * change (stableSort localeCompare
                  (x :: filter (fun p => negb (isKnownPhase p)) T))
          with (insertSorted localeCompare x
                  (stableSort localeCompare
                     (filter (fun p => negb (isKnownPhase p)) T))).
        f_equal. apply filter_ext_in. intros c Hc. symmetry.
        apply has_cons_other. intros ->.
        apply isKnownPhase_In in Hc. congruence.
      * apply Forall_forall. intros p Hp. apply filter_In in Hp.
        apply isKnownPhase_In. tauto.
Qed.

(** X20.  For a list of distinct phase names, [sortPhases] returns first
    the canonical phases that occur in the list, in canonical order, and
    then the other names in the order that sorting them with
    [localeCompare] alone gives. *)
Theorem sortPhases_structure (phases : list string) :
  NoDup phases ->
  sortPhases localeCompare phases
  = filter (fun c => JsSet.has c phases) CANONICAL_PHASE_ORDER
    ++ stableSort localeCompare
         (filter (fun p => negb (isKnownPhase p)) phases).
Proof. exact (sortPhases_split phases). Qed.

End PhaseOrder.

Lemma sortPhases_structure_witness :
  sortPhases codeUnitCompare ["testing"; "zeta"; "design"; "alpha"]
  = ["design"; "testing"] ++ ["alpha"; "zeta"].
Proof.
  apply (sortPhases_structure codeUnitCompare
           ["testing"; "zeta"; "design"; "alpha"]).
  repeat (constructor; [cbn [In]; intuition discriminate|]). constructor.
Defined.

(** ** Percentages *)

Lemma roundHalfEven_le (a b k : Z) :
  0 <= a -> 0 < b -> a <= k * b -> Double.roundHalfEven a b <= k.
Proof.
  intros Ha Hb Hk. unfold Double.roundHalfEven.
  pose proof (Z.div_mod a b ltac:(lia)) as E.
  pose proof (Z.mod_pos_bound a b Hb) as Hr.
  set (q := a / b) in *. set (r := a mod b) in *.
  assert (Hq : q <= k) by nia.
  destruct (2 * r <? b) eqn:L1; [exact Hq|].
  apply Z.ltb_ge in L1.
  assert (q < k) by nia.
  destruct (b <? 2 * r); [lia|]. destruct (Z.even q); lia.
Qed.

(** The exponent that [ofFraction] chooses is below zero whenever the
    fraction is below 2^52, and the mantissa respects an upper bound of the
    fraction that is a multiple of the last place. *)
Lemma ofFraction_le (n d k : Z) :
  0 < n -> 0 < d -> n <= k * d -> 0 < k <= 2 ^ 7 ->
  let v := Double.ofFraction n d in
  Double.expo v < 0 /\ Double.mant v <= k * 2 ^ (- Double.expo v).
Proof.
  intros Hn Hd Hk Hk7. cbv zeta. unfold Double.ofFraction.
  destruct (n =? 0) eqn:N0; [apply Z.eqb_eq in N0; lia|].
  assert (Hlog : Z.log2 n <= 7 + Z.log2 d).
  { rewrite <- Z.log2_mul_pow2 by lia. apply Z.log2_le_mono. nia. }
  set (e0 := Z.log2 n - Z.log2 d - 52).
  destruct (Double.scaled n d e0) as [a0 b0].
  set (e := if a0 <? b0 * 2 ^ 52 then e0 - 1 else e0).
  assert (He : e < 0) by (unfold e, e0; destruct (a0 <? b0 * 2 ^ 52); lia).
  unfold Double.scaled. destruct (0 <=? e) eqn:E0;
    [apply Z.leb_le in E0; lia|].
  cbn [Double.mant Double.expo]. split; [exact He|].
  assert (Hp : 0 < 2 ^ (- e)) by (apply Z.pow_pos_nonneg; lia).
  apply roundHalfEven_le; nia.
Qed.

Lemma round_le (v : Double.t) (k : Z) :
  Double.expo v < 0 ->
  Double.mant v <= k * 2 ^ (- Double.expo v) ->
  Double.round v <= k.
Proof.
  intros He Hm. unfold Double.round.
  destruct (0 <=? Double.expo v) eqn:E0; [apply Z.leb_le in E0; lia|].
  set (p := 2 ^ (- Double.expo v)) in *.
  assert (Hp : 0 < p) by (apply Z.pow_pos_nonneg; lia).
  replace (2 ^ (1 - Double.expo v)) with (2 * p).
  - apply Z.lt_succ_r. apply Z.div_lt_upper_bound; [lia|]. nia.
  - unfold p. replace (1 - Double.expo v) with (1 + - Double.expo v) by lia.
    rewrite Z.pow_add_r by lia. reflexivity.
Qed.

(** [Math.round((c / t) * 100)] does not exceed 100 when [c <= t]. *)
Lemma percent_le_100 (c t : Z) :
  0 <= c <= t -> 0 < t ->
  Double.round (Double.mulInt (Double.div c t) 100) <= 100.
Proof.
  intros [Hc Hct] Ht. unfold Double.div.
  destruct (Z.eq_dec c 0) as [->|Hc0]; [vm_compute; discriminate|].
  destruct (ofFraction_le c t 1 ltac:(lia) Ht ltac:(lia) ltac:(lia))
    as [He Hm].
  pose proof (DoubleProps.ofFraction_nonneg c t Hc Ht) as Hm0.
  set (v := Double.ofFraction c t) in *.
  unfold Double.mulInt.
  destruct (0 <=? Double.expo v) eqn:E0; [apply Z.leb_le in E0; lia|].
  assert (Hp : 0 < 2 ^ (- Double.expo v)) by (apply Z.pow_pos_nonneg; lia).
  destruct (Z.eq_dec (Double.mant v) 0) as [Hz|Hnz].
  - rewrite Hz. vm_compute. discriminate.
  - destruct (ofFraction_le (Double.mant v * 100) (2 ^ (- Double.expo v)) 100
                ltac:(lia) Hp ltac:(nia) ltac:(lia)) as [He' Hm'].
    now apply round_le.
Qed.

Lemma div_same (t : Z) :
  0 < t -> Double.div t t = Double.mk (2 ^ 52) (- 52).
Proof.
  intros Ht. unfold Double.div, Double.ofFraction.
  destruct (t =? 0) eqn:T0; [apply Z.eqb_eq in T0; lia|].
  replace (Z.log2 t - Z.log2 t - 52) with (- 52) by lia.
  change (Double.scaled t t (- 52)) with (t * 2 ^ 52, t).
  cbv beta iota zeta. rewrite Z.ltb_irrefl.
  change (Double.scaled t t (- 52)) with (t * 2 ^ 52, t).
  cbv beta iota zeta. unfold Double.roundHalfEven.
  rewrite (Z.mul_comm t (2 ^ 52)), Z.div_mul, Z.mod_mul by lia.
  destruct (2 * 0 <? t) eqn:L; [reflexivity|].
  apply Z.ltb_ge in L. lia.
Qed.

Section Percentages.
Variable localeCompare : string -> string -> Z.

Lemma record_counts_ordered (entries : list LogEntry) (r : PhaseStats) :
  In r (computePhaseStats localeCompare entries) ->
  0 <= completed r <= total r
  /\ percentage r
     = if 0 <? total r
       then Z.min 100
              (Double.round
                 (Double.mulInt (Double.div (completed r) (total r)) 100))
       else 0.
Proof.
  intros Hin. apply DashboardProps.computePhaseStats_In in Hin.
  destruct Hin as (n & Hn & ->).
  destruct (DashboardProps.phaseRecord_counts entries n Hn)
    as (_ & Ht & Hc & Hf & _ & Hp).
  set (units := unitsOf (filter (fun e => String.eqb (phase e) n) entries))
    in *.
  pose proof (DashboardProps.counts_partition units) as Hpart.
  pose proof (DashboardProps.countWhere_nonneg
                (fun u => hasStart u && latestIs isSuccessTerminal u) units).
  pose proof (DashboardProps.countWhere_nonneg
                (fun u => hasStart u && latestIs isFailureTerminal u) units).
  pose proof (DashboardProps.countWhere_nonneg
                (fun u => hasStart u
                          && negb (latestIs isSuccessTerminal u)
                          && negb (latestIs isFailureTerminal u)) units).
  split; [lia | exact Hp].
Qed.

(** X21.  In every record of [computePhaseStats] the clamp of the
    percentage to 100 never acts: the percentage is
    [Math.round((completed / total) * 100)] when total is positive and 0
    otherwise; it is 0 when nothing is completed and 100 when every counted
    work unit is completed. *)
Theorem percentage_values (entries : list LogEntry) (r : PhaseStats) :
  In r (computePhaseStats localeCompare entries) ->
  percentage r
  = (if 0 <? total r
     then Double.round
            (Double.mulInt (Double.div (completed r) (total r)) 100)
     else 0)
  /\ (completed r = 0 -> percentage r = 0)
  /\ (0 < total r -> completed r = total r -> percentage r = 100).
Proof.
  intros Hin. destruct (record_counts_ordered entries r Hin) as [Hc Hp].
  rewrite Hp. split; [|split].
  - destruct (0 <? total r) eqn:T; [|reflexivity].
    apply Z.ltb_lt in T. apply Z.min_r.
    now apply percent_le_100.
  - intros ->. destruct (0 <? total r) eqn:T; [|reflexivity].
    apply Z.ltb_lt in T. unfold Double.div.
    change (Double.ofFraction 0 (total r)) with (Double.mk 0 0).
    reflexivity.
  - intros Ht ->. apply Z.ltb_lt in Ht as T. rewrite T.
    rewrite (div_same (total r) Ht). reflexivity.
Qed.

End Percentages.

Lemma percentage_values_witness :
  let r := mkPhaseStats "implementation" 3 1 1 1 0 33 in
  percentage r
  = (if 0 <? total r
     then Double.round
            (Double.mulInt (Double.div (completed r) (total r)) 100)
     else 0)
  /\ (completed r = 0 -> percentage r = 0)
  /\ (0 < total r -> completed r = total r -> percentage r = 100).
Proof.
  apply (percentage_values codeUnitCompare threeUnitsScenario).
  vm_compute. left. reflexivity.
Defined.

(** ** The records of [computePhaseStats] *)

Lemma phaseMap_keys (entries : list LogEntry) :
  JsMap.keys (groupByPhase entries) = phasesOf entries.
Proof.
  rewrite DashboardProps.groupByPhase_grouped. apply grouped_keys.
Qed.

Lemma has_phasesOf (entries : list LogEntry) (c : string) :
  truthyString c = true ->
  JsSet.has c (phasesOf entries) = hasPhase entries c.
Proof.
  intros Hc. unfold phasesOf, hasPhase.
  destruct (existsb (fun e => String.eqb (phase e) c) entries) eqn:E.
  - apply existsb_exists in E. destruct E as (e & Hin & He).
    apply String.eqb_eq in He. apply set_has_In, distinct_In.
    apply in_map_iff. exists e. split; [exact He|].
    apply filter_In. split; [exact Hin|]. now rewrite He.
  - apply set_has_not_In. intros Hin. apply (proj1 (distinct_In _ _)) in Hin.
    apply in_map_iff in Hin. destruct Hin as (e & He & Hin).
    apply filter_In in Hin. destruct Hin as [Hin _].
    assert (Ex : existsb (fun e => String.eqb (phase e) c) entries = true).
    { apply existsb_exists. exists e. split; [exact Hin|].
      now apply String.eqb_eq. }
    congruence.
Qed.

Lemma canonical_truthy (c : string) :
  In c CANONICAL_PHASE_ORDER -> truthyString c = true.
Proof.
  unfold CANONICAL_PHASE_ORDER. cbn [In].
  intros [<-|[<-|[<-|[<-|[<-|[<-|[<-|[<-|[<-|[]]]]]]]]]]; reflexivity.
Qed.

Section Records.
Variable localeCompare : string -> string -> Z.

(** X22.  [computePhaseStats] returns one record for each distinct
    non-empty phase of the entries: first the canonical phases that some
    entry has, in canonical order, then the other phases in the order that
    sorting them with [localeCompare] gives; the [errors] field of every
    record is 0. *)
Theorem phase_records (entries : list LogEntry) :
  let records := computePhaseStats localeCompare entries in
  map name records
  = filter (hasPhase entries) CANONICAL_PHASE_ORDER
    ++ stableSort localeCompare
         (filter (fun p => negb (isKnownPhase p)) (phasesOf entries))
  /\ NoDup (map name records)
  /\ Forall (fun r => errors_count r = 0) records.
Proof.
  cbv zeta. unfold computePhaseStats. rewrite phaseMap_keys.
  assert (Hnames : forall l,
    map name (map (phaseRecord (groupByPhase entries)) l) = l).
  { intros l. rewrite map_map.
    induction l as [|n l IH]; [reflexivity|]. cbn [map]. rewrite IH.
    f_equal. unfold phaseRecord.
    destruct (fold_left countStep _ _) as [[t c] f]. reflexivity. }
  rewrite Hnames. split; [|split].
  - rewrite (sortPhases_split localeCompare (phasesOf entries))
      by apply distinct_NoDup.
    f_equal. apply filter_ext_in. intros c Hc.
    apply has_phasesOf. now apply canonical_truthy.
  - rewrite (sortPhases_split localeCompare (phasesOf entries))
      by apply distinct_NoDup.
    clear Hnames. apply NoDup_app.
    + apply NoDup_filter, canonical_NoDup.
    + apply (Permutation_NoDup
               (l := filter (fun p => negb (isKnownPhase p))
                            (phasesOf entries)));
        [|apply NoDup_filter, distinct_NoDup].
      unfold stableSort.
      induction (filter (fun p => negb (isKnownPhase p))
                        (phasesOf entries)) as [|x l IH];
        [constructor|].
      cbn [fold_right].
      apply Permutation_trans
        with (x :: fold_right (insertSorted localeCompare) [] l);
        [now constructor|].
      generalize (fold_right (insertSorted localeCompare) [] l).
      intros sorted. induction sorted as [|y r IHr];
        [constructor; constructor|].
      cbn [insertSorted].
      destruct (localeCompare x y <=? 0); [apply Permutation_refl|].
      apply Permutation_trans with (y :: x :: r);
        [constructor | now constructor].
    + intros p Hk Hu. apply filter_In in Hk. destruct Hk as [Hk _].
      apply DashboardProps.stableSort_In in Hu. apply filter_In in Hu.
      destruct Hu as [_ Hu]. apply negb_true_iff in Hu.
      apply isKnownPhase_In in Hk. congruence.
  - apply Forall_forall. intros r Hr. apply in_map_iff in Hr.
    destruct Hr as (n & <- & _). unfold phaseRecord.
    destruct (fold_left countStep _ _) as [[t c] f]. reflexivity.
Qed.

End Records.

(** ** Active agents *)

Section DeleteFacts.
Context {K V : Type} `{Key K}.

Lemma get_delete (k k' : K) (m : list (K * V)) :
  JsMap.get k (JsMap.delete k' m)
  = if keyb k k' then None else JsMap.get k m.
Proof.
  unfold JsMap.delete. induction m as [|[k0 v0] m IH]; cbn [filter JsMap.get fst].
  - now destruct (keyb k k').
  - destruct (keyb_spec k' k0) as [->|Hne]; cbn [negb].
    + rewrite IH. destruct (keyb k k0); reflexivity.
    + cbn [JsMap.get]. rewrite IH.
      destruct (keyb_spec k k') as [->|Hkk]; [|reflexivity].
      destruct (keyb_spec k' k0); [contradiction|reflexivity].
Qed.

Lemma keys_set (k : K) (v : V) (m : list (K * V)) :
  JsMap.keys (JsMap.set k v m) = JsSet.add k (JsMap.keys m).
Proof.
  unfold JsMap.keys, JsSet.add, JsSet.has.
  induction m as [|[k0 v0] m IH]; [reflexivity|].
  cbn [JsMap.set map fst existsb].
  destruct (keyb k k0); [reflexivity|]. cbn [map fst orb].
  rewrite IH. now destruct (existsb (keyb k) (map fst m)).
Qed.

Lemma keys_delete (k : K) (m : list (K * V)) :
  JsMap.keys (JsMap.delete k m)
  = filter (fun k' => negb (keyb k k')) (JsMap.keys m).
Proof.
  unfold JsMap.keys, JsMap.delete.
  induction m as [|[k0 v0] m IH]; [reflexivity|].
  cbn [filter map fst]. destruct (keyb k k0); cbn [negb map fst];
    now rewrite IH.
Qed.

Lemma In_get (k : K) (v : V) (m : list (K * V)) :
  NoDup (JsMap.keys m) -> In (k, v) m -> JsMap.get k m = Some v.
Proof.
  unfold JsMap.keys. induction m as [|[k0 v0] m IH]; intros Hnd Hin;
    [contradiction|].
  cbn [map fst] in Hnd. inversion Hnd as [|? ? Hk0 Hnd']; subst.
  cbn [JsMap.get]. destruct Hin as [E|Hin].
  - injection E as -> ->. now rewrite keyb_refl.
  - destruct (keyb_spec k k0) as [->|Hne]; [|now apply IH].
    exfalso. apply Hk0. apply in_map_iff. now exists (k0, v).
Qed.

Lemma get_In (k : K) (v : V) (m : list (K * V)) :
  JsMap.get k m = Some v -> In (k, v) m.
Proof.
  induction m as [|[k0 v0] m IH]; [discriminate|].
  cbn [JsMap.get]. destruct (keyb_spec k k0) as [->|Hne].
  - intros [= ->]. now left.
  - intros Hg. right. now apply IH.
Qed.

End DeleteFacts.

Lemma snoc_split {A} (l before after : list A) (x e : A) :
  l ++ [x] = before ++ e :: after ->
  (after = [] /\ l = before /\ x = e)
  \/ (exists after', after = after' ++ [x] /\ l = before ++ e :: after').
Proof.
  intros E. destruct after as [|y after] using rev_ind.
  - left. apply app_inj_tail in E. tauto.
  - right. clear IHafter. exists after.
    rewrite app_comm_cons, app_assoc in E.
    apply app_inj_tail in E. destruct E as [-> ->]. auto.
Qed.

Lemma starts_keys_NoDup (entries : list LogEntry) :
  NoDup (JsMap.keys (fold_left activeStep entries [])).
Proof.
  induction entries as [|x l IH] using rev_ind; [constructor|].
  rewrite fold_left_app. cbn [fold_left]. unfold activeStep.
  destruct (isStart x).
  - rewrite keys_set. now apply set_add_NoDup.
  - destruct (isClosing x); [|exact IH].
    rewrite keys_delete. now apply NoDup_filter.
Qed.

(** The map [starts] after the loop: a key holds the last START that wrote
    it, unless a closing entry deleted it afterwards. *)
Lemma starts_get (entries : list LogEntry) (k : string) (e : LogEntry) :
  JsMap.get k (fold_left activeStep entries []) = Some e
  <-> (openStart entries e /\ startKey e = k).
Proof.
  unfold openStart. revert e.
  induction entries as [|x l IH] using rev_ind; intros e.
  - cbn. split; [discriminate|].
    intros [(before & after & E & _) _]. destruct before; discriminate.
  - rewrite fold_left_app. cbn [fold_left].
    set (m := fold_left activeStep l []) in *.
    assert (Hkeep : touchesKey k x = false ->
      (JsMap.get k m = Some e
       <-> (exists before after,
              l ++ [x] = before ++ e :: after /\ isStart e = true
              /\ Forall (fun y => touchesKey (startKey e) y = false) after)
           /\ startKey e = k)).
    { intros Hx. rewrite IH. split.
      - intros [(before & after & -> & Hs & Hf) Hk]. split; [|exact Hk].
        exists before, (after ++ [x]). rewrite <- app_assoc. cbn [app].
        repeat split; auto. apply Forall_app. split; [exact Hf|].
        constructor; [|constructor]. now rewrite Hk.
      - intros [(before & after & E & Hs & Hf) Hk]. split; [|exact Hk].
        apply snoc_split in E. destruct E as [(-> & -> & ->)|(a' & -> & ->)].
        + unfold touchesKey in Hx. rewrite Hs, Hk, String.eqb_refl in Hx.
          discriminate.
        + exists before, a'. apply Forall_app in Hf. tauto. }
    unfold activeStep. destruct (isStart x) eqn:Sx.
    + rewrite get_set. cbn [keyb Key_string].
      destruct (String.eqb_spec k (startKey x)) as [->|Hne].
      * split.
        -- intros [= <-]. split; [|reflexivity].
           exists l, []. repeat split; auto.
        -- intros [(before & after & E & Hs & Hf) Hk].
           apply snoc_split in E.
           destruct E as [(-> & -> & ->)|(a' & -> & ->)]; [reflexivity|].
           apply Forall_app in Hf. destruct Hf as [_ Hf].
           inversion Hf as [|? ? Hx _]; subst. unfold touchesKey in Hx.
           rewrite Sx, Hk, String.eqb_refl in Hx. discriminate.
      * apply Hkeep. unfold touchesKey. rewrite Sx.
        apply String.eqb_neq. congruence.
    + destruct (isClosing x) eqn:Cx.
      * rewrite get_delete. cbn [keyb Key_string].
        destruct (String.eqb_spec k (closeKey x)) as [->|Hne].
        -- split; [discriminate|].
           intros [(before & after & E & Hs & Hf) Hk].
           apply snoc_split in E.
           destruct E as [(-> & -> & ->)|(a' & -> & ->)]; [congruence|].
           apply Forall_app in Hf. destruct Hf as [_ Hf].
           inversion Hf as [|? ? Hx _]; subst. unfold touchesKey in Hx.
           rewrite Sx, Cx, Hk, String.eqb_refl in Hx. discriminate.
        -- apply Hkeep. unfold touchesKey. rewrite Sx, Cx.
           apply String.eqb_neq. congruence.
      * apply Hkeep. unfold touchesKey. now rewrite Sx, Cx.
Qed.

(** X23.  [findActiveAgents] returns, without repetition, the agents of
    the STARTs that are still open at the end of the log: a START is open
    when no later START has its key agent-task_id (agent-log_seq without a
    task id) and no later COMPLETE, REVIEW_PASS, REVIEW_FAIL or ERROR has it
    as its key agent-task_id (or agent-parent_log_seq, or agent-log_seq).
    TEST_PASS and TEST_FAIL close nothing. *)
Theorem active_agents_spec (entries : list LogEntry) :
  NoDup (findActiveAgents entries)
  /\ forall a,
       In a (findActiveAgents entries)
       <-> exists e, openStart entries e /\ agent e = a.
Proof.
  unfold findActiveAgents. split; [apply distinct_NoDup|].
  intros a. rewrite distinct_In, in_map_iff. split.
  - intros (e & Ha & Hin). exists e. split; [|exact Ha].
    unfold JsMap.values in Hin. apply in_map_iff in Hin.
    destruct Hin as ([k e'] & E & Hin). cbn [snd] in E. subst e'.
    apply (In_get k e _ (starts_keys_NoDup entries)) in Hin.
    apply starts_get in Hin. tauto.
  - intros (e & Ho & Ha). exists e. split; [exact Ha|].
    assert (Hg : JsMap.get (startKey e) (fold_left activeStep entries [])
                 = Some e) by (apply starts_get; auto).
    apply get_In in Hg. unfold JsMap.values. apply in_map_iff.
    now exists (startKey e, e).
Qed.

End DashboardMore.

(* ================================================================== *)
(** * More on the live tail watcher *)
(* ================================================================== *)

Module WatcherMore.
Import Watcher.

(** X24.  In every state that the watcher can reach, isActive is true
    exactly when the interval is set; an active watcher has been started
    and has counted fewer than three consecutive failures; the counter is
    never negative and is zero as long as [start] was never called. *)
Theorem watcher_invariant (w : FileWatcher) :
  reachable w -> watcherInvariant w.
Proof. exact (WatcherProps.reachable_invariant w). Qed.

Lemma watcher_invariant_witness :
  watcherInvariant (fst (step (fst (step initial (Start 7%nat)))
                              (Tick ReadNull))).
Proof.
  apply watcher_invariant. apply reach_step, reach_step, reach_initial.
Defined.

(** X25.  What changes isActive, for a state that the watcher can reach:
    an inactive watcher becomes active by [start] and by nothing else; an
    active watcher becomes inactive by [stop], or by a poll (timer or
    manual) that fails to read the content when two failures are already
    counted, and by nothing else. *)
Theorem activity_changes (w : FileWatcher) (ev : Event) :
  reachable w ->
  (isActive w = false ->
   (isActive (fst (step w ev)) = true <-> isStartEvent ev = true))
  /\ (isActive w = true ->
      (isActive (fst (step w ev)) = false
       <-> ev = Stop
           \/ exists r, pollResult ev = Some r /\ isFailure r = true
                        /\ consecutiveFailures w = 2)).
Proof.
  intros Hr. apply WatcherProps.reachable_invariant in Hr.
  destruct Hr as (Hn & Ha & Hi & Hc). split.
  - intros Hact. specialize (Hi Hact).
    destruct w as [iv cfg n act]. cbn in Hi, Hact. subst iv act.
    destruct ev as [id| |r|r]; cbn [step isStartEvent fst intervalId].
    + cbn. tauto.
    + cbn. split; discriminate.
    + unfold poll, onFailure, resetFailures, stop.
      cbn [configured consecutiveFailures isActive intervalId].
      destruct cfg; cbn [negb fst isActive]; [|split; discriminate].
      destruct r as [c [|]| |];
        repeat match goal with
               | |- context [if ?b then _ else _] => destruct b
               end; cbn; split; discriminate.
    + cbn. split; discriminate.
  - intros Hact. destruct (Ha Hact) as (Hiv & Hcfg & Hlt).
    unfold LIVE_TAIL_MAX_FAILURES in Hlt.
    destruct w as [iv cfg n act]. cbn in Hiv, Hcfg, Hlt, Hact, Hn.
    subst cfg act. destruct iv as [id0|]; [|congruence].
    assert (Hpoll : forall r,
      isActive (fst (poll (mkWatcher (Some id0) true n true) r)) = false
      <-> (isFailure r = true /\ n = 2)).
    { intros r. unfold poll, onFailure, resetFailures, stop,
        LIVE_TAIL_MAX_FAILURES.
      cbn [configured consecutiveFailures isActive intervalId negb].
      destruct r as [c [|]| |]; cbn [isFailure].
      - cbn. split; [discriminate | intros [? _]; discriminate].
      - cbn. split; [discriminate | intros [? _]; discriminate].
      - destruct (3 <=? n + 1) eqn:E; cbn [fst isActive].
        + apply Z.leb_le in E. split; intros; [split; [reflexivity|lia]|
                                               reflexivity].
        + apply Z.leb_gt in E. split; [discriminate|]. intros [_ ?]. lia.
      - destruct (3 <=? n + 1) eqn:E; cbn [fst isActive].
        + apply Z.leb_le in E. split; intros; [split; [reflexivity|lia]|
                                               reflexivity].
        + apply Z.leb_gt in E. split; [discriminate|]. intros [_ ?]. lia. }
    cbn [consecutiveFailures].
    destruct ev as [id| |r|r]; cbn [step pollResult intervalId].
    + cbn. split; [discriminate|].
      intros [?|(r & ? & _)]; discriminate.
    + cbn. split; [now left | reflexivity].
    + rewrite Hpoll. split.
      * intros [Hf ->]. right. exists r. auto.
      * intros [?|(r' & [= <-] & Hf & ->)]; [discriminate|]. auto.
    + rewrite Hpoll. split.
      * intros [Hf ->]. right. exists r. auto.
      * intros [?|(r' & [= <-] & Hf & ->)]; [discriminate|]. auto.
Qed.

Lemma activity_changes_witness :
  let w := fst (run initial [Start 1%nat; Tick ReadNull; Tick ReadRejected]) in
  isActive w = true
  /\ (isActive (fst (step w (PollNow ReadNull))) = false
      <-> PollNow ReadNull = Stop
          \/ exists r, pollResult (PollNow ReadNull) = Some r
                       /\ isFailure r = true /\ consecutiveFailures w = 2).
Proof.
  cbv zeta. split; [reflexivity|].
  apply (activity_changes
           (fst (run initial [Start 1%nat; Tick ReadNull; Tick ReadRejected]))
           (PollNow ReadNull)).
  - exact (reach_step _ (Tick ReadRejected)
             (reach_step _ (Tick ReadNull)
                (reach_step _ (Start 1%nat) reach_initial))).
  - reflexivity.
Defined.

(** ** The calls made *)

Lemma orderlyCalls_app (c1 c2 : list Callback) :
  forall prev,
    orderlyCalls prev (c1 ++ c2)
    = orderlyCalls prev c1
      && orderlyCalls (fold_left (fun _ c => Some c) c1 prev) c2.
Proof.
  induction c1 as [|c c1 IH]; intros prev; [reflexivity|].
  cbn [app orderlyCalls fold_left]. now rewrite IH, andb_assoc.
Qed.

Lemma poll_orderly (w : FileWatcher) (r : ReadResult) (prev : option Callback) :
  0 <= consecutiveFailures w ->
  orderlyCalls prev (snd (poll w r)) = true.
Proof.
  intros Hn. unfold poll, onFailure, resetFailures, stop,
    LIVE_TAIL_MAX_FAILURES.
  destruct (configured w); cbn [negb snd]; [|reflexivity].
  cbn [consecutiveFailures].
  destruct r as [c [|]| |]; cbn [snd orderlyCalls]; try reflexivity.
  - destruct (3 <=? consecutiveFailures w + 1) eqn:E;
      cbn [snd orderlyCalls]; unfold LIVE_TAIL_MAX_FAILURES; rewrite ?E;
      rewrite ?andb_true_r; apply Z.leb_le; lia.
  - destruct (3 <=? consecutiveFailures w + 1) eqn:E;
      cbn [snd orderlyCalls]; unfold LIVE_TAIL_MAX_FAILURES; rewrite ?E;
      rewrite ?andb_true_r; apply Z.leb_le; lia.
Qed.

Lemma step_orderly (w : FileWatcher) (ev : Event) (prev : option Callback) :
  0 <= consecutiveFailures w ->
  orderlyCalls prev (snd (step w ev)) = true.
Proof.
  intros Hn. destruct ev as [id| |r|r]; cbn [step snd]; try reflexivity.
  - now apply poll_orderly.
  - destruct (intervalId w); [now apply poll_orderly | reflexivity].
Qed.

Lemma run_cons (w : FileWatcher) (ev : Event) (evs : list Event) :
  run w (ev :: evs)
  = (fst (run (fst (step w ev)) evs),
     snd (step w ev) ++ snd (run (fst (step w ev)) evs)).
Proof.
  cbn [run]. destruct (step w ev) as [w1 c1].
  cbn [fst snd]. now destruct (run w1 evs).
Qed.

(** X26.  In the calls made during any run from a state that the watcher
    can reach, every onDisabled comes right after an onError that reports
    at least three consecutive failures, and every onError reports at least
    one failure. *)
Theorem calls_orderly (w : FileWatcher) (evs : list Event) :
  reachable w -> orderlyCalls None (snd (run w evs)) = true.
Proof.
  generalize (@None Callback) as prev. intros prev Hr. revert w prev Hr.
  induction evs as [|ev evs IH]; intros w prev Hr; [reflexivity|].
  rewrite run_cons. cbn [snd]. rewrite orderlyCalls_app.
  rewrite step_orderly
    by (apply (WatcherProps.reachable_invariant w Hr)).
  cbn [andb]. apply IH. now apply reach_step.
Qed.

Lemma calls_orderly_witness :
  orderlyCalls None
    (snd (run (fst (step initial (Start 1%nat)))
              [Tick ReadNull; Tick ReadNull; PollNow ReadRejected;
               PollNow ReadNull]))
  = true.
Proof.
  apply calls_orderly. apply reach_step, reach_initial.
Defined.

(** ** Before the first start, and manual polls *)

(** X27.  A watcher on which [start] was never called does nothing: any
    sequence of stops, manual polls and timer ticks leaves it in its initial
    state and makes no call. *)
Theorem unstarted_watcher_inert (evs : list Event) :
  forallb (fun ev => negb (isStartEvent ev)) evs = true ->
  run initial evs = (initial, []).
Proof.
  induction evs as [|ev evs IH]; intros Hev; [reflexivity|].
  cbn [forallb] in Hev. apply andb_prop in Hev. destruct Hev as [He Hev].
  rewrite run_cons.
  assert (Hs : step initial ev = (initial, [])).
  { destruct ev as [id| |r|r]; try discriminate He; reflexivity. }
  rewrite Hs. cbn [fst snd]. now rewrite (IH Hev).
Qed.

Lemma unstarted_watcher_inert_witness :
  run initial [PollNow ReadNull; Tick (ReadContent "x" false); Stop;
               PollNow ReadRejected]
  = (initial, []).
Proof.
  apply unstarted_watcher_inert. reflexivity.
Defined.

Lemma failing_polls_run (rs : list ReadResult) :
  Forall (fun r => isFailure r = true) rs ->
  forall w,
    configured w = true ->
    0 <= consecutiveFailures w ->
    let w' := fst (run w (map PollNow rs)) in
    let calls := snd (run w (map PollNow rs)) in
    consecutiveFailures w'
    = consecutiveFailures w + Z.of_nat (List.length rs)
    /\ configured w' = true
    /\ Z.of_nat (List.length (filter isOnDisabled calls))
       = Z.max 0 (consecutiveFailures w + Z.of_nat (List.length rs) - 2)
         - Z.max 0 (consecutiveFailures w - 2).
Proof.
  induction 1 as [|r rs Hf _ IH]; intros w Hcfg Hn.
  - cbv zeta. cbn [map run fst snd filter List.length].
    change (Z.of_nat 0) with 0. repeat split; [lia | exact Hcfg | lia].
  - cbv zeta. cbn [map]. rewrite run_cons. cbn [fst snd].
    assert (Hstep :
      step w (PollNow r) = onFailure w).
    { cbn [step]. unfold poll. rewrite Hcfg. cbn [negb].
      destruct r as [c b| |]; [discriminate Hf|reflexivity|reflexivity]. }
    rewrite Hstep.
    assert (Hw1 :
      configured (fst (onFailure w)) = true
      /\ consecutiveFailures (fst (onFailure w)) = consecutiveFailures w + 1
      /\ Z.of_nat (List.length (filter isOnDisabled (snd (onFailure w))))
         = if 3 <=? consecutiveFailures w + 1 then 1 else 0).
    { unfold onFailure, stop, LIVE_TAIL_MAX_FAILURES.
      destruct (3 <=? consecutiveFailures w + 1); cbn; auto. }
    destruct Hw1 as (Hc1 & Hn1 & Hd1).
    destruct (IH (fst (onFailure w)) Hc1 ltac:(lia)) as (En & Ec & Ed).
    rewrite filter_app, length_app, Nat2Z.inj_add, Hd1, Ed, En, Hn1.
    cbn [List.length]. rewrite Nat2Z.inj_succ.
    repeat split; [lia | exact Ec |].
    destruct (3 <=? consecutiveFailures w + 1) eqn:E;
      [apply Z.leb_le in E | apply Z.leb_gt in E]; lia.
Qed.

(** X28.  Manual polls are not stopped by auto-disable: when a started
    watcher that has counted no failure gets k manual polls that all fail
    to read the content, the failure counter ends at k and onDisabled is
    called once for each of these polls from the third on. *)
Theorem manual_polls_repeat_onDisabled (w : FileWatcher)
    (rs : list ReadResult) :
  configured w = true ->
  consecutiveFailures w = 0 ->
  Forall (fun r => isFailure r = true) rs ->
  let w' := fst (run w (map PollNow rs)) in
  let calls := snd (run w (map PollNow rs)) in
  consecutiveFailures w' = Z.of_nat (List.length rs)
  /\ Z.of_nat (List.length (filter isOnDisabled calls))
     = Z.max 0 (Z.of_nat (List.length rs) - 2).
Proof.
  intros Hcfg Hz Hf. cbv zeta.
  destruct (failing_polls_run rs Hf w Hcfg ltac:(lia)) as (En & _ & Ed).
  rewrite En, Ed, Hz. split; lia.
Qed.

Lemma manual_polls_repeat_onDisabled_witness :
  let w := fst (step initial (Start 1%nat)) in
  let rs := [ReadNull; ReadRejected; ReadNull; ReadNull; ReadRejected] in
  consecutiveFailures (fst (run w (map PollNow rs))) = 5
  /\ Z.of_nat (List.length
                 (filter isOnDisabled (snd (run w (map PollNow rs)))))
     = Z.max 0 (5 - 2).
Proof.
  apply (manual_polls_repeat_onDisabled
           (fst (step initial (Start 1%nat)))
           [ReadNull; ReadRejected; ReadNull; ReadNull; ReadRejected]).
  - reflexivity.
  - reflexivity.
  - repeat constructor.
Defined.

End WatcherMore.

(* ================================================================== *)
(** * Filters *)
(* ================================================================== *)

Module FiltersMore.
Import Filters.

Lemma inactive_matches (f : FilterState) (e : LogEntry) :
  isFilterActive f = false -> matchesFilter e f = true.
Proof.
  unfold isFilterActive, matchesFilter.
  destruct f as [ag ac ph ws ff rf]. cbn [agents actions phases workSeqs
    fileFilter requirementFilter].
  destruct ag, ac, ph, ws, ff, rf; cbn; try discriminate. reflexivity.
Qed.

Lemma filter_all {A} (P : A -> bool) (l : list A) :
  (forall x, P x = true) -> filter P l = l.
Proof.
  intros Hp. induction l as [|x l IH]; [reflexivity|].
  cbn [filter]. now rewrite Hp, IH.
Qed.

Lemma applyFilters_filter (f : FilterState) (entries : list LogEntry) :
  applyFilters f entries = filter (fun e => matchesFilter e f) entries.
Proof.
  unfold applyFilters. destruct (isFilterActive f) eqn:Ha; [reflexivity|].
  cbn [negb]. symmetry. apply filter_all. intros e.
  now apply inactive_matches.
Qed.

(** X29.  The early return of [applyFilters] cannot be observed: for every
    filter state the result is the sublist of the entries that
    [matchesFilter] accepts, in their order.  Hence applying the same
    filters twice changes nothing more, and the result for a log followed
    by appended entries is the result for the log followed by the result
    for the appended entries. *)
Theorem applyFilters_spec (f : FilterState) (a b : list LogEntry) :
  applyFilters f a = filter (fun e => matchesFilter e f) a
  /\ applyFilters f (applyFilters f a) = applyFilters f a
  /\ applyFilters f (a ++ b) = applyFilters f a ++ applyFilters f b.
Proof.
  rewrite !applyFilters_filter. split; [reflexivity|]. split.
  - apply DashboardProps.filter_filter_implied. auto.
  - apply filter_app.
Qed.

Lemma has_distinct (x : string) (l : list string) :
  JsSet.has x (distinct l) = JsSet.has x l.
Proof.
  destruct (JsSet.has x l) eqn:E.
  - apply set_has_In, distinct_In. now apply set_has_In.
  - apply set_has_not_In. intros Hin.
    apply (proj1 (distinct_In _ _)) in Hin.
    apply set_has_In in Hin. congruence.
Qed.

Lemma has_delete (x v : string) (l : list string) :
  JsSet.has x (JsSet.delete v l)
  = negb (String.eqb x v) && JsSet.has x l.
Proof.
  unfold JsSet.has, JsSet.delete.
  change (@keyb string Key_string) with String.eqb.
  induction l as [|y l IH]; [now rewrite andb_false_r|].
  cbn [filter existsb].
  destruct (String.eqb_spec v y) as [->|Hvy]; cbn [negb].
  - rewrite IH. destruct (String.eqb_spec x y); reflexivity.
  - cbn [existsb]. rewrite IH.
    destruct (String.eqb_spec x y) as [->|Hxy];
      [|now rewrite orb_false_l].
    destruct (String.eqb_spec y v); [congruence|reflexivity].
Qed.

Lemma has_add (x v : string) (l : list string) :
  JsSet.has x (JsSet.add v l) = String.eqb x v || JsSet.has x l.
Proof.
  unfold JsSet.add. destruct (JsSet.has v l) eqn:Hv.
  - destruct (String.eqb_spec x v) as [->|]; [now rewrite Hv|reflexivity].
  - unfold JsSet.has. change (@keyb string Key_string) with String.eqb.
    rewrite existsb_app. cbn [existsb].
    rewrite orb_false_r. apply orb_comm.
Qed.

(** The value sets of two states accept the same values. *)
Lemma toggle_twice_dimension (s : list string) (v : string) :
  let once := if JsSet.has v (distinct s) then JsSet.delete v (distinct s)
              else JsSet.add v (distinct s) in
  let twice := if JsSet.has v (distinct once)
               then JsSet.delete v (distinct once)
               else JsSet.add v (distinct once) in
  nonEmptySet twice = nonEmptySet s
  /\ forall x, JsSet.has x twice = JsSet.has x s.
Proof.
  intros once twice.
  assert (Hmem : forall x, JsSet.has x twice = JsSet.has x s).
  { intros x. unfold twice, once. rewrite (has_distinct v s).
    destruct (JsSet.has v s) eqn:Hv.
    - rewrite (has_distinct v (JsSet.delete v (distinct s))).
      rewrite (has_delete v v), String.eqb_refl. cbn [negb andb].
      rewrite has_add, has_distinct, has_delete, has_distinct.
      destruct (String.eqb_spec x v) as [->|]; [now rewrite Hv|reflexivity].
    - rewrite (has_distinct v (JsSet.add v (distinct s))).
      rewrite (has_add v v), String.eqb_refl. cbn [orb].
      rewrite has_delete, has_distinct, has_add, has_distinct.
      destruct (String.eqb_spec x v) as [->|]; [now rewrite Hv|reflexivity]. }
  split; [|exact Hmem].
  destruct (nonEmptySet s) eqn:Es.
  - destruct s as [|y s']; [discriminate|].
    assert (Hy : JsSet.has y twice = true).
    { rewrite Hmem. unfold JsSet.has.
      change (@keyb string Key_string) with String.eqb.
      cbn [existsb]. now rewrite String.eqb_refl. }
    destruct twice; [discriminate Hy | reflexivity].
  - destruct s; [|discriminate].
    destruct twice as [|y t] eqn:Et; [reflexivity|].
    assert (Hy : JsSet.has y (y :: t) = true).
    { unfold JsSet.has. change (@keyb string Key_string) with String.eqb.
      cbn [existsb]. now rewrite String.eqb_refl. }
    rewrite Hmem in Hy. discriminate Hy.
Qed.

Lemma matchesFilter_ext (e : LogEntry) (f g : FilterState) :
  (forall d, nonEmptySet (getDimension f d) = nonEmptySet (getDimension g d)
             /\ forall x, JsSet.has x (getDimension f d)
                          = JsSet.has x (getDimension g d)) ->
  fileFilter f = fileFilter g ->
  requirementFilter f = requirementFilter g ->
  matchesFilter e f = matchesFilter e g.
Proof.
  intros Hd Hf Hr. unfold matchesFilter. rewrite Hf, Hr.
  destruct (Hd Agents) as [E1 M1], (Hd Actions) as [E2 M2],
    (Hd Phases) as [E3 M3], (Hd WorkSeqs) as [E4 M4].
  cbn [getDimension] in *.
  now rewrite E1, E2, E3, E4, M1, M2, M3, M4.
Qed.

(** X30.  Toggling the same value of the same dimension twice leaves the
    filtering as it was: every entry is accepted after the two toggles
    exactly when it was accepted before (the value may have moved to the
    end of its set). *)
Theorem toggle_twice (f : FilterState) (d : FilterDimension) (v : string)
    (entries : list LogEntry) :
  let f2 := filterReducer (filterReducer f (TOGGLE_FILTER_VALUE d v))
                          (TOGGLE_FILTER_VALUE d v) in
  applyFilters f2 entries = applyFilters f entries.
Proof.
  cbv zeta. rewrite !applyFilters_filter. apply filter_ext. intros e.
  apply matchesFilter_ext.
  - intros d'. pose proof (toggle_twice_dimension (getDimension f d) v) as T.
    cbv zeta in T.
    destruct f as [ag ac ph ws ff rf].
    destruct d, d'; cbn [filterReducer getDimension setDimension agents
      actions phases workSeqs] in *; try (split; reflexivity); exact T.
  - destruct f as [ag ac ph ws ff rf]. now destruct d.
  - destruct f as [ag ac ph ws ff rf]. now destruct d.
Qed.

End FiltersMore.
